(** * exdenv: the built-in .env parser and the loadEnv pipeline

    A shallow embedding of [parse], [LINE], [loadFile] and [loadEnv]
    (TypeScript), and of the earlier [loadEnv] that parses with dotenv, with
    the regular expressions of the source interpreted by a backtracking
    matcher that follows the ECMAScript pattern semantics
    (continuation-passing matchers, RepeatMatcher, multiline assertions). *)

From Stdlib Require Import NArith Ascii String Lia.
From stdpp Require Import base option list gmap strings.

Set Default Proof Using "Type".

(** ** Strings

    A JavaScript string is a sequence of UTF-16 code units; a code unit is a
    number below 65536, kept here as an [N]. *)

Abbreviation jsstring := (list N) (only parsing).

(** The JavaScript string of an ASCII literal. *)
Definition js (s : string) : jsstring :=
  N_of_ascii <$> list_ascii_of_string s.
Arguments js : simpl never.

(** The code units the source names. *)
Module Ch.
Definition TAB : N := 9.
Definition LF : N := 10.
Definition VT : N := 11.
Definition FF : N := 12.
Definition CR : N := 13.
Definition SP : N := 32.
Definition DQUOTE : N := 34.      (* double quote *)
Definition HASH : N := 35.        (* # *)
Definition SQUOTE : N := 39.      (* single quote *)
Definition DASH : N := 45.        (* - *)
Definition DOT : N := 46.         (* . *)
Definition COLON : N := 58.       (* : *)
Definition EQUALS : N := 61.      (* = *)
Definition BACKSLASH : N := 92.
Definition UNDERSCORE : N := 95.
Definition BACKTICK : N := 96.
Definition LOWER_N : N := 110.
Definition LOWER_R : N := 114.
Definition NBSP : N := 160.
Definition LS : N := 8232.        (* U+2028 *)
Definition PS : N := 8233.        (* U+2029 *)
End Ch.

(** LineTerminator of the language grammar. *)
Definition is_line_terminator (c : N) : bool :=
  (c =? Ch.LF)%N || (c =? Ch.CR)%N || (c =? Ch.LS)%N || (c =? Ch.PS)%N.

(** WhiteSpace and LineTerminator: the class [\s], and what [trim] removes. *)
Definition is_space (c : N) : bool :=
  (c =? Ch.TAB)%N || (c =? Ch.VT)%N || (c =? Ch.FF)%N || (c =? Ch.SP)%N
  || (c =? Ch.NBSP)%N || (c =? 5760)%N
  || ((8192 <=? c)%N && (c <=? 8202)%N)
  || (c =? 8239)%N || (c =? 8287)%N || (c =? 12288)%N || (c =? 65279)%N
  || is_line_terminator c.

(** The class [\w]: ASCII letters, digits and underscore. *)
Definition is_word (c : N) : bool :=
  ((97 <=? c)%N && (c <=? 122)%N) || ((65 <=? c)%N && (c <=? 90)%N)
  || ((48 <=? c)%N && (c <=? 57)%N) || (c =? Ch.UNDERSCORE)%N.

(** [[\w.-]] *)
Definition is_key_char (c : N) : bool :=
  is_word c || (c =? Ch.DOT)%N || (c =? Ch.DASH)%N.

(** [[^#\r\n]] *)
Definition is_plain_char (c : N) : bool :=
  negb ((c =? Ch.HASH)%N || (c =? Ch.CR)%N || (c =? Ch.LF)%N).

(** [.] without the s flag *)
Definition is_dot (c : N) : bool := negb (is_line_terminator c).

(** [[\s\S]] *)
Definition is_any (c : N) : bool := is_space c || negb (is_space c).

(** The character [a], and the class of everything but [a]. *)
Definition is_char (a : N) (c : N) : bool := (c =? a)%N.
Definition is_not_char (a : N) (c : N) : bool := negb (c =? a)%N.

(** The class of the three quote characters: single, double, backtick. *)
Definition is_quote (c : N) : bool :=
  (c =? Ch.SQUOTE)%N || (c =? Ch.DQUOTE)%N || (c =? Ch.BACKTICK)%N.

(** The text without its leading white space and line terminators. *)
Fixpoint drop_spaces (s : jsstring) : jsstring :=
  match s with
  | c :: s' => if is_space c then drop_spaces s' else s
  | [] => []
  end.

(** String.prototype.trim *)
Definition trimStart (s : jsstring) : jsstring := drop_spaces s.
Definition trimEnd (s : jsstring) : jsstring :=
  reverse (drop_spaces (reverse s)).
Definition trim (s : jsstring) : jsstring := trimEnd (trimStart s).

(** ** Regular expressions

    The patterns of the source are written as terms; [rmatch] gives them the
    meaning the language definition gives to patterns: a matcher takes a
    state and a continuation, alternatives are tried in order, quantifiers
    are greedy or lazy and give back what they took when the continuation
    fails. *)

Inductive regex : Type :=
| Eps
| Chr (p : N → bool)                       (* a class, or one character *)
| Seq (a b : regex)
| Alt (a b : regex)                         (* a|b, a first *)
| Quant (min : nat) (max : option nat) (greedy : bool) (a : regex)
| Group (n : nat) (a : regex)               (* capturing group number n *)
| Backref (n : nat)                         (* \n *)
| Bol                                       (* ^ under the m flag *)
| Eol.                                      (* $ under the m flag *)

Definition Star (a : regex) : regex := Quant 0 None true a.          (* a*  *)
Definition StarLazy (a : regex) : regex := Quant 0 None false a.     (* a*? *)
Definition Plus (a : regex) : regex := Quant 1 None true a.          (* a+  *)
Definition PlusLazy (a : regex) : regex := Quant 1 None false a.     (* a+? *)
Definition Opt (a : regex) : regex := Quant 0 (Some 1) true a.       (* a?  *)

(** A literal text: its characters in sequence. *)
Fixpoint Lit (w : jsstring) : regex :=
  match w with
  | [] => Eps
  | c :: w' => Seq (Chr (is_char c)) (Lit w')
  end.

(** The capturing groups inside a term (their captures are reset when a
    quantifier starts an iteration). *)
Fixpoint groups (r : regex) : list nat :=
  match r with
  | Eps | Chr _ | Backref _ | Bol | Eol => []
  | Seq a b | Alt a b => groups a ++ groups b
  | Quant _ _ _ a => groups a
  | Group n a => n :: groups a
  end.

(** The match state: the code unit before the current position (none at
    index 0), the input from the current position on, and the captures. *)
Record mstate : Type := MState {
  prev : option N;
  rest : jsstring;
  caps : gmap nat jsstring
}.

(** A continuation takes a state to a final state or fails; a matcher takes
    a state and a continuation. *)
Definition Cont : Type := mstate → option mstate.
Definition Matcher : Type := mstate → Cont → option mstate.

(** The first result unless it is a failure. *)
Definition or_else (a b : option mstate) : option mstate :=
  match a with
  | Some x => Some x
  | None => b
  end.

(** The state with the captures of the groups [g] undefined. *)
Definition clear_groups (g : list nat) (x : mstate) : mstate :=
  MState (prev x) (rest x) (foldr delete (caps x) g).

(** RepeatMatcher(m, min, max, greedy, x, c) of the language definition, in
    three parts. [repeat_cont] is its continuation d: an iteration that
    consumed nothing once [min] is reached fails, any other goes on with
    [again]. [repeat_choice] are its last steps: the captures of the
    quantified term are reset, then the iteration is mandatory, or tried
    after the continuation (lazy), or tried before it (greedy). *)
Definition repeat_cont (min : nat) (x : mstate) (again : Cont) : Cont :=
  λ y, if (min =? 0) && (length (rest y) =? length (rest x))
       then None
       else again y.

Definition repeat_choice (m : Matcher) (g : list nat) (min : nat)
    (greedy : bool) (x : mstate) (c d : Cont) : option mstate :=
  let xr := clear_groups g x in
  if negb (min =? 0) then m xr d
  else if negb greedy then or_else (c x) (m xr d)
  else or_else (m xr d) (c x).

(** The fuel bounds the recursion: one unit per iteration, and an iteration
    either lowers [min] or consumes input, so [repeat_fuel] is enough
    ([rmatch_Quant] below is the same equation without fuel). *)
Fixpoint RepeatMatcher (m : Matcher) (g : list nat) (fuel : nat)
    (min : nat) (max : option nat) (greedy : bool)
    (x : mstate) (c : Cont) : option mstate :=
  match fuel with
  | 0 => None
  | S fuel' =>
      match max with
      | Some 0 => c x
      | _ =>
          repeat_choice m g min greedy x c
            (repeat_cont min x
               (λ y, RepeatMatcher m g fuel' (pred min) (pred <$> max) greedy y c))
      end
  end.

(** The fuel given to a quantifier at the state [x]. *)
Definition repeat_fuel (min : nat) (x : mstate) : nat :=
  S (min + length (rest x)).

(** [w] is a prefix of [s]. *)
Definition starts_with (w s : jsstring) : bool :=
  bool_decide (take (length w) s = w).

(** The matcher of a term. A group records what its term consumed; a
    backreference to a group that did not take part matches the empty text. *)
Fixpoint rmatch (r : regex) (x : mstate) (c : Cont) {struct r} : option mstate :=
  match r with
  | Eps => c x
  | Chr p =>
      match rest x with
      | ch :: tl => if p ch then c (MState (Some ch) tl (caps x)) else None
      | [] => None
      end
  | Seq a b => rmatch a x (λ y, rmatch b y c)
  | Alt a b => or_else (rmatch a x c) (rmatch b x c)
  | Quant min max greedy a =>
      RepeatMatcher (rmatch a) (groups a) (repeat_fuel min x) min max greedy x c
  | Group n a =>
      rmatch a x (λ y,
        let captured := take (length (rest x) - length (rest y)) (rest x) in
        c (MState (prev y) (rest y) (<[n := captured]> (caps y))))
  | Backref n =>
      match caps x !! n with
      | None => c x
      | Some w =>
          if starts_with w (rest x)
          then c (MState (from_option Some (prev x) (last w))
                         (drop (length w) (rest x)) (caps x))
          else None
      end
  | Bol =>
      match prev x with
      | None => c x
      | Some p => if is_line_terminator p then c x else None
      end
  | Eol =>
      match rest x with
      | [] => c x
      | n :: _ => if is_line_terminator n then c x else None
      end
  end.

(** RegExpBuiltinExec for a global pattern: the first index at or after
    lastIndex where the pattern matches. The result is the text skipped
    before the match and the state at its end. *)
Fixpoint exec_from (r : regex) (p : option N) (s : jsstring)
    : option (jsstring * mstate) :=
  match rmatch r (MState p s ∅) Some with
  | Some y => Some ([], y)
  | None =>
      match s with
      | [] => None
      | ch :: tl =>
          (λ '(skipped, y), (ch :: skipped, y)) <$> exec_from r (Some ch) tl
      end
  end.

(** RegExp.prototype[Symbol.replace] for a global pattern: every match of
    [r], left to right, is replaced by [tmpl] of its end state; after an
    empty match lastIndex is advanced by one code unit. [None] only when the
    fuel runs out. *)
Fixpoint replace_loop (fuel : nat) (r : regex) (tmpl : mstate → jsstring)
    (p : option N) (s : jsstring) : option jsstring :=
  match fuel with
  | 0 => None
  | S fuel' =>
      match exec_from r p s with
      | None => Some s
      | Some (skipped, y) =>
          if length (rest y) =? length s - length skipped
          then match rest y with
               | [] => Some (skipped ++ tmpl y)
               | ch :: tl =>
                   (λ out, skipped ++ tmpl y ++ ch :: out)
                     <$> replace_loop fuel' r tmpl (Some ch) tl
               end
          else (λ out, skipped ++ tmpl y ++ out)
                 <$> replace_loop fuel' r tmpl (prev y) (rest y)
      end
  end.

(** [s.replace(r, tmpl)] for a global pattern [r]. *)
Definition replace (r : regex) (tmpl : mstate → jsstring) (s : jsstring)
    : option jsstring :=
  replace_loop (S (length s)) r tmpl None s.

(** Replacement templates: a literal text, and [$n]. *)
Definition tmpl_text (w : jsstring) : mstate → jsstring := λ _, w.
Definition tmpl_group (n : nat) : mstate → jsstring :=
  λ y, default [] (caps y !! n).

(** ** The parser *)

(** [\s] *)
Definition space : regex := Chr is_space.

(** One quoted alternative of the value group, for the quote character [q]:
    optional blanks, [q], then escaped quotes or other characters, then [q]. *)
Definition quoted (q : N) : regex :=
  Seq (Star space)
 (Seq (Chr (is_char q))
 (Seq (Star (Alt (Lit [Ch.BACKSLASH; q]) (Chr (is_not_char q))))
      (Chr (is_char q)))).

(** The pattern LINE, flags m and g, part by part. *)

(** [export\s+] *)
Definition EXPORT : regex := Seq (Lit (js "export")) (Plus space).

(** [([\w.-]+)] *)
Definition KEY : regex := Group 1 (Plus (Chr is_key_char)).

(** The separator: blanks, an equals sign and (lazily) blanks; or a colon
    and (lazily) at least one blank. *)
Definition SEPARATOR : regex :=
  Alt (Seq (Star space) (Seq (Chr (is_char Ch.EQUALS)) (StarLazy space)))
      (Seq (Chr (is_char Ch.COLON)) (PlusLazy space)).

(** The second group: a single-quoted, double-quoted or backtick-quoted
    text, or [[^#\r\n]+]. *)
Definition VALUE : regex :=
  Group 2
    (Alt (quoted Ch.SQUOTE)
    (Alt (quoted Ch.DQUOTE)
    (Alt (quoted Ch.BACKTICK)
         (Plus (Chr is_plain_char))))).

(** A comment: a hash and the rest of the line. *)
Definition COMMENT : regex := Seq (Chr (is_char Ch.HASH)) (Star (Chr is_dot)).

(** What follows the separator: the optional second group, optional
    blanks, an optional comment, the end of a line. *)
Definition LINE_TAIL : regex :=
  Seq (Opt VALUE) (Seq (Star space) (Seq (Opt COMMENT) (Alt Eol Eol))).

Definition LINE : regex :=
  Seq (Alt Bol Bol)
 (Seq (Star space)
 (Seq (Opt EXPORT)
 (Seq KEY
 (Seq SEPARATOR LINE_TAIL)))).

(** The pattern of line 183, a carriage return and an optional newline. *)
Definition LINE_BREAK : regex :=
  Seq (Chr (is_char Ch.CR)) (Opt (Chr (is_char Ch.LF))).

(** The pattern of line 199: a quote, anything, the same quote, on a line. *)
Definition SURROUNDING_QUOTES : regex :=
  Seq Bol
 (Seq (Group 1 (Chr is_quote))
 (Seq (Group 2 (Star (Chr is_any)))
 (Seq (Backref 1) Eol))).

(** The patterns of lines 203 and 204: a backslash and the letter n (r). *)
Definition ESCAPED_N : regex := Lit [Ch.BACKSLASH; Ch.LOWER_N].
Definition ESCAPED_R : regex := Lit [Ch.BACKSLASH; Ch.LOWER_R].

(** A Record<string, string> is kept as the finite map of its own
    properties, [gmap jsstring jsstring]: the object built by the parser is an
    ordinary object created by an object literal. *)

Definition PROTO : jsstring := js "__proto__".

(** [obj[key] = value] on such an object, for a string value. An own
    property of that name is overwritten; otherwise every name but one gets a
    new own property. The name __proto__, when not an own property, resolves
    to the accessor inherited from Object.prototype, whose setter ignores a
    value that is neither an object nor null: nothing is stored. *)
Definition obj_set (obj : gmap jsstring jsstring) (key value : jsstring)
    : gmap jsstring jsstring :=
  if decide (key = PROTO ∧ obj !! PROTO = None) then obj
  else <[key := value]> obj.

(** Lines 189 to 205: the value stored for a match whose second group is
    [m2] ([None] when the group did not take part). *)
Definition match_value (m2 : option jsstring) : option jsstring :=
  let value := default [] m2 in
  let value := trim value in
  let maybeQuote := head value in
  value ← replace SURROUNDING_QUOTES (tmpl_group 2) value;
  if decide (maybeQuote = Some Ch.DQUOTE)
  then value ← replace ESCAPED_N (tmpl_text [Ch.LF]) value;
       replace ESCAPED_R (tmpl_text [Ch.CR]) value
  else Some value.

(** The while loop of lines 186 to 209. [p] and [s] are the position of
    LINE.lastIndex in [lines]: the code unit before it and the text from it
    on. The loop ends when exec returns null, which puts lastIndex back to 0,
    so every call of [parse] starts its scan at index 0. [None] only when the
    fuel runs out. *)
Fixpoint parse_loop (fuel : nat) (p : option N) (s : jsstring)
    (obj : gmap jsstring jsstring) : option (gmap jsstring jsstring) :=
  match fuel with
  | 0 => None
  | S fuel' =>
      match exec_from LINE p s with
      | None => Some obj
      | Some (_, y) =>
          let key := default [] (caps y !! 1) in
          value ← match_value (caps y !! 2);
          parse_loop fuel' (prev y) (rest y) (obj_set obj key value)
      end
  end.

(** [parse], applied to the text [src.toString()]. *)
Definition parse (src : jsstring) : option (gmap jsstring jsstring) :=
  lines ← replace LINE_BREAK (tmpl_text [Ch.LF]) src;
  parse_loop (S (length lines)) None lines ∅.

(** ** The loader *)

(** BufferEncoding of the Node typings. *)
Inductive BufferEncoding : Type :=
| enc_ascii | enc_utf8 | enc_utf_8 | enc_utf16le | enc_utf_16le | enc_ucs2
| enc_ucs_2 | enc_base64 | enc_base64url | enc_latin1 | enc_binary | enc_hex.

(** What the source gets where it reads a property under a computed name
    (process.env[key], defaultsPathsMap[currentEnvironment]): a string, or
    an object (a function is one). Of an object the loader only uses its
    truthiness and the text that String, a template literal and a property
    key make of it. *)
Inductive Value : Type :=
| Str (s : jsstring)
| Obj (text : jsstring).

(** String(v), also what a template literal and a property key make of
    [v]; [None] is undefined. *)
Definition to_text (v : option Value) : jsstring :=
  match v with
  | Some (Str s) => s
  | Some (Obj text) => text
  | None => js "undefined"
  end.

(** What the loader takes from its host: path.resolve, the decoding of file
    bytes by readFileSync under an encoding, Buffer.prototype.toString, and
    JSON.stringify(issue, null, 2) on the issues of the schema library;
    [inherited name], the member of Object.prototype that a property read
    finds under [name] on an object with no own property of that name, as
    the text String gives for it ([None] when there is none; constructor and
    toString are functions there, __proto__ reads the prototype itself);
    [getenv], the variable the environment of the process finds for a
    property name of process.env; [environ_name] and [environ_value], the
    name and the text under which the environment stores a string assigned
    to a property of process.env ([None] when it stores nothing for that
    name). *)
Record Host (Issue : Type) : Type := {
  path_resolve : jsstring → jsstring → jsstring;
  decode : BufferEncoding → list N → jsstring;
  Buffer_toString : list N → jsstring;
  JSON_stringify : Issue → jsstring;
  inherited : jsstring → option jsstring;
  getenv : gmap jsstring jsstring → jsstring → option jsstring;
  environ_name : jsstring → option jsstring;
  environ_value : jsstring → jsstring
}.
Arguments path_resolve {Issue} _ _ _.
Arguments decode {Issue} _ _ _.
Arguments Buffer_toString {Issue} _ _.
Arguments JSON_stringify {Issue} _ _.
Arguments inherited {Issue} _ _.
Arguments getenv {Issue} _ _ _.
Arguments environ_name {Issue} _ _.
Arguments environ_value {Issue} _ _.

(** The value of type [string | Buffer] read from a file. *)
Inductive FileContent : Type :=
| FBuffer (bytes : list N)
| FString (text : jsstring).

(** The state the loader works on. [process_env] holds the variables of the
    environment of the process, names and values as the host stores them;
    [files] gives the bytes of the files that can be read; [reads] logs the
    arguments given to readFileSync. *)
Record World : Type := {
  process_env : gmap jsstring jsstring;
  cwd : jsstring;
  files : jsstring → option (list N);
  reads : list Value
}.

(** The world with another process.env, and the world after one more call
    of readFileSync. *)
Definition set_process_env (w : World) (e : gmap jsstring jsstring) : World :=
  {| process_env := e; cwd := cwd w; files := files w; reads := reads w |}.

Definition log_read (w : World) (path : Value) : World :=
  {| process_env := process_env w; cwd := cwd w; files := files w;
     reads := reads w ++ [path] |}.

(** The result of schema.try. The value of a success is given by its own
    enumerable properties, in the order Object.assign visits them, each with
    the text String makes of its value, [None] for a value that String
    throws on (a symbol, for one). *)
Inductive TryResult (Issue : Type) : Type :=
| Ok (value : list (jsstring * option jsstring))
| Err (issues : list Issue).
Arguments Ok {Issue} _.
Arguments Err {Issue} _.

(** A parser, as the option [parse] takes one: from a file content to a
    record, or [None] when the call does not return. *)
Definition Parser : Type := FileContent → option (gmap jsstring jsstring).

(** The interface IOptions; an absent option is [None]. *)
Record IOptions : Type := {
  corePath : option jsstring;
  defaultsPathsMap : option (gmap jsstring jsstring);
  processEnvKey : option jsstring;
  parse_option : option Parser;
  encoding : option BufferEncoding
}.

(** How a call ends when it does not return: an Error thrown by loadEnv
    itself, a call of a supplied parser that did not return, or the
    TypeError of the assignment of line 147 on a value that String throws
    on. *)
Inductive Abrupt : Type :=
| Throw (message : jsstring)
| ParserAbort
| AssignAbort.

(** Truthiness of an optional string, of what a property read gave, and of
    an optional file content: an object (a Buffer is one) is always truthy;
    a string is truthy unless empty. *)
Definition truthy_string (v : option jsstring) : bool :=
  match v with
  | Some (_ :: _) => true
  | _ => false
  end.

Definition truthy_value (v : option Value) : bool :=
  match v with
  | Some (Str (_ :: _)) => true
  | Some (Obj _) => true
  | _ => false
  end.

Definition truthy_content (v : option FileContent) : bool :=
  match v with
  | Some (FBuffer _) => true
  | Some (FString (_ :: _)) => true
  | _ => false
  end.

(** [a || d] for an optional string [a] and a string [d], and for what a
    property read gave. *)
Definition string_or (a : option jsstring) (d : jsstring) : jsstring :=
  match a with
  | Some (c :: s) => c :: s
  | _ => d
  end.

Definition value_or (a : option Value) (d : Value) : Value :=
  match a with
  | Some (Str (c :: s)) => Str (c :: s)
  | Some (Obj text) => Obj text
  | _ => d
  end.

(** [a || ''] for an optional file content. *)
Definition content_or_empty (a : option FileContent) : FileContent :=
  match a with
  | Some (FBuffer b) => FBuffer b
  | Some (FString (c :: s)) => FString (c :: s)
  | _ => FString []
  end.

(** The messages of the Errors of lines 111 and 125. *)
Definition ERROR_NO_ENVIRONMENT : jsstring :=
  js "For loading the actual .env defaults file, there is necessary environment in process.env".
Definition ERROR_NO_FILE : jsstring :=
  js "There are necessary either the core (.env) file or defaults (.env.[environment].defaults) file".

(** Array.prototype.join *)
Fixpoint join (sep : jsstring) (l : list jsstring) : jsstring :=
  match l with
  | [] => []
  | [s] => s
  | s :: l' => s ++ sep ++ join sep l'
  end.

(** Object.assign(target, source) on ordinary objects: each own property of
    the source is assigned on the target. *)
Definition Object_assign (target source : gmap jsstring jsstring)
    : gmap jsstring jsstring :=
  foldl (λ obj kv, obj_set obj kv.1 kv.2) target (map_to_list source).

Section Loader.
Context {Issue : Type} (host : Host Issue).

(** [obj[name]] on an ordinary object with the own properties [own], all
    strings: the own property, or else what Object.prototype has under that
    name. *)
Definition property_read (own : gmap jsstring jsstring) (name : jsstring)
    : option Value :=
  match own !! name with
  | Some s => Some (Str s)
  | None => Obj <$> inherited host name
  end.

(** [process.env[name]]: the variable the environment finds, or else what
    Object.prototype has under that name. *)
Definition env_read (env : gmap jsstring jsstring) (name : jsstring)
    : option Value :=
  match getenv host env name with
  | Some s => Some (Str s)
  | None => Obj <$> inherited host name
  end.

(** [process.env[key] = text] for a string [text]. *)
Definition setenv (env : gmap jsstring jsstring) (key text : jsstring)
    : gmap jsstring jsstring :=
  match environ_name host key with
  | Some name => <[name := environ_value host text]> env
  | None => env
  end.

(** Object.assign(process.env, value): the properties of the value are
    assigned in order, each converted to a string first; a value that String
    throws on ends the assignment there, after the writes before it. The
    result tells whether the assignment ran to its end. *)
Fixpoint assign_process_env (env : gmap jsstring jsstring)
    (value : list (jsstring * option jsstring))
    : bool * gmap jsstring jsstring :=
  match value with
  | [] => (true, env)
  | (key, Some text) :: value' => assign_process_env (setenv env key text) value'
  | (_, None) :: _ => (false, env)
  end.

(** Lines 150 to 156: the content of the file, a Buffer when no encoding is
    given and a string otherwise; undefined ([None]) when readFileSync
    throws, which it does on a file it cannot read and on a path that is
    neither a string nor what it takes for one (a function, an ordinary
    object). *)
Definition loadFile (w : World) (filePath : Value)
    (encoding : option BufferEncoding) : option FileContent * World :=
  let w' := log_read w filePath in
  match filePath with
  | Str path =>
      match files w path with
      | Some bytes =>
          (Some (match encoding with
                 | None => FBuffer bytes
                 | Some e => FString (decode host e bytes)
                 end), w')
      | None => (None, w')
      end
  | Obj _ => (None, w')
  end.

(** The built-in parser on a file content: [parse] of [src.toString()]. *)
Definition parse_source (src : FileContent) : option (gmap jsstring jsstring) :=
  match src with
  | FBuffer bytes => parse (Buffer_toString host bytes)
  | FString text => parse text
  end.

(** Lines 108 to 135: the value of the constant loadedEnvVariables, or how
    the call ended before it was computed. *)
Definition loadedEnvVariables (opt : option IOptions) (w : World)
    : (Abrupt + gmap jsstring jsstring) * World :=
  let currentEnvironment :=
    env_read (process_env w)
      (string_or (opt ≫= processEnvKey) (js "NODE_ENV")) in
  if negb (truthy_value currentEnvironment)
  then (inl (Throw ERROR_NO_ENVIRONMENT), w)
  else
    let currentEnvironment := to_text currentEnvironment in
    let coreEnvFilePath :=
      Str (string_or (opt ≫= corePath)
             (path_resolve host (cwd w) (js ".env"))) in
    let defaultsEnvFilePath :=
      value_or ((opt ≫= defaultsPathsMap)
                  ≫= λ m : gmap jsstring jsstring,
                       property_read m currentEnvironment)
        (Str (path_resolve host (cwd w)
                (js ".env." ++ currentEnvironment ++ js ".defaults"))) in
    let '(coreEnvFileBuffer, w) :=
      loadFile w coreEnvFilePath (opt ≫= encoding) in
    let '(defaultsEnvFileBuffer, w) :=
      loadFile w defaultsEnvFilePath (opt ≫= encoding) in
    if negb (truthy_content coreEnvFileBuffer)
       && negb (truthy_content defaultsEnvFileBuffer)
    then (inl (Throw ERROR_NO_FILE), w)
    else
      let actualParse := default parse_source (opt ≫= parse_option) in
      match actualParse (content_or_empty defaultsEnvFileBuffer) with
      | None => (inl ParserAbort, w)
      | Some defaults =>
          match actualParse (content_or_empty coreEnvFileBuffer) with
          | None => (inl ParserAbort, w)
          | Some core => (inr (Object_assign defaults core), w)
          end
      end.

(** The message of the Error of line 140. *)
Definition validation_message (issues : list Issue) : jsstring :=
  js "Validation errors: " ++ join [Ch.LF] (JSON_stringify host <$> issues).

(** Lines 107 to 148: how the call ends ([inr tt] when it returns) and the
    state it leaves. *)
Definition loadEnv (schema : gmap jsstring jsstring → TryResult Issue)
    (opt : option IOptions) (w : World) : (Abrupt + unit) * World :=
  match loadedEnvVariables opt w with
  | (inl a, w) => (inl a, w)
  | (inr loaded, w) =>
      match schema loaded with
      | Err issues => (inl (Throw (validation_message issues)), w)
      | Ok value =>
          let '(completed, env) := assign_process_env (process_env w) value in
          (if completed then inr tt else inl AssignAbort,
           set_process_env w env)
      end
  end.
End Loader.

(** ** The loader before the built-in parser

    The earlier versions of the file take [parse] from the package dotenv
    and read the files without an encoding; their options have three
    fields. The parser of the package is a parameter here. *)
Module Dotenv.
Record IOptions : Type := {
  corePath : option jsstring;
  defaultsPathsMap : option (gmap jsstring jsstring);
  processEnvKey : option jsstring
}.

Section Loader.
Context {Issue : Type} (host : Host Issue) (parse : Parser).

(** The Buffer of the file, undefined ([None]) when readFileSync throws. *)
Definition loadFile (w : World) (filePath : Value)
    : option (list N) * World :=
  (match filePath with
   | Str path => files w path
   | Obj _ => None
   end, log_read w filePath).

(** [a || ''] for an optional Buffer. *)
Definition buffer_or_empty (a : option (list N)) : FileContent :=
  match a with
  | Some b => FBuffer b
  | None => FString []
  end.

(** How the call ends ([inr tt] when it returns) and the state it leaves. *)
Definition loadEnv (schema : gmap jsstring jsstring → TryResult Issue)
    (opt : option IOptions) (w : World) : (Abrupt + unit) * World :=
  let currentEnvironment :=
    env_read host (process_env w)
      (string_or (opt ≫= processEnvKey) (js "NODE_ENV")) in
  if negb (truthy_value currentEnvironment)
  then (inl (Throw ERROR_NO_ENVIRONMENT), w)
  else
    let currentEnvironment := to_text currentEnvironment in
    let coreEnvFilePath :=
      Str (string_or (opt ≫= corePath)
             (path_resolve host (cwd w) (js ".env"))) in
    let defaultsEnvFilePath :=
      value_or ((opt ≫= defaultsPathsMap)
                  ≫= λ m : gmap jsstring jsstring,
                       property_read host m currentEnvironment)
        (Str (path_resolve host (cwd w)
                (js ".env." ++ currentEnvironment ++ js ".defaults"))) in
    let '(coreEnvFileBuffer, w) := loadFile w coreEnvFilePath in
    let '(defaultsEnvFileBuffer, w) := loadFile w defaultsEnvFilePath in
    match coreEnvFileBuffer, defaultsEnvFileBuffer with
    | None, None => (inl (Throw ERROR_NO_FILE), w)
    | _, _ =>
        match parse (buffer_or_empty defaultsEnvFileBuffer) with
        | None => (inl ParserAbort, w)
        | Some defaults =>
            match parse (buffer_or_empty coreEnvFileBuffer) with
            | None => (inl ParserAbort, w)
            | Some core =>
                match schema (Object_assign defaults core) with
                | Err issues =>
                    (inl (Throw (validation_message host issues)), w)
                | Ok value =>
                    let '(completed, env) :=
                      assign_process_env host (process_env w) value in
                    (if completed then inr tt else inl AssignAbort,
                     set_process_env w env)
                end
            end
        end
    end.
End Loader.
End Dotenv.

(** * Definitions for the statements and the proofs

    None of what follows is in the source: these are the notions the
    theorems are stated with and the functions their proofs go through. *)

(** ** Properties of matchers *)

(** Two continuations that agree on every state with at most [n] code units
    left. *)
Definition agree_upto (n : nat) (c1 c2 : Cont) : Prop :=
  ∀ y, length (rest y) ≤ n → c1 y = c2 y.

(** A matcher that asks its continuation only about states with no more
    input left than its own state has. *)
Definition local (m : Matcher) : Prop :=
  ∀ x c1 c2, agree_upto (length (rest x)) c1 c2 → m x c1 = m x c2.

(** A matcher whose results come from its continuation, called on a state
    with no more input left. *)
Definition reaches (m : Matcher) : Prop :=
  ∀ x c z, m x c = Some z →
    ∃ y, c y = Some z ∧ length (rest y) ≤ length (rest x).

(** A matcher whose results come from its continuation, called on a state
    in which the capture of the group [n] is what it is in its own state. *)
Definition keeps (n : nat) (m : Matcher) : Prop :=
  ∀ x c z, m x c = Some z → ∃ y, c y = Some z ∧ caps y !! n = caps x !! n.

(** Terms every match of which consumes at least one code unit. *)
Fixpoint consumes (r : regex) : bool :=
  match r with
  | Chr _ => true
  | Seq a b => consumes a || consumes b
  | Alt a b => consumes a && consumes b
  | Quant min max _ a =>
      match max with
      | Some 0 => false
      | _ => negb (min =? 0) && consumes a
      end
  | Group _ a => consumes a
  | Eps | Backref _ | Bol | Eol => false
  end.

(** ** The loops resumed at an index, the matches of a pass *)

(** [replace] resumed at lastIndex: [p] is the code unit before it, [s] the
    text from it on. *)
Definition replace_at (r : regex) (tmpl : mstate → jsstring)
    (p : option N) (s : jsstring) : option jsstring :=
  replace_loop (S (length s)) r tmpl p s.

(** The key and the value of the successive matches of LINE, as the loop of
    [parse] meets them. *)
Fixpoint scan_loop (fuel : nat) (p : option N) (s : jsstring)
    : option (list (jsstring * jsstring)) :=
  match fuel with
  | 0 => None
  | S fuel' =>
      match exec_from LINE p s with
      | None => Some []
      | Some (_, y) =>
          value ← match_value (caps y !! 2);
          more ← scan_loop fuel' (prev y) (rest y);
          Some ((default [] (caps y !! 1), value) :: more)
      end
  end.

(** The matches from lastIndex on, and the matches of a whole text. *)
Definition scan_at (p : option N) (s : jsstring)
    : option (list (jsstring * jsstring)) :=
  scan_loop (S (length s)) p s.

Definition matches (src : jsstring) : option (list (jsstring * jsstring)) :=
  lines ← replace LINE_BREAK (tmpl_text [Ch.LF]) src;
  scan_at None lines.

(** The assignments of the loop, one per match, in order. *)
Definition assign_all (obj : gmap jsstring jsstring)
    (ms : list (jsstring * jsstring)) : gmap jsstring jsstring :=
  foldl (λ o kv, obj_set o kv.1 kv.2) obj ms.

(** The value of the last match of a key. *)
Definition last_value (k : jsstring) (ms : list (jsstring * jsstring))
    : option jsstring :=
  snd <$> last (filter (λ kv, kv.1 = k) ms).

(** ** Classes, runs of a class, shapes of a declaration *)

(** Turns facts about the classes into arithmetic on code units. *)
Ltac class_facts :=
  unfold is_key_char, is_word, is_plain_char, is_dot, is_space, is_quote,
    is_line_terminator, is_char, is_not_char,
    Ch.TAB, Ch.LF, Ch.VT, Ch.FF, Ch.CR, Ch.SP, Ch.DQUOTE, Ch.HASH, Ch.SQUOTE,
    Ch.DASH, Ch.DOT, Ch.COLON, Ch.EQUALS, Ch.BACKSLASH, Ch.UNDERSCORE,
    Ch.BACKTICK, Ch.NBSP, Ch.LS, Ch.PS in *;
  repeat match goal with
         | H : _ = false |- _ => apply not_true_iff_false in H
         | |- _ = false => apply not_true_iff_false; intro
         end;
  rewrite ?negb_true_iff, ?orb_true_iff, ?orb_false_iff, ?andb_true_iff,
    ?N.eqb_eq, ?N.eqb_neq, ?N.leb_le in *.

(** Compares the lengths of two texts built by concatenation. *)
Ltac length_lia :=
  cbn [rest]; repeat (rewrite ?length_app, ?length_cons); cbn [length]; lia.

(** What the greedy star of a class does from a position: as many code units
    of the class as there are, then the continuation, giving one back at a
    time when it fails. *)
Fixpoint star_chr (p : N → bool) (pv : option N) (u : jsstring)
    (cp : gmap nat jsstring) (c : Cont) : option mstate :=
  match u with
  | ch :: tl =>
      if p ch
      then or_else (star_chr p (Some ch) tl cp c) (c (MState pv u cp))
      else c (MState pv u cp)
  | [] => c (MState pv [] cp)
  end.

(** The lazy star of a class: the continuation first, one more code unit of
    the class when it fails. *)
Fixpoint starlazy_chr (p : N → bool) (pv : option N) (u : jsstring)
    (cp : gmap nat jsstring) (c : Cont) : option mstate :=
  or_else (c (MState pv u cp))
    match u with
    | ch :: tl => if p ch then starlazy_chr p (Some ch) tl cp c else None
    | [] => None
    end.

(** The code unit before the position reached from [pv] over [u]. *)
Definition prev_after (pv : option N) (u : jsstring) : option N :=
  from_option Some pv (last u).

(** A continuation that needs a code unit of the class [f] first. *)
Definition needs_first (f : N → bool) (c : Cont) : Prop :=
  ∀ y, from_option f false (head (rest y)) = false → c y = None.

(** The shape of the text after a key: blanks, then something that begins
    with neither a blank nor a key character (or nothing). *)
Definition after_key (ws t : jsstring) : Prop :=
  Forall (λ ch, is_space ch = true) ws
  ∧ from_option is_key_char false (head t) = false
  ∧ from_option is_space false (head t) = false.

(** The position after [pv] is the start of a line. *)
Definition at_line_start (pv : option N) : bool :=
  from_option is_line_terminator true pv.

(** An unquoted value: not empty, of code units other than the hash, the
    carriage return and the newline, beginning with neither a blank nor a
    quote. *)
Definition unquoted (V : jsstring) : Prop :=
  V ≠ []
  ∧ Forall (λ ch, is_plain_char ch = true) V
  ∧ from_option is_space false (head V) = false
  ∧ from_option is_quote false (head V) = false.

(** A key: one or more word characters, dots or dashes. *)
Definition is_key (K : jsstring) : Prop :=
  K ≠ [] ∧ Forall (λ ch, is_key_char ch = true) K.

(** A text in which every occurrence of the quote [q] is escaped: it is made
    of pairs of a backslash and [q], and of code units other than [q]. *)
Inductive escaped_body (q : N) : jsstring → Prop :=
| escaped_nil : escaped_body q []
| escaped_pair body :
    escaped_body q body → escaped_body q (Ch.BACKSLASH :: q :: body)
| escaped_other ch body :
    ch ≠ q → escaped_body q body → escaped_body q (ch :: body).

(** The same as a test: every quote [q] in the text is escaped. *)
Fixpoint escaped_bodyb (q : N) (body : jsstring) : bool :=
  match body with
  | [] => true
  | x :: tl =>
      match tl with
      | y :: tl' =>
          if (x =? Ch.BACKSLASH)%N && (y =? q)%N then escaped_bodyb q tl'
          else negb (x =? q)%N && escaped_bodyb q tl
      | [] => negb (x =? q)%N
      end
  end.

(** ** The expansion of escapes *)

(** Every occurrence of the pair [a], [b], scanned from the left, becomes
    [c]. *)
Fixpoint replace_pair (a b c : N) (v : jsstring) : jsstring :=
  match v with
  | x :: tl =>
      match tl with
      | y :: tl' =>
          if (x =? a)%N && (y =? b)%N then c :: replace_pair a b c tl'
          else x :: replace_pair a b c tl
      | [] => [x]
      end
  | [] => []
  end.

(** The expansion as the specification words it: each sequence of a
    backslash and the letter n becomes a newline, each sequence of a
    backslash and the letter r a carriage return, in one pass from the left;
    anything else is kept. *)
Fixpoint expand_escapes (v : jsstring) : jsstring :=
  match v with
  | x :: tl =>
      match tl with
      | y :: tl' =>
          if (x =? Ch.BACKSLASH)%N && (y =? Ch.LOWER_N)%N
          then Ch.LF :: expand_escapes tl'
          else if (x =? Ch.BACKSLASH)%N && (y =? Ch.LOWER_R)%N
          then Ch.CR :: expand_escapes tl'
          else x :: expand_escapes tl
      | [] => [x]
      end
  | [] => []
  end.

(** ** A host, a world and a schema for the examples *)

(** The text before the first NUL. *)
Fixpoint until_NUL (s : jsstring) : jsstring :=
  match s with
  | c :: s' => if (c =? 0)%N then [] else c :: until_NUL s'
  | [] => []
  end.

(** The members of Object.prototype, each with the text String gives for it
    (as V8 prints its built-in functions). *)
Definition Object_prototype : list (jsstring * jsstring) :=
  [ (js "constructor", js "function Object() { [native code] }");
    (js "__defineGetter__", js "function __defineGetter__() { [native code] }");
    (js "__defineSetter__", js "function __defineSetter__() { [native code] }");
    (js "hasOwnProperty", js "function hasOwnProperty() { [native code] }");
    (js "__lookupGetter__", js "function __lookupGetter__() { [native code] }");
    (js "__lookupSetter__", js "function __lookupSetter__() { [native code] }");
    (js "isPrototypeOf", js "function isPrototypeOf() { [native code] }");
    (js "propertyIsEnumerable",
     js "function propertyIsEnumerable() { [native code] }");
    (js "toString", js "function toString() { [native code] }");
    (js "valueOf", js "function valueOf() { [native code] }");
    (js "__proto__", js "[object Object]");
    (js "toLocaleString", js "function toLocaleString() { [native code] }") ].

(** A host for the examples: POSIX path.resolve on an absolute directory and
    a plain name, bytes decoded one code unit each (latin1), issues that are
    already texts, the standard members of Object.prototype, and a POSIX
    environment: names and values end at their first NUL, and no variable is
    stored under an empty name or a name with an equals sign. *)
Definition example_host : Host jsstring := {|
  path_resolve := λ dir name, dir ++ js "/" ++ name;
  decode := λ _ bytes, bytes;
  Buffer_toString := λ bytes, bytes;
  JSON_stringify := λ issue, issue;
  inherited := λ name,
    (list_to_map Object_prototype : gmap jsstring jsstring) !! name;
  getenv := λ env name, env !! until_NUL name;
  environ_name := λ name,
    if bool_decide (until_NUL name = [] ∨ Ch.EQUALS ∈ until_NUL name)
    then None else Some (until_NUL name);
  environ_value := until_NUL
|}.

(** A world with the directory /app, the given environment and files. *)
Definition example_world (env : list (jsstring * jsstring))
    (fs : list (jsstring * list N)) : World := {|
  process_env := list_to_map env;
  cwd := js "/app";
  files := λ path, (list_to_map fs : gmap jsstring (list N)) !! path;
  reads := []
|}.

(** The value whose properties are the given strings, and the value with
    the properties of a mapping. *)
Definition strings (kvs : list (jsstring * jsstring))
    : list (jsstring * option jsstring) :=
  (λ kv, (kv.1, Some kv.2)) <$> kvs.

Definition as_value (m : gmap jsstring jsstring)
    : list (jsstring * option jsstring) :=
  strings (map_to_list m).

(** A schema that requires the key KEY. *)
Definition example_schema (loaded : gmap jsstring jsstring)
    : TryResult jsstring :=
  match loaded !! js "KEY" with
  | Some _ => Ok (as_value loaded)
  | None => Err [js "KEY: Must be a string"; js "second issue"]
  end.

(** The schema of the tests: two required strings. *)
Definition test_schema (loaded : gmap jsstring jsstring) : TryResult jsstring :=
  match loaded !! js "DATABASE_URL", loaded !! js "JWT_SECRET_TOKEN" with
  | Some _, Some _ => Ok (as_value loaded)
  | None, _ => Err [js "DATABASE_URL: Must be a string"]
  | _, None => Err [js "JWT_SECRET_TOKEN: Must be a string"]
  end.

(** A schema whose value has a text with a NUL in it, then a symbol, then
    another text. *)
Definition symbol_schema (loaded : gmap jsstring jsstring)
    : TryResult jsstring :=
  Ok [ (js "A", Some (js "v" ++ [0%N] ++ js "w")); (js "B", None);
       (js "C", Some (js "3")) ].

(** ** The sources of a call *)

(** The value of the constant currentEnvironment of line 108. *)
Definition environment_name {Issue : Type} (host : Host Issue)
    (opt : option IOptions) (w : World) : option Value :=
  env_read host (process_env w)
    (string_or (opt ≫= processEnvKey) (js "NODE_ENV")).

(** The values of the constants coreEnvFilePath and defaultsEnvFilePath of
    lines 116 to 119, the second for the environment name [env]. *)
Definition core_path {Issue : Type} (host : Host Issue)
    (opt : option IOptions) (w : World) : Value :=
  Str (string_or (opt ≫= corePath) (path_resolve host (cwd w) (js ".env"))).

Definition defaults_path {Issue : Type} (host : Host Issue)
    (opt : option IOptions) (w : World) (env : option Value) : Value :=
  value_or ((opt ≫= defaultsPathsMap)
              ≫= λ m : gmap jsstring jsstring,
                   property_read host m (to_text env))
    (Str (path_resolve host (cwd w)
            (js ".env." ++ to_text env ++ js ".defaults"))).

(** The bytes readFileSync finds for a path: those of the file when the
    path is a string, none when it is an object. *)
Definition file_at (w : World) (path : Value) : option (list N) :=
  match path with
  | Str p => files w p
  | Obj _ => None
  end.

(** What the parser in use makes of the file at a path, or of the empty
    string when the file gives no source. *)
Definition source {Issue : Type} (host : Host Issue)
    (opt : option IOptions) (w : World) (path : Value)
    : option (gmap jsstring jsstring) :=
  default (parse_source host) (opt ≫= parse_option)
    (content_or_empty (loadFile host w path (opt ≫= encoding)).1).

(** The text the environment holds under the name [n] after the strings
    [kvs] were assigned to process.env in order, when one of them was stored
    under that name: the text of the last one. *)
Definition stored {Issue : Type} (host : Host Issue)
    (kvs : list (jsstring * jsstring)) (n : jsstring) : option jsstring :=
  (λ kv, environ_value host kv.2)
    <$> last (filter (λ kv, environ_name host kv.1 = Some n) kvs).

(** An optional string in which the empty string counts as absent, and
    the options with their path and key read that way. *)
Definition drop_empty (a : option jsstring) : option jsstring :=
  match a with
  | Some [] => None
  | _ => a
  end.

Definition drop_empty_options (o : IOptions) : IOptions := {|
  corePath := drop_empty (corePath o);
  defaultsPathsMap := defaultsPathsMap o;
  processEnvKey := drop_empty (processEnvKey o);
  parse_option := parse_option o;
  encoding := encoding o
|}.

(** The options of the current version that stand for options of the
    earlier versions, with a parser supplied and no encoding. *)
Definition with_parser (parse : Parser) (opt : option Dotenv.IOptions)
    : IOptions := {|
  corePath := opt ≫= Dotenv.corePath;
  defaultsPathsMap := opt ≫= Dotenv.defaultsPathsMap;
  processEnvKey := opt ≫= Dotenv.processEnvKey;
  parse_option := Some parse;
  encoding := None
|}.

(** A file that gives no source under the encoding [enc]: it cannot be
    read, or it is read as a text and the text is empty. *)
Definition no_source {Issue : Type} (host : Host Issue)
    (enc : option BufferEncoding) (file : option (list N)) : Prop :=
  match file, enc with
  | None, _ => True
  | Some bytes, Some e => decode host e bytes = []
  | Some _, None => False
  end.

(** ** Line breaks *)

(** The text with every carriage return followed by a newline, and every
    other carriage return, turned into one newline. *)
Fixpoint normalize_breaks (s : jsstring) : jsstring :=
  match s with
  | x :: tl =>
      if (x =? Ch.CR)%N
      then Ch.LF :: match tl with
                    | y :: tl' =>
                        if (y =? Ch.LF)%N then normalize_breaks tl'
                        else normalize_breaks tl
                    | [] => []
                    end
      else x :: normalize_breaks tl
  | [] => []
  end.

(** A code unit that is neither a carriage return nor a newline. *)
Definition no_break (ch : N) : Prop := ch ≠ Ch.CR ∧ ch ≠ Ch.LF.

(** ** The parts of a line *)

(** LINE after the blanks that begin it, and the end of LINE after the
    second group: blanks, an optional comment, the end of a line. *)
Definition LINE_FRONT : regex :=
  Seq (Opt EXPORT) (Seq KEY (Seq SEPARATOR LINE_TAIL)).

Definition LINE_END : regex :=
  Seq (Star space) (Seq (Opt COMMENT) (Alt Eol Eol)).

(** The position before [t] is the end of a line. *)
Definition at_line_end (t : jsstring) : bool :=
  from_option is_line_terminator true (head t).

(** A blank inside a line: white space that ends no line. *)
Definition is_blank (ch : N) : bool :=
  is_space ch && negb (is_line_terminator ch).

(** White space other than the carriage return (which line 183 rewrites). *)
Definition is_gap (ch : N) : Prop := is_space ch = true ∧ ch ≠ Ch.CR.

(** Nothing, or the word export and the white space after it. *)
Definition export_prefix (pre : jsstring) : Prop :=
  pre = [] ∨ ∃ we, pre = js "export" ++ we ∧ we ≠ [] ∧ Forall is_gap we.

(** The text begins with a code unit that is neither white space nor a
    hash. *)
Definition starts_word (t : jsstring) : bool :=
  from_option (λ ch, negb (is_space ch) && negb (ch =? Ch.HASH)%N) false (head t).

(** * Theorems *)

(** ** The matcher does not depend on its fuel *)

Lemma agree_upto_le n n' c1 c2 :
  n' ≤ n → agree_upto n c1 c2 → agree_upto n' c1 c2.
Proof. intros Hle H y Hy. apply H. lia. Qed.

Lemma repeat_choice_local m g min greedy x c1 c2 d1 d2 :
  local m → c1 x = c2 x → agree_upto (length (rest x)) d1 d2 →
  repeat_choice m g min greedy x c1 d1 = repeat_choice m g min greedy x c2 d2.
Proof.
  intros Hm Hc Hd. unfold repeat_choice. cbv zeta.
  rewrite (Hm (clear_groups g x) d1 d2) by exact Hd.
  rewrite Hc. done.
Qed.

Lemma RepeatMatcher_local m g fuel min max greedy :
  local m → local (RepeatMatcher m g fuel min max greedy).
Proof.
  intros Hm. revert min max.
  induction fuel as [|fuel IH]; intros min max x c1 c2 Hc; [done|].
  cbn [RepeatMatcher].
  assert (Hx : c1 x = c2 x) by (apply Hc; lia).
  rewrite Hx.
  destruct max as [[|k]|]; [done|..].
  all: apply repeat_choice_local; [done..|].
  all: intros y Hy; unfold repeat_cont; destruct (_ && _); [done|].
  all: apply IH; eapply agree_upto_le; [|exact Hc]; exact Hy.
Qed.

Lemma rmatch_local r : local (rmatch r).
Proof.
  induction r as [|p|a IHa b IHb|a IHa b IHb|min max greedy a IHa|n a IHa|n| |];
    intros x c1 c2 Hc; cbn [rmatch].
  - apply Hc. lia.
  - destruct (rest x) as [|ch tl] eqn:E; [done|].
    destruct (p ch); [|done]. apply Hc. cbn. lia.
  - apply IHa. intros y Hy. apply IHb. eapply agree_upto_le; [|exact Hc]. done.
  - rewrite (IHa x c1 c2 Hc), (IHb x c1 c2 Hc). done.
  - by apply RepeatMatcher_local.
  - apply IHa. intros y Hy. apply Hc. cbn. lia.
  - destruct (caps x !! n) as [w|]; [|apply Hc; lia].
    destruct (starts_with w (rest x)); [|done].
    apply Hc. cbn. rewrite length_drop. lia.
  - destruct (prev x) as [q|]; [destruct (is_line_terminator q)|]; try done;
      apply Hc; lia.
  - destruct (rest x) as [|q tl] eqn:E; [apply Hc; rewrite E; cbn; lia|].
    destruct (is_line_terminator q); [|done]. apply Hc. rewrite E. cbn. lia.
Qed.

Lemma RepeatMatcher_fuel m g f1 f2 min max greedy x c :
  local m →
  min + length (rest x) < f1 → min + length (rest x) < f2 →
  RepeatMatcher m g f1 min max greedy x c = RepeatMatcher m g f2 min max greedy x c.
Proof.
  intros Hm. revert f2 min max x.
  induction f1 as [|f1 IH]; intros f2 min max x H1 H2; [lia|].
  destruct f2 as [|f2]; [lia|].
  cbn [RepeatMatcher].
  destruct max as [[|k]|]; [done|..].
  all: apply repeat_choice_local; [done..|].
  all: intros y Hy; unfold repeat_cont.
  all: destruct (min =? 0) eqn:Emin; cbn [andb].
  all: try (destruct (length (rest y) =? length (rest x)) eqn:Elen; [done|];
            apply Nat.eqb_eq in Emin; apply Nat.eqb_neq in Elen; subst min).
  all: try apply Nat.eqb_neq in Emin.
  all: apply IH; cbn; lia.
Qed.

Lemma rmatch_Quant_fuel min max greedy a x c :
  rmatch (Quant min max greedy a) x c =
    RepeatMatcher (rmatch a) (groups a) (repeat_fuel min x) min max greedy x c.
Proof. reflexivity. Qed.

(** The defining equation of a quantified term, free of fuel: what
    RepeatMatcher says, with the recursive call read as the matcher of the
    remaining repetition. *)
Lemma rmatch_Quant min max greedy a x c :
  rmatch (Quant min max greedy a) x c =
    match max with
    | Some 0 => c x
    | _ =>
        repeat_choice (rmatch a) (groups a) min greedy x c
          (repeat_cont min x
             (λ y, rmatch (Quant (pred min) (pred <$> max) greedy a) y c))
    end.
Proof.
  rewrite rmatch_Quant_fuel. unfold repeat_fuel. cbn [RepeatMatcher].
  destruct max as [[|k]|]; [done|..].
  all: apply repeat_choice_local; [apply rmatch_local|done|].
  all: intros y Hy; unfold repeat_cont.
  all: destruct (min =? 0) eqn:Emin; cbn [andb].
  all: try (destruct (length (rest y) =? length (rest x)) eqn:Elen; [done|];
            apply Nat.eqb_eq in Emin; apply Nat.eqb_neq in Elen; subst min).
  all: try apply Nat.eqb_neq in Emin.
  all: rewrite rmatch_Quant_fuel; unfold repeat_fuel.
  all: apply RepeatMatcher_fuel; [apply rmatch_local|cbn; lia..].
Qed.

Lemma rmatch_Star a x c :
  rmatch (Star a) x c =
    or_else (rmatch a (clear_groups (groups a) x)
               (repeat_cont 0 x (λ y, rmatch (Star a) y c)))
            (c x).
Proof. unfold Star. rewrite rmatch_Quant. reflexivity. Qed.

Lemma rmatch_StarLazy a x c :
  rmatch (StarLazy a) x c =
    or_else (c x)
            (rmatch a (clear_groups (groups a) x)
               (repeat_cont 0 x (λ y, rmatch (StarLazy a) y c))).
Proof. unfold StarLazy. rewrite rmatch_Quant. reflexivity. Qed.

Lemma rmatch_Plus a x c :
  rmatch (Plus a) x c =
    rmatch a (clear_groups (groups a) x) (λ y, rmatch (Star a) y c).
Proof. unfold Plus. rewrite rmatch_Quant. reflexivity. Qed.

Lemma rmatch_PlusLazy a x c :
  rmatch (PlusLazy a) x c =
    rmatch a (clear_groups (groups a) x) (λ y, rmatch (StarLazy a) y c).
Proof. unfold PlusLazy. rewrite rmatch_Quant. reflexivity. Qed.

Lemma rmatch_Opt a x c :
  rmatch (Opt a) x c =
    or_else (rmatch a (clear_groups (groups a) x) (repeat_cont 0 x c)) (c x).
Proof. unfold Opt. rewrite rmatch_Quant. reflexivity. Qed.

(** ** A match only moves forward *)

Lemma or_else_Some a b z :
  or_else a b = Some z → a = Some z ∨ b = Some z.
Proof. destruct a; cbn; auto. Qed.

Lemma repeat_choice_Some m g min greedy x c d z :
  repeat_choice m g min greedy x c d = Some z →
  m (clear_groups g x) d = Some z ∨ (min = 0 ∧ c x = Some z).
Proof.
  unfold repeat_choice. cbv zeta.
  destruct (min =? 0) eqn:Emin; cbn [negb]; [|auto].
  apply Nat.eqb_eq in Emin.
  destruct greedy; cbn [negb]; intros [H|H]%or_else_Some; auto.
Qed.

Lemma repeat_cont_Some min x again y z :
  repeat_cont min x again y = Some z →
  again y = Some z ∧ (min = 0 → length (rest y) ≠ length (rest x)).
Proof.
  unfold repeat_cont.
  destruct (min =? 0) eqn:Emin; cbn [andb].
  - destruct (length (rest y) =? length (rest x)) eqn:Elen; [done|].
    apply Nat.eqb_neq in Elen. auto.
  - apply Nat.eqb_neq in Emin. intros H. split; [done|]. intros ->. done.
Qed.

Lemma RepeatMatcher_reaches m g fuel min max greedy :
  reaches m → reaches (RepeatMatcher m g fuel min max greedy).
Proof.
  intros Hm. revert min max.
  induction fuel as [|fuel IH]; intros min max x c z; [done|].
  cbn [RepeatMatcher].
  assert (Hstep : repeat_choice m g min greedy x c
            (repeat_cont min x
               (λ y, RepeatMatcher m g fuel (pred min) (pred <$> max) greedy y c))
            = Some z →
          ∃ y, c y = Some z ∧ length (rest y) ≤ length (rest x)).
  { intros [H|[_ H]]%repeat_choice_Some; [|eauto].
    apply Hm in H as (y1 & [H _]%repeat_cont_Some & Hle1).
    apply IH in H as (y & Hc & Hle). exists y. split; [done|].
    cbn in Hle1. lia. }
  destruct max as [[|k]|]; eauto.
Qed.

Lemma rmatch_reaches r : reaches (rmatch r).
Proof.
  induction r as [|p|a IHa b IHb|a IHa b IHb|min max greedy a IHa|n a IHa|n| |];
    intros x c z; cbn [rmatch].
  - eauto.
  - destruct (rest x) as [|ch tl] eqn:E; [done|].
    destruct (p ch); [|done]. intros H. eexists. split; [exact H|]. cbn. lia.
  - intros (y1 & H & Hle1)%IHa. apply IHb in H as (y & H & Hle).
    exists y. split; [done|lia].
  - intros [H|H]%or_else_Some; [by apply IHa|by apply IHb].
  - by apply RepeatMatcher_reaches.
  - intros (y1 & H & Hle1)%IHa. eexists. split; [exact H|]. cbn. lia.
  - destruct (caps x !! n) as [w|]; [|eauto].
    destruct (starts_with w (rest x)); [|done].
    intros H. eexists. split; [exact H|]. cbn. rewrite length_drop. lia.
  - destruct (prev x) as [q|]; [destruct (is_line_terminator q)|]; eauto. done.
  - destruct (rest x) as [|q tl] eqn:E.
    + intros H. exists x. rewrite E. eauto.
    + destruct (is_line_terminator q); [|done].
      intros H. exists x. rewrite E. eauto.
Qed.

Lemma rmatch_consumes r x c z :
  consumes r = true → rmatch r x c = Some z →
  ∃ y, c y = Some z ∧ length (rest y) < length (rest x).
Proof.
  revert x c.
  induction r as [|p|a IHa b IHb|a IHa b IHb|min max greedy a IHa|n a IHa|n| |];
    intros x c; cbn [consumes]; try done.
  - intros _. cbn [rmatch].
    destruct (rest x) as [|ch tl] eqn:E; [done|].
    destruct (p ch); [|done]. intros H. eexists. split; [exact H|]. cbn. lia.
  - intros Hab. cbn [rmatch]. destruct (consumes a) eqn:Ea.
    + intros (y1 & H & Hlt)%IHa; [|done].
      apply rmatch_reaches in H as (y & H & Hle). exists y. split; [done|lia].
    + intros (y1 & H & Hle)%rmatch_reaches.
      apply IHb in H as (y & H & Hlt); [|done]. exists y. split; [done|lia].
  - intros [Ea Eb]%andb_true_iff. cbn [rmatch].
    intros [H|H]%or_else_Some; [by apply IHa|by apply IHb].
  - intros Hq. rewrite rmatch_Quant.
    assert (Hstep : negb (min =? 0) && consumes a = true →
            repeat_choice (rmatch a) (groups a) min greedy x c
              (repeat_cont min x
                 (λ y, rmatch (Quant (pred min) (pred <$> max) greedy a) y c))
              = Some z →
            ∃ y, c y = Some z ∧ length (rest y) < length (rest x)).
    { intros [Emin Ea]%andb_true_iff. apply negb_true_iff, Nat.eqb_neq in Emin.
      intros [H|[? _]]%repeat_choice_Some; [|done].
      apply IHa in H as (y1 & [H _]%repeat_cont_Some & Hlt1); [|done].
      apply rmatch_reaches in H as (y & H & Hle).
      exists y. split; [done|]. cbn in Hlt1. lia. }
    destruct max as [[|k]|]; [done|auto..].
  - intros Ea. cbn [rmatch]. intros (y1 & H & Hlt)%IHa; [|done].
    eexists. split; [exact H|]. cbn. lia.
Qed.

Lemma exec_from_unfold r p s :
  exec_from r p s =
    match rmatch r (MState p s ∅) Some with
    | Some y => Some ([], y)
    | None =>
        match s with
        | [] => None
        | ch :: tl =>
            (λ '(skipped, y), (ch :: skipped, y)) <$> exec_from r (Some ch) tl
        end
    end.
Proof. destruct s; reflexivity. Qed.

Lemma exec_from_bound r p s skipped y :
  exec_from r p s = Some (skipped, y) →
  length skipped + length (rest y) ≤ length s
  ∧ (consumes r = true → length skipped + length (rest y) < length s).
Proof.
  revert p skipped. induction s as [|ch tl IH]; intros p skipped;
    rewrite exec_from_unfold.
  - destruct (rmatch r (MState p [] ∅) Some) as [y'|] eqn:E; [|done].
    intros [= <- <-]. split.
    + apply rmatch_reaches in E as (? & [= ->] & Hle). cbn in *. lia.
    + intros Hr. eapply rmatch_consumes in E as (? & [= ->] & Hlt); [|done].
      cbn in *. lia.
  - destruct (rmatch r (MState p (ch :: tl) ∅) Some) as [y'|] eqn:E.
    + intros [= <- <-]. split.
      * apply rmatch_reaches in E as (? & [= ->] & Hle). cbn in *. lia.
      * intros Hr. eapply rmatch_consumes in E as (? & [= ->] & Hlt); [|done].
        cbn in *. lia.
    + destruct (exec_from r (Some ch) tl) as [[sk' y']|] eqn:E'; [|done].
      cbn. intros [= <- <-]. apply IH in E' as [H1 H2]. cbn. split; [lia|].
      intros Hr. specialize (H2 Hr). lia.
Qed.

(** The loops run to their end on the fuel they are given. *)
Lemma replace_loop_total fuel r tmpl p s :
  length s < fuel → is_Some (replace_loop fuel r tmpl p s).
Proof.
  revert p s. induction fuel as [|fuel IH]; intros p s Hf; [lia|].
  cbn [replace_loop].
  destruct (exec_from r p s) as [[skipped y]|] eqn:E; [|by eexists].
  apply exec_from_bound in E as [Hle _].
  destruct (length (rest y) =? length s - length skipped) eqn:Elen.
  - destruct (rest y) as [|ch tl] eqn:Ey; [by eexists|].
    destruct (IH (Some ch) tl) as [out ->]; [cbn in Hle; lia|]. by eexists.
  - apply Nat.eqb_neq in Elen.
    destruct (IH (prev y) (rest y)) as [out ->]; [lia|]. by eexists.
Qed.

Lemma replace_total r tmpl s : is_Some (replace r tmpl s).
Proof. apply replace_loop_total. lia. Qed.

Lemma match_value_total m2 : is_Some (match_value m2).
Proof.
  unfold match_value. cbv zeta.
  destruct (replace_total SURROUNDING_QUOTES (tmpl_group 2) (trim (default [] m2)))
    as [v ->]. cbn [mbind option_bind].
  destruct (decide _); [|by eexists].
  destruct (replace_total ESCAPED_N (tmpl_text [Ch.LF]) v) as [v' ->].
  cbn [mbind option_bind]. apply replace_total.
Qed.

Lemma LINE_consumes : consumes LINE = true.
Proof. reflexivity. Qed.

Lemma parse_loop_total fuel p s obj :
  length s < fuel → is_Some (parse_loop fuel p s obj).
Proof.
  revert p s obj. induction fuel as [|fuel IH]; intros p s obj Hf; [lia|].
  cbn [parse_loop].
  destruct (exec_from LINE p s) as [[skipped y]|] eqn:E; [|by eexists].
  apply exec_from_bound in E as [_ Hlt]. specialize (Hlt LINE_consumes).
  destruct (match_value_total (caps y !! 2)) as [v ->]. cbn [mbind option_bind].
  apply IH. lia.
Qed.

(** X6. [parse] returns a mapping for every text: each match of LINE
    consumes at least one code unit, so the loop of lines 186 to 209 ends,
    and so do the replacements of lines 183 and 199 to 204. *)
Lemma parse_total src : is_Some (parse src).
Proof.
  unfold parse.
  destruct (replace_total LINE_BREAK (tmpl_text [Ch.LF]) src) as [lines ->].
  cbn [mbind option_bind]. apply parse_loop_total. lia.
Qed.

(** ** The loops, free of fuel *)

Lemma replace_loop_fuel f1 f2 r tmpl p s :
  length s < f1 → length s < f2 →
  replace_loop f1 r tmpl p s = replace_loop f2 r tmpl p s.
Proof.
  revert f2 p s. induction f1 as [|f1 IH]; intros f2 p s H1 H2; [lia|].
  destruct f2 as [|f2]; [lia|]. cbn [replace_loop].
  destruct (exec_from r p s) as [[skipped y]|] eqn:E; [|done].
  apply exec_from_bound in E as [Hle _].
  destruct (length (rest y) =? length s - length skipped) eqn:Elen.
  - destruct (rest y) as [|ch tl] eqn:Ey; [done|].
    rewrite (IH f2); [done|cbn in Hle; lia..].
  - apply Nat.eqb_neq in Elen. rewrite (IH f2); [done|lia..].
Qed.

Lemma replace_eq r tmpl s : replace r tmpl s = replace_at r tmpl None s.
Proof. reflexivity. Qed.

Lemma replace_at_nomatch r tmpl p s :
  exec_from r p s = None → replace_at r tmpl p s = Some s.
Proof. unfold replace_at. cbn [replace_loop]. by intros ->. Qed.

(** No match at lastIndex: the code unit there is copied. *)
Lemma replace_at_skip r tmpl p ch tl :
  rmatch r (MState p (ch :: tl) ∅) Some = None →
  replace_at r tmpl p (ch :: tl) = (cons ch) <$> replace_at r tmpl (Some ch) tl.
Proof.
  intros Hno. unfold replace_at.
  cbn [replace_loop]. rewrite (exec_from_unfold r p (ch :: tl)), Hno.
  destruct (exec_from r (Some ch) tl) as [[skipped y]|] eqn:E; [|done].
  pose proof (exec_from_bound _ _ _ _ _ E) as [Hle _].
  cbn [fmap option_fmap option_map length].
  replace (S (length tl) - S (length skipped)) with (length tl - length skipped)
    by lia.
  destruct (length (rest y) =? length tl - length skipped) eqn:Elen.
  - destruct (rest y) as [|c2 tl2] eqn:Ey; [done|].
    rewrite (replace_loop_fuel (S (length tl)) (length tl)) by (cbn in Hle; lia).
    destruct (replace_loop _ _ _ _ tl2); done.
  - apply Nat.eqb_neq in Elen.
    rewrite (replace_loop_fuel (S (length tl)) (length tl)) by lia.
    destruct (replace_loop _ _ _ _ (rest y)); done.
Qed.

(** A match at lastIndex that consumed something: it is replaced, and the
    scan resumes at its end. *)
Lemma replace_at_hit r tmpl p s y :
  rmatch r (MState p s ∅) Some = Some y →
  length (rest y) < length s →
  replace_at r tmpl p s = (app (tmpl y)) <$> replace_at r tmpl (prev y) (rest y).
Proof.
  intros Hy Hlt. unfold replace_at.
  set (resumed := replace_loop (S (length (rest y))) r tmpl (prev y) (rest y)).
  cbn [replace_loop].
  rewrite exec_from_unfold, Hy. cbn [length].
  rewrite (proj2 (Nat.eqb_neq _ _)) by lia.
  rewrite (replace_loop_fuel (length s) (S (length (rest y)))) by lia.
  fold resumed. destruct resumed; done.
Qed.

(** ** Assignment of properties *)

Lemma obj_set_lookup obj key value k :
  obj !! PROTO = None →
  obj_set obj key value !! k =
    if decide (key = k ∧ key ≠ PROTO) then Some value else obj !! k.
Proof.
  intros Hp. unfold obj_set.
  destruct (decide (key = PROTO ∧ obj !! PROTO = None)) as [[-> _]|Hn].
  - destruct (decide (PROTO = k ∧ PROTO ≠ PROTO)) as [[_ ?]|]; done.
  - assert (key ≠ PROTO) by (intros ->; apply Hn; done).
    destruct (decide (key = k ∧ key ≠ PROTO)) as [[-> _]|Hk].
    + apply lookup_insert_eq.
    + apply lookup_insert_ne. intros ->. apply Hk. done.
Qed.

Lemma obj_set_no_proto obj key value :
  obj !! PROTO = None → obj_set obj key value !! PROTO = None.
Proof.
  intros Hp. rewrite obj_set_lookup by done.
  destruct (decide (key = PROTO ∧ key ≠ PROTO)) as [[-> ?]|]; done.
Qed.

Lemma obj_set_insert obj key value :
  key ≠ PROTO → obj_set obj key value = <[key := value]> obj.
Proof.
  intros Hk. unfold obj_set.
  destruct (decide (key = PROTO ∧ obj !! PROTO = None)) as [[? _]|]; done.
Qed.

(** Assignments of distinct names, one after the other: a name is bound to
    the value assigned to it, a name that is not assigned stays as it was;
    and __proto__ stays unset when it was. *)
Lemma foldl_obj_set_lookup (l : list (jsstring * jsstring))
    (target : gmap jsstring jsstring) (k : jsstring) :
  NoDup l.*1 →
  foldl (λ obj kv, obj_set obj kv.1 kv.2) target l !! k =
    if decide (k = PROTO ∧ target !! PROTO = None) then None
    else match (list_to_map l : gmap jsstring jsstring) !! k with
         | Some v => Some v
         | None => target !! k
         end.
Proof.
  revert target. induction l as [|[k0 v0] l IH]; intros target Hnd.
  - cbn [foldl list_to_map foldr]. rewrite lookup_empty.
    destruct (decide _) as [[-> ?]|]; done.
  - apply NoDup_cons in Hnd as [Hk0 Hnd]. cbn [foldl fst snd list_to_map foldr].
    rewrite IH by done. unfold obj_set.
    destruct (decide (k0 = PROTO ∧ target !! PROTO = None)) as [[-> Hp]|Hset].
    + destruct (decide (k = PROTO ∧ target !! PROTO = None)) as [|Hk]; [done|].
      rewrite lookup_insert_ne; [done|]. intros <-. apply Hk. done.
    + assert (<[k0:=v0]> target !! PROTO = None ↔ target !! PROTO = None) as Hiff.
      { destruct (decide (k0 = PROTO)) as [->|Hne].
        - rewrite lookup_insert_eq. split; [done|]. intros Hp. exfalso.
          apply Hset. done.
        - by rewrite lookup_insert_ne. }
      destruct (decide (k = PROTO ∧ target !! PROTO = None)) as [[-> Hp]|Hk].
      * rewrite decide_True; [done|]. split; [done|]. by apply Hiff.
      * rewrite decide_False by (intros [? ?%Hiff]; by apply Hk).
        destruct (decide (k0 = k)) as [->|Hne].
        -- rewrite (not_elem_of_list_to_map_1 l k), !lookup_insert_eq; done.
        -- rewrite !lookup_insert_ne by done. done.
Qed.

Lemma Object_assign_lookup (target source : gmap jsstring jsstring) k :
  Object_assign target source !! k =
    if decide (k = PROTO ∧ target !! PROTO = None) then None
    else match source !! k with
         | Some v => Some v
         | None => target !! k
         end.
Proof.
  unfold Object_assign.
  rewrite foldl_obj_set_lookup by apply NoDup_fst_map_to_list.
  by rewrite list_to_map_to_list.
Qed.

(** The built-in parser never stores an own property named __proto__. *)
Lemma parse_loop_no_proto fuel p s obj obj' :
  obj !! PROTO = None → parse_loop fuel p s obj = Some obj' →
  obj' !! PROTO = None.
Proof.
  revert p s obj. induction fuel as [|fuel IH]; intros p s obj Hp; [done|].
  cbn [parse_loop].
  destruct (exec_from LINE p s) as [[skipped y]|]; [|by intros [= <-]].
  destruct (match_value (caps y !! 2)) as [value|]; [|done].
  cbn [mbind option_bind]. apply IH. by apply obj_set_no_proto.
Qed.

Lemma parse_no_proto src obj : parse src = Some obj → obj !! PROTO = None.
Proof.
  unfold parse. destruct (replace _ _ src) as [lines|]; [|done].
  cbn [mbind option_bind]. by apply parse_loop_no_proto.
Qed.

(** Precedence in Object.assign(defaults, core): a key of both sources is
    bound to the core value, a key of the defaults source only to the
    defaults value, a key of the result is a key of one of the two, and a key
    of the core source only is bound to its value unless it is __proto__. *)
Lemma Object_assign_precedence (defaults core : gmap jsstring jsstring) :
  (∀ k vc vd, core !! k = Some vc → defaults !! k = Some vd →
     Object_assign defaults core !! k = Some vc)
  ∧ (∀ k vd, core !! k = None → defaults !! k = Some vd →
       Object_assign defaults core !! k = Some vd)
  ∧ (∀ k, is_Some (Object_assign defaults core !! k) →
       is_Some (core !! k) ∨ is_Some (defaults !! k))
  ∧ (∀ k vc, k ≠ PROTO → core !! k = Some vc →
       Object_assign defaults core !! k = Some vc).
Proof.
  split; [|split; [|split]].
  - intros k vc vd Hc Hd. rewrite Object_assign_lookup, Hc.
    rewrite decide_False; [done|]. intros [-> Hp]. congruence.
  - intros k vd Hc Hd. rewrite Object_assign_lookup, Hc, Hd.
    rewrite decide_False; [done|]. intros [-> Hp]. congruence.
  - intros k. rewrite Object_assign_lookup.
    destruct (decide _); [by intros [? ?]|].
    destruct (core !! k); [by left|by right].
  - intros k vc Hk Hc. rewrite Object_assign_lookup, Hc.
    rewrite decide_False; [done|]. intros [? _]. done.
Qed.

(** ** The loader: what a call does to the environment *)

Lemma filter_ext_elem {A} (P Q : A → Prop) `{!∀ x, Decision (P x)}
    `{!∀ x, Decision (Q x)} (l : list A) :
  (∀ x, x ∈ l → P x ↔ Q x) → filter P l = filter Q l.
Proof.
  induction l as [|x l IH]; intros Hext; [done|].
  rewrite !filter_cons.
  rewrite IH by (intros y Hy; apply Hext; by right).
  destruct (decide (P x)) as [HP|HP], (decide (Q x)) as [HQ|HQ]; try done.
  - exfalso. apply HQ, (Hext x); [by left|done].
  - exfalso. apply HP, (Hext x); [by left|done].
Qed.

Lemma filter_none {A} (P : A → Prop) `{!∀ x, Decision (P x)} (l : list A) :
  (∀ x, x ∈ l → ¬ P x) → filter P l = [].
Proof.
  induction l as [|x l IH]; intros Hnone; [done|].
  rewrite filter_cons, decide_False by (apply Hnone; by left).
  apply IH. intros y Hy. apply Hnone. by right.
Qed.

Section LoaderFacts.
Context {Issue : Type} (host : Host Issue).
Implicit Types (schema : gmap jsstring jsstring → TryResult Issue)
  (opt : option IOptions) (w : World).

(** The assignment of a value whose properties are all strings runs to its
    end. *)
Lemma assign_process_env_strings env (kvs : list (jsstring * jsstring)) :
  assign_process_env host env (strings kvs)
  = (true, foldl (λ e kv, setenv host e kv.1 kv.2) env kvs).
Proof.
  revert env. induction kvs as [|[k s] kvs IH]; intros env; [done|].
  cbn [strings fmap list_fmap assign_process_env fst snd foldl]. apply IH.
Qed.

(** After it, a name holds the text of the last string stored under it. *)
Lemma setenv_fold_lookup (kvs : list (jsstring * jsstring)) env n :
  foldl (λ e kv, setenv host e kv.1 kv.2) env kvs !! n =
    match stored host kvs n with
    | Some text => Some text
    | None => env !! n
    end.
Proof.
  unfold stored. induction kvs as [|[k s] kvs IH] using rev_ind; [done|].
  rewrite foldl_app, filter_app. cbn [foldl fst snd]. unfold setenv at 1.
  rewrite filter_cons, filter_nil. cbn [fst].
  destruct (environ_name host k) as [m|] eqn:Em.
  - destruct (decide (m = n)) as [->|Hne].
    + rewrite decide_True by done. rewrite last_snoc, lookup_insert_eq. done.
    + rewrite decide_False by congruence.
      rewrite app_nil_r, lookup_insert_ne by done. apply IH.
  - rewrite decide_False by done. rewrite app_nil_r. apply IH.
Qed.

Lemma loadFile_process_env w path enc :
  process_env (loadFile host w path enc).2 = process_env w.
Proof.
  unfold loadFile. destruct path as [p|t]; [|done]. by destruct (files w p).
Qed.

Lemma loadFile_world w path enc :
  (loadFile host w path enc).2 = log_read w path.
Proof.
  unfold loadFile. destruct path as [p|t]; [|done]. by destruct (files w p).
Qed.

Lemma loadFile_content w path enc :
  (loadFile host w path enc).1 =
    (λ bytes, match enc with
              | None => FBuffer bytes
              | Some e => FString (decode host e bytes)
              end) <$> file_at w path.
Proof.
  unfold loadFile, file_at. destruct path as [p|t]; [|done].
  by destruct (files w p).
Qed.

(** The constant loadedEnvVariables, step by step. *)
Lemma loadedEnvVariables_unfold opt w :
  loadedEnvVariables host opt w =
    let env := environment_name host opt w in
    if negb (truthy_value env)
    then (inl (Throw ERROR_NO_ENVIRONMENT), w)
    else
      let w2 := log_read (log_read w (core_path host opt w))
                  (defaults_path host opt w env) in
      let core := (loadFile host w (core_path host opt w) (opt ≫= encoding)).1 in
      let defaults :=
        (loadFile host w (defaults_path host opt w env) (opt ≫= encoding)).1 in
      if negb (truthy_content core) && negb (truthy_content defaults)
      then (inl (Throw ERROR_NO_FILE), w2)
      else
        match source host opt w (defaults_path host opt w env) with
        | None => (inl ParserAbort, w2)
        | Some d =>
            match source host opt w (core_path host opt w) with
            | None => (inl ParserAbort, w2)
            | Some c => (inr (Object_assign d c), w2)
            end
        end.
Proof.
  unfold loadedEnvVariables, source. cbv zeta.
  fold (environment_name host opt w).
  destruct (negb (truthy_value _)); [done|].
  fold (core_path host opt w).
  fold (defaults_path host opt w (environment_name host opt w)).
  set (p1 := core_path host opt w).
  set (p2 := defaults_path host opt w (environment_name host opt w)).
  rewrite (surjective_pairing (loadFile host w p1 _)), loadFile_world.
  rewrite (surjective_pairing (loadFile host (log_read w p1) p2 _)),
    loadFile_world.
  assert ((loadFile host (log_read w p1) p2 (opt ≫= encoding)).1
          = (loadFile host w p2 (opt ≫= encoding)).1) as ->.
  { by rewrite !loadFile_content. }
  done.
Qed.

(** Reading and merging leave process.env as it was. *)
Lemma loadedEnvVariables_process_env opt w :
  process_env (loadedEnvVariables host opt w).2 = process_env w.
Proof.
  rewrite loadedEnvVariables_unfold. cbv zeta.
  destruct (negb (truthy_value _)); [done|].
  destruct (_ && _); [done|].
  destruct (source _ _ _ _) as [d|]; [|done].
  destruct (source _ _ _ _) as [c'|]; done.
Qed.

(** X5. Whenever a call of loadEnv ends on an Error of its own (no
    environment name, no file, a failed validation) or in a supplied parser
    that throws, that is, on any abrupt end but the TypeError of the last
    assignment, process.env is as it was before the call. *)
Lemma loadEnv_abrupt_process_env schema opt w a w' :
  loadEnv host schema opt w = (inl a, w') → a ≠ AssignAbort →
  process_env w' = process_env w.
Proof.
  unfold loadEnv. pose proof (loadedEnvVariables_process_env opt w) as Hw.
  destruct (loadedEnvVariables host opt w) as [[a'|loaded] w1]; cbn in Hw.
  - by intros [= _ <-].
  - destruct (schema loaded) as [value|issues].
    + destruct (assign_process_env host (process_env w1) value) as [[|] env];
        [done|]. by intros [= <- _].
    + by intros [= _ <-].
Qed.
End LoaderFacts.

Lemma join_infix (sep : jsstring) (l : list jsstring) (s : jsstring) :
  s ∈ l → ∃ before after, join sep l = before ++ s ++ after.
Proof.
  induction l as [|s0 l IH]; [by intros ?%elem_of_nil|].
  intros [->|Hin]%elem_of_cons.
  - destruct l as [|s1 l].
    + exists [], []. cbn. by rewrite app_nil_r.
    + exists [], (sep ++ join sep (s1 :: l)). done.
  - destruct (IH Hin) as (before & after & Heq).
    destruct l as [|s1 l]; [by apply elem_of_nil in Hin|].
    exists (s0 ++ sep ++ before), after.
    change (join sep (s0 :: s1 :: l)) with (s0 ++ sep ++ join sep (s1 :: l)).
    rewrite Heq. by rewrite <- !app_assoc.
Qed.

(** C1. Merge precedence, in the merged variables loadEnv computes: they
    are computed from the two parsed sources, the core one and the defaults
    one; a key of both sources is bound to the core value, the empty string
    included; a key of the defaults source only is bound to the defaults
    value; and a key of the result is a key of one of the two sources. (A
    key of the core source only is bound to its value too, unless it is
    __proto__.) *)
Theorem merge_precedence {Issue : Type} (host : Host Issue)
    (opt : option IOptions) (w : World) (merged : gmap jsstring jsstring) :
  (loadedEnvVariables host opt w).1 = inr merged →
  ∃ core defaults,
    source host opt w (core_path host opt w) = Some core
    ∧ source host opt w
        (defaults_path host opt w (environment_name host opt w))
      = Some defaults
    ∧ (∀ k vc vd, core !! k = Some vc → defaults !! k = Some vd →
         merged !! k = Some vc)
    ∧ (∀ k vd, core !! k = None → defaults !! k = Some vd →
         merged !! k = Some vd)
    ∧ (∀ k, is_Some (merged !! k) →
         is_Some (core !! k) ∨ is_Some (defaults !! k))
    ∧ (∀ k vc, k ≠ PROTO → core !! k = Some vc → merged !! k = Some vc).
Proof.
  rewrite loadedEnvVariables_unfold. cbv zeta.
  destruct (negb (truthy_value _)); [done|].
  destruct (_ && _); [done|].
  destruct (source _ _ _ (defaults_path _ _ _ _)) as [defaults|]; [|done].
  destruct (source _ _ _ (core_path _ _ _)) as [core|]; [|done].
  cbn [fst]. intros [= <-]. exists core, defaults.
  split; [done|]. split; [done|]. apply Object_assign_precedence.
Qed.

Lemma merge_precedence_witness :
  let w := example_world [(js "NODE_ENV", js "test")]
    [(js "/app/.env", js "DATABASE_URL=core.url" ++ [Ch.LF] ++ js "EMPTY=");
     (js "/app/.env.test.defaults",
      js "DATABASE_URL=def.url" ++ [Ch.LF] ++ js "JWT_SECRET=def.secret"
      ++ [Ch.LF] ++ js "EMPTY=def")] in
  let merged : gmap jsstring jsstring :=
    {[ js "DATABASE_URL" := js "core.url"; js "EMPTY" := [];
       js "JWT_SECRET" := js "def.secret" ]} in
  ∃ core defaults,
    source example_host None w (core_path example_host None w) = Some core
    ∧ source example_host None w
        (defaults_path example_host None w
           (environment_name example_host None w)) = Some defaults
    ∧ (∀ k vc vd, core !! k = Some vc → defaults !! k = Some vd →
         merged !! k = Some vc)
    ∧ (∀ k vd, core !! k = None → defaults !! k = Some vd →
         merged !! k = Some vd)
    ∧ (∀ k, is_Some (merged !! k) →
         is_Some (core !! k) ∨ is_Some (defaults !! k))
    ∧ (∀ k vc, k ≠ PROTO → core !! k = Some vc → merged !! k = Some vc).
Proof.
  intros w merged. apply (merge_precedence example_host None w merged).
  vm_compute. reflexivity.
Defined.

(** C2. Validation failure: when schema.try fails on the merged variables
    with a list of issues, loadEnv throws the Error whose message is
    Validation errors: followed by the texts of all the issues, in their
    order, joined by newlines, so that the text of every issue of the list
    is part of the message; and process.env is left as it was. *)
Theorem loadEnv_validation_failure {Issue : Type} (host : Host Issue)
    (schema : gmap jsstring jsstring → TryResult Issue) (opt : option IOptions)
    (w w' : World) (loaded : gmap jsstring jsstring) (issues : list Issue) :
  loadedEnvVariables host opt w = (inr loaded, w') →
  schema loaded = Err issues →
  loadEnv host schema opt w =
    (inl (Throw (js "Validation errors: "
                   ++ join [Ch.LF] (JSON_stringify host <$> issues))), w')
  ∧ process_env w' = process_env w
  ∧ ∀ issue, issue ∈ issues →
      ∃ before after,
        js "Validation errors: " ++ join [Ch.LF] (JSON_stringify host <$> issues)
        = before ++ JSON_stringify host issue ++ after.
Proof.
  intros Hload Hschema. split; [|split].
  - unfold loadEnv. rewrite Hload, Hschema. done.
  - change w' with (@inr Abrupt _ loaded, w').2. rewrite <- Hload.
    apply loadedEnvVariables_process_env.
  - intros issue Hin.
    destruct (join_infix [Ch.LF] (JSON_stringify host <$> issues)
                (JSON_stringify host issue)) as (before & after & Heq).
    { by apply list_elem_of_fmap_2. }
    exists (js "Validation errors: " ++ before), after.
    rewrite Heq. by rewrite <- app_assoc.
Qed.

Lemma loadEnv_validation_failure_witness :
  ∃ w',
    loadEnv example_host example_schema None
      (example_world [(js "NODE_ENV", js "test")] [(js "/app/.env", js "A=1")])
    = (inl (Throw (js "Validation errors: KEY: Must be a string" ++ [Ch.LF]
                     ++ js "second issue")), w')
    ∧ process_env w' = {[ js "NODE_ENV" := js "test" ]}.
Proof.
  eexists.
  pose proof (loadEnv_validation_failure example_host example_schema None
    (example_world [(js "NODE_ENV", js "test")] [(js "/app/.env", js "A=1")])
    _ _ _ ltac:(vm_compute; reflexivity) ltac:(vm_compute; reflexivity))
    as (Hthrow & Henv & _).
  split; [exact Hthrow|]. rewrite Henv. vm_compute. reflexivity.
Defined.

(** C3. Success, for a value whose properties all convert to strings: when
    schema.try succeeds on the merged variables with such a value, loadEnv
    returns, and in the process.env it leaves every name holds the text of
    the last property stored under it, as the environment of the host names
    and stores it, or what it held before when no property was stored under
    it. So a key that the environment stores under its own name, alone among
    the keys of the value, is bound to the stored text of its value whatever
    it was bound to before, and a name no key is stored under is bound, or
    absent, as before. *)
Theorem loadEnv_success_overlay {Issue : Type} (host : Host Issue)
    (schema : gmap jsstring jsstring → TryResult Issue) (opt : option IOptions)
    (w w' : World) (loaded : gmap jsstring jsstring)
    (kvs : list (jsstring * jsstring)) :
  loadedEnvVariables host opt w = (inr loaded, w') →
  schema loaded = Ok (strings kvs) →
  ∃ w'', loadEnv host schema opt w = (inr tt, w'')
    ∧ (∀ n, process_env w'' !! n =
         match stored host kvs n with
         | Some text => Some text
         | None => process_env w !! n
         end)
    ∧ (∀ k text,
         last_value k kvs = Some text → environ_name host k = Some k →
         (∀ kv, kv ∈ kvs → environ_name host kv.1 = Some k → kv.1 = k) →
         process_env w'' !! k = Some (environ_value host text))
    ∧ (∀ n, (∀ kv, kv ∈ kvs → environ_name host kv.1 ≠ Some n) →
         process_env w'' !! n = process_env w !! n).
Proof.
  intros Hload Hschema.
  assert (process_env w' = process_env w) as Henv.
  { change w' with (@inr Abrupt _ loaded, w').2. rewrite <- Hload.
    apply loadedEnvVariables_process_env. }
  eexists. split; [|split; [|split]].
  - unfold loadEnv. rewrite Hload, Hschema, assign_process_env_strings.
    reflexivity.
  - intros n. cbn [process_env set_process_env].
    by rewrite setenv_fold_lookup, Henv.
  - intros k text Hlast Hname Halone. cbn [process_env set_process_env].
    rewrite setenv_fold_lookup. unfold stored.
    rewrite (filter_ext_elem _ (λ kv, kv.1 = k)).
    + unfold last_value in Hlast.
      destruct (last (filter (λ kv, kv.1 = k) kvs)) as [[k' s]|]; [|done].
      cbn in *. congruence.
    + intros kv Hkv. split; [by apply Halone|]. by intros ->.
  - intros n Hnone. cbn [process_env set_process_env].
    rewrite setenv_fold_lookup. unfold stored.
    by rewrite filter_none, Henv.
Qed.

Lemma loadEnv_success_overlay_witness :
  ∃ w'',
    loadEnv example_host example_schema None
      (example_world [(js "NODE_ENV", js "test"); (js "KEY", js "old");
                      (js "HOME", js "/root")]
                     [(js "/app/.env", js "KEY=new")])
    = (inr tt, w'')
    ∧ process_env w'' !! js "KEY" = Some (js "new")
    ∧ process_env w'' !! js "HOME" = Some (js "/root").
Proof.
  destruct (loadEnv_success_overlay example_host example_schema None
    (example_world [(js "NODE_ENV", js "test"); (js "KEY", js "old");
                    (js "HOME", js "/root")]
                   [(js "/app/.env", js "KEY=new")])
    _ _ [(js "KEY", js "new")]
    ltac:(vm_compute; reflexivity) ltac:(vm_compute; reflexivity))
    as (w'' & Hret & Hall & _).
  exists w''. split; [exact Hret|]. split.
  - rewrite Hall. vm_compute. reflexivity.
  - rewrite Hall. vm_compute. reflexivity.
Defined.

(** C3 does not hold of every validated value. Take a value with the text
    v, NUL, w under A, then a symbol under B, then a text under C.
    Validation succeeds; the assignment of line 147 stores v under A, throws
    a TypeError at B and never writes C, which keeps its old value. *)
Lemma loadEnv_success_overlay_counterexample :
  let w := example_world [(js "NODE_ENV", js "test"); (js "C", js "old")]
             [(js "/app/.env", js "A=1")] in
  (∀ loaded,
     symbol_schema loaded
     = Ok [ (js "A", Some (js "v" ++ [0%N] ++ js "w")); (js "B", None);
            (js "C", Some (js "3")) ])
  ∧ (loadEnv example_host symbol_schema None w).1 = inl AssignAbort
  ∧ process_env (loadEnv example_host symbol_schema None w).2 !! js "A"
    = Some (js "v")
  ∧ process_env (loadEnv example_host symbol_schema None w).2 !! js "C"
    = Some (js "old").
Proof.
  split; [done|]. split; [|split]; vm_compute; reflexivity.
Qed.

(** C4. The check of line 110 misses the names of the members of
    Object.prototype: with the option processEnvKey set to constructor and
    no variable of that name in the environment, the call does not throw the
    Error about the missing environment. It takes the inherited function for
    the environment name, reads the core file and a defaults path made of
    the text of that function, and writes the variables of the core file. *)
Theorem loadEnv_inherited_environment_name :
  let w := example_world [(js "NODE_ENV", js "test")]
             [(js "/app/.env", js "KEY=new")] in
  let opt := Some {| corePath := None; defaultsPathsMap := None;
                     processEnvKey := Some (js "constructor");
                     parse_option := None; encoding := None |} in
  process_env w !! js "constructor" = None
  ∧ (loadEnv example_host example_schema opt w).1 = inr tt
  ∧ process_env (loadEnv example_host example_schema opt w).2 !! js "KEY"
    = Some (js "new")
  ∧ reads (loadEnv example_host example_schema opt w).2
    = [ Str (js "/app/.env");
        Str (js "/app/.env.function Object() { [native code] }.defaults") ].
Proof. repeat split; vm_compute; reflexivity. Qed.

(** X24. Missing environment name: when the environment has the empty
    string under the key options.processEnvKey (NODE_ENV when the option is
    absent or empty), or has no variable under it while Object.prototype has
    no member of that name, loadEnv throws the Error about the missing
    environment and leaves the world as it was: no file was read and
    process.env is untouched. *)
Theorem loadEnv_no_environment_name {Issue : Type} (host : Host Issue)
    (schema : gmap jsstring jsstring → TryResult Issue) (opt : option IOptions)
    (w : World) :
  let key := string_or (opt ≫= processEnvKey) (js "NODE_ENV") in
  getenv host (process_env w) key = Some []
  ∨ (getenv host (process_env w) key = None ∧ inherited host key = None) →
  loadEnv host schema opt w = (inl (Throw ERROR_NO_ENVIRONMENT), w).
Proof.
  cbv zeta. intros Hfalsy. unfold loadEnv, loadedEnvVariables, env_read.
  cbv zeta. by destruct Hfalsy as [->|[-> ->]].
Qed.

Lemma loadEnv_no_environment_name_witness :
  loadEnv example_host example_schema
    (Some {| corePath := None; defaultsPathsMap := None;
             processEnvKey := Some (js "MY_ENV"); parse_option := None;
             encoding := None |})
    (example_world [(js "NODE_ENV", js "test"); (js "MY_ENV", [])]
                   [(js "/app/.env", js "KEY=new")])
  = (inl (Throw ERROR_NO_ENVIRONMENT),
     example_world [(js "NODE_ENV", js "test"); (js "MY_ENV", [])]
                   [(js "/app/.env", js "KEY=new")]).
Proof.
  apply (loadEnv_no_environment_name example_host example_schema).
  left. vm_compute. reflexivity.
Defined.

(** ** The loader: which files count *)

Section SourceFiles.
Context {Issue : Type} (host : Host Issue).

(** Without the encoding option a file that exists is read as a Buffer,
    which is truthy whatever its bytes. *)
Lemma loadFile_buffer_truthy (w : World) (path : jsstring) (bytes : list N) :
  files w path = Some bytes →
  truthy_content (loadFile host w (Str path) None).1 = true.
Proof. unfold loadFile. by intros ->. Qed.

(** With the encoding option the file is read as a string, and the string
    of a file whose decoded content is empty is falsy. *)
Lemma loadFile_empty_string_falsy (w : World) (path : jsstring)
    (e : BufferEncoding) (bytes : list N) :
  files w path = Some bytes → decode host e bytes = [] →
  truthy_content (loadFile host w (Str path) (Some e)).1 = false.
Proof. unfold loadFile. intros -> Hd. cbn. by rewrite Hd. Qed.
End SourceFiles.

(** C5. With the encoding option set, a core file that exists and is empty
    is read as the empty string; with no defaults file the call throws the
    Error about the missing files, although one of the two files exists. *)
Theorem loadEnv_empty_core_file_with_encoding
    (schema : gmap jsstring jsstring → TryResult jsstring) :
  let w := example_world [(js "NODE_ENV", js "test")] [(js "/app/.env", [])] in
  let opt := Some {| corePath := None; defaultsPathsMap := None;
                     processEnvKey := None; parse_option := None;
                     encoding := Some enc_utf8 |} in
  files w (js "/app/.env") = Some []
  ∧ (loadEnv example_host schema opt w).1 = inl (Throw ERROR_NO_FILE).
Proof. split; vm_compute; reflexivity. Qed.

(** The same file without the encoding option: the call goes on to the
    schema. *)
Lemma loadEnv_empty_core_file_as_buffer :
  let w := example_world [(js "NODE_ENV", js "test")] [(js "/app/.env", [])] in
  (loadEnv example_host (λ loaded, Ok (as_value loaded)) None w).1 = inr tt.
Proof. vm_compute. reflexivity. Qed.

(** ** Matching a repeated class *)

Lemma eqb_length_cons {A} (ch : A) (tl : list A) :
  (length tl =? length (ch :: tl)) = false.
Proof. apply Nat.eqb_neq. cbn. lia. Qed.

Lemma rmatch_Star_Chr p pv u cp c :
  rmatch (Star (Chr p)) (MState pv u cp) c = star_chr p pv u cp c.
Proof.
  revert pv. induction u as [|ch tl IH]; intros pv; rewrite rmatch_Star;
    cbn [rmatch groups clear_groups foldr prev rest caps star_chr]; [done|].
  destruct (p ch); [|done].
  unfold repeat_cont at 1. cbn [rest]. rewrite eqb_length_cons. cbn [andb Nat.eqb].
  by rewrite IH.
Qed.

Lemma rmatch_StarLazy_Chr p pv u cp c :
  rmatch (StarLazy (Chr p)) (MState pv u cp) c = starlazy_chr p pv u cp c.
Proof.
  revert pv. induction u as [|ch tl IH]; intros pv; rewrite rmatch_StarLazy;
    cbn [rmatch groups clear_groups foldr prev rest caps starlazy_chr]; [done|].
  destruct (p ch); [|done].
  unfold repeat_cont at 1. cbn [rest]. rewrite eqb_length_cons. cbn [andb Nat.eqb].
  by rewrite IH.
Qed.

Lemma rmatch_Plus_Chr p pv u cp c :
  rmatch (Plus (Chr p)) (MState pv u cp) c =
    match u with
    | ch :: tl => if p ch then star_chr p (Some ch) tl cp c else None
    | [] => None
    end.
Proof.
  rewrite rmatch_Plus. cbn [rmatch groups clear_groups foldr prev rest caps].
  destruct u as [|ch tl]; [done|]. destruct (p ch); [|done].
  apply rmatch_Star_Chr.
Qed.

Lemma rmatch_PlusLazy_Chr p pv u cp c :
  rmatch (PlusLazy (Chr p)) (MState pv u cp) c =
    match u with
    | ch :: tl => if p ch then starlazy_chr p (Some ch) tl cp c else None
    | [] => None
    end.
Proof.
  rewrite rmatch_PlusLazy. cbn [rmatch groups clear_groups foldr prev rest caps].
  destruct u as [|ch tl]; [done|]. destruct (p ch); [|done].
  apply rmatch_StarLazy_Chr.
Qed.

Lemma prev_after_cons pv ch u : prev_after (Some ch) u = prev_after pv (ch :: u).
Proof.
  unfold prev_after. destruct u as [|c2 u]; [done|].
  change (last (ch :: c2 :: u)) with (last (c2 :: u)).
  destruct (last (c2 :: u)) as [l|] eqn:E; [done|].
  by apply last_None in E.
Qed.

(** The class takes nothing at a position where it does not apply. *)
Lemma star_chr_stop p pv u cp c :
  from_option p false (head u) = false →
  star_chr p pv u cp c = c (MState pv u cp).
Proof. destruct u as [|ch tl]; [done|]. cbn. by intros ->. Qed.

(** Greedy: when the continuation succeeds after all of [u], that is the
    result. *)
Lemma star_chr_far p pv u v cp c z :
  Forall (λ ch, p ch = true) u →
  from_option p false (head v) = false →
  c (MState (prev_after pv u) v cp) = Some z →
  star_chr p pv (u ++ v) cp c = Some z.
Proof.
  intros Hu Hv. revert pv. induction Hu as [|ch u Hch Hu IH]; intros pv Hc.
  - cbn [app]. rewrite star_chr_stop; done.
  - cbn [app star_chr]. rewrite Hch, IH; [done|].
    by rewrite prev_after_cons with (pv := pv).
Qed.

(** Greedy, one step back: the continuation fails after all of [u] and the
    last code unit [q], and succeeds before [q]. *)
Lemma star_chr_back_one p pv u q cp c z :
  Forall (λ ch, p ch = true) u → p q = true →
  c (MState (Some q) [] cp) = None →
  c (MState (prev_after pv u) [q] cp) = Some z →
  star_chr p pv (u ++ [q]) cp c = Some z.
Proof.
  intros Hu Hq Hend. revert pv. induction Hu as [|ch u Hch Hu IH]; intros pv Hc.
  - cbn [app star_chr]. rewrite Hq, Hend. exact Hc.
  - cbn [app star_chr]. rewrite Hch, IH; [done|].
    by rewrite prev_after_cons with (pv := pv).
Qed.

(** ** The value of a match *)

Lemma is_any_true ch : is_any ch = true.
Proof. unfold is_any. by destruct (is_space ch). Qed.

Lemma is_quote_cases q :
  is_quote q = true → q = Ch.SQUOTE ∨ q = Ch.DQUOTE ∨ q = Ch.BACKTICK.
Proof.
  unfold is_quote. intros H.
  destruct (N.eqb_spec q Ch.SQUOTE); [auto|].
  destruct (N.eqb_spec q Ch.DQUOTE); [auto|].
  destruct (N.eqb_spec q Ch.BACKTICK); [auto|]. done.
Qed.

Lemma is_quote_not_space q : is_quote q = true → is_space q = false.
Proof. intros [ -> | [ -> | -> ] ]%is_quote_cases; reflexivity. Qed.

Lemma is_quote_not_terminator q :
  is_quote q = true → is_line_terminator q = false.
Proof. intros [ -> | [ -> | -> ] ]%is_quote_cases; reflexivity. Qed.

Lemma starts_with_refl w : starts_with w w = true.
Proof. unfold starts_with. apply bool_decide_eq_true. apply firstn_all. Qed.

(** Line 199 on a text that starts and ends with the same quote: the two are
    removed and nothing else. *)
Lemma replace_surrounding_quotes q body :
  is_quote q = true →
  replace SURROUNDING_QUOTES (tmpl_group 2) (q :: body ++ [q]) = Some body.
Proof.
  intros Hq. rewrite replace_eq.
  pose (y := MState (Some q) [] (<[2 := body]> (<[1 := [q]]> ∅))).
  rewrite (replace_at_hit _ _ _ _ y).
  - rewrite replace_at_nomatch.
    + cbn. unfold tmpl_group. cbn. rewrite lookup_insert_eq. cbn.
      by rewrite app_nil_r.
    + cbn. by rewrite is_quote_not_terminator.
  - unfold SURROUNDING_QUOTES. cbn [rmatch prev rest caps]. rewrite Hq.
    cbn [rest prev caps length].
    replace (S (length (body ++ [q])) - length (body ++ [q])) with 1 by lia.
    cbn [take]. rewrite rmatch_Star_Chr.
    apply star_chr_back_one.
    + apply Forall_forall. intros ? _. apply is_any_true.
    + apply is_any_true.
    + cbn [rest prev caps length]. rewrite lookup_insert_ne by done.
      rewrite lookup_insert_eq. done.
    + cbn [rest prev caps length]. rewrite lookup_insert_ne by done.
      rewrite lookup_insert_eq. rewrite starts_with_refl.
      cbn [drop length last from_option rest].
      rewrite length_app. cbn [length].
      replace (length body + 1 - 1) with (length body) by lia.
      rewrite take_app_length. done.
  - cbn. rewrite length_app. cbn. lia.
Qed.

Lemma replace_at_pair a b c p v :
  replace_at (Lit [a; b]) (tmpl_text [c]) p v = Some (replace_pair a b c v).
Proof.
  remember (length v) as n eqn:Hn. revert p v Hn.
  induction n as [n IH] using lt_wf_ind. intros p v ->.
  destruct v as [|x [|y tl']].
  - by rewrite replace_at_nomatch.
  - rewrite replace_at_skip.
    + rewrite replace_at_nomatch; done.
    + cbn. by destruct (is_char a x).
  - cbn [replace_pair]. unfold is_char.
    destruct ((x =? a)%N && (y =? b)%N) eqn:E.
    + apply andb_true_iff in E as [Ex Ey].
      rewrite (replace_at_hit _ _ _ _ (MState (Some y) tl' ∅)).
      * cbn [prev rest]. rewrite (IH (length tl')); [done|cbn; lia|done].
      * cbn. unfold is_char. by rewrite Ex, Ey.
      * cbn. lia.
    + rewrite replace_at_skip.
      * rewrite (IH (length (y :: tl'))); [done|cbn; lia|done].
      * cbn. unfold is_char.
        destruct (x =? a)%N; [|done]. destruct (y =? b)%N; done.
Qed.

Lemma replace_pair_cons_ne a b c x v :
  x ≠ a → replace_pair a b c (x :: v) = x :: replace_pair a b c v.
Proof.
  intros Hx%N.eqb_neq. cbn [replace_pair]. destruct v as [|y v]; [done|].
  by rewrite Hx.
Qed.

Lemma replace_pair_cons_head a b c x v :
  from_option (λ y, bool_decide (y ≠ b)) true (head v) = true →
  replace_pair a b c (x :: v) = x :: replace_pair a b c v.
Proof.
  destruct v as [|y v]; [done|]. cbn [head from_option].
  intros Hy%bool_decide_eq_true%N.eqb_neq. cbn [replace_pair].
  rewrite Hy, andb_false_r. done.
Qed.

Lemma head_replace_pair a b c v :
  head (replace_pair a b c v) = head v
  ∨ head (replace_pair a b c v) = Some c.
Proof.
  destruct v as [|x [|y tl']]; [auto..|]. cbn [replace_pair].
  destruct (_ && _); auto.
Qed.

Lemma replace_pair_hit a b c v :
  replace_pair a b c (a :: b :: v) = c :: replace_pair a b c v.
Proof. cbn [replace_pair]. by rewrite !N.eqb_refl. Qed.

Lemma replace_pair_miss a b c x y v :
  ¬ (x = a ∧ y = b) →
  replace_pair a b c (x :: y :: v) = x :: replace_pair a b c (y :: v).
Proof.
  intros Hne. cbn [replace_pair].
  destruct (N.eqb_spec x a), (N.eqb_spec y b); cbn [andb]; try done.
  exfalso. auto.
Qed.

(** Lines 203 and 204, one replacement after the other, do what the
    specification says in one pass. *)
Lemma expand_two_passes v :
  replace_pair Ch.BACKSLASH Ch.LOWER_R Ch.CR
    (replace_pair Ch.BACKSLASH Ch.LOWER_N Ch.LF v) = expand_escapes v.
Proof.
  remember (length v) as n eqn:Hn. revert v Hn.
  induction n as [n IH] using lt_wf_ind. intros v ->.
  destruct v as [|x [|y tl']]; [done..|].
  assert (IH1 : replace_pair Ch.BACKSLASH Ch.LOWER_R Ch.CR
            (replace_pair Ch.BACKSLASH Ch.LOWER_N Ch.LF (y :: tl'))
          = expand_escapes (y :: tl')).
  { apply (IH (length (y :: tl'))); [cbn; lia|done]. }
  assert (IH2 : replace_pair Ch.BACKSLASH Ch.LOWER_R Ch.CR
            (replace_pair Ch.BACKSLASH Ch.LOWER_N Ch.LF tl')
          = expand_escapes tl').
  { apply (IH (length tl')); [cbn; lia|done]. }
  change (expand_escapes (x :: y :: tl')) with
    (if (x =? Ch.BACKSLASH)%N && (y =? Ch.LOWER_N)%N
     then Ch.LF :: expand_escapes tl'
     else if (x =? Ch.BACKSLASH)%N && (y =? Ch.LOWER_R)%N
     then Ch.CR :: expand_escapes tl'
     else x :: expand_escapes (y :: tl')).
  destruct (N.eqb_spec x Ch.BACKSLASH) as [->|Hx]; cbn [andb].
  - destruct (N.eqb_spec y Ch.LOWER_N) as [->|Hn].
    + rewrite replace_pair_hit, replace_pair_cons_ne by done. by rewrite IH2.
    + rewrite replace_pair_miss by (intros [_ ?]; done).
      destruct (N.eqb_spec y Ch.LOWER_R) as [->|Hr].
      * rewrite (replace_pair_cons_ne _ _ _ Ch.LOWER_R) by done.
        rewrite replace_pair_hit. by rewrite IH2.
      * rewrite <- IH1. apply replace_pair_cons_head.
        destruct (head_replace_pair Ch.BACKSLASH Ch.LOWER_N Ch.LF (y :: tl'))
          as [-> | ->]; cbn [head from_option]; apply bool_decide_eq_true; done.
  - rewrite replace_pair_miss by (intros [? _]; done).
    rewrite replace_pair_cons_ne by done. by rewrite IH1.
Qed.

Lemma expand_escapes_cons_ne x v :
  x ≠ Ch.BACKSLASH → expand_escapes (x :: v) = x :: expand_escapes v.
Proof.
  intros Hx%N.eqb_neq. cbn [expand_escapes]. destruct v as [|y v]; [done|].
  by rewrite Hx.
Qed.

Lemma expand_escapes_cons_other x y v :
  y ≠ Ch.LOWER_N → y ≠ Ch.LOWER_R →
  expand_escapes (x :: y :: v) = x :: expand_escapes (y :: v).
Proof.
  intros Hn%N.eqb_neq Hr%N.eqb_neq. cbn [expand_escapes].
  by rewrite Hn, Hr, !andb_false_r.
Qed.

Lemma expand_escapes_unfold x y v :
  expand_escapes (x :: y :: v) =
    if (x =? Ch.BACKSLASH)%N && (y =? Ch.LOWER_N)%N
    then Ch.LF :: expand_escapes v
    else if (x =? Ch.BACKSLASH)%N && (y =? Ch.LOWER_R)%N
    then Ch.CR :: expand_escapes v
    else x :: expand_escapes (y :: v).
Proof. reflexivity. Qed.

(** A backslash followed by a quote is not touched by the expansion, and
    what is around it is expanded as if it stood alone. *)
Lemma expand_escapes_escaped_quote u q v :
  is_quote q = true →
  expand_escapes (u ++ Ch.BACKSLASH :: q :: v)
  = expand_escapes u ++ Ch.BACKSLASH :: q :: expand_escapes v.
Proof.
  intros Hq.
  assert (q ≠ Ch.LOWER_N ∧ q ≠ Ch.LOWER_R ∧ q ≠ Ch.BACKSLASH) as (Hn & Hr & Hb).
  { apply is_quote_cases in Hq as [ -> | [ -> | -> ] ]; done. }
  remember (length u) as n eqn:Hlen. revert u Hlen.
  induction n as [n IH] using lt_wf_ind. intros u ->.
  destruct u as [|x [|y u']].
  - cbn [app]. rewrite expand_escapes_cons_other by done.
    by rewrite expand_escapes_cons_ne.
  - cbn [app]. rewrite (expand_escapes_cons_other x) by done.
    rewrite expand_escapes_cons_other by done.
    by rewrite expand_escapes_cons_ne.
  - change ((x :: y :: u') ++ Ch.BACKSLASH :: q :: v)
      with (x :: y :: (u' ++ Ch.BACKSLASH :: q :: v)).
    rewrite !expand_escapes_unfold.
    rewrite (IH (length u') ltac:(cbn; lia) u' eq_refl).
    change (y :: u' ++ Ch.BACKSLASH :: q :: v)
      with ((y :: u') ++ Ch.BACKSLASH :: q :: v).
    rewrite (IH (length (y :: u')) ltac:(cbn; lia) (y :: u') eq_refl).
    repeat destruct (_ && _); done.
Qed.

Lemma drop_spaces_app ws s :
  Forall (λ c, is_space c = true) ws → drop_spaces (ws ++ s) = drop_spaces s.
Proof.
  induction 1 as [|c ws Hc _ IH]; [done|]. cbn [app drop_spaces]. by rewrite Hc.
Qed.

Lemma trimEnd_snoc s q : is_space q = false → trimEnd (s ++ [q]) = s ++ [q].
Proof.
  intros Hq. unfold trimEnd. rewrite reverse_snoc. cbn [drop_spaces].
  rewrite Hq. rewrite reverse_cons, reverse_involutive. done.
Qed.

(** A text between two quotes, blanks before it: trim leaves the text and
    its quotes. *)
Lemma trim_quoted ws q body :
  Forall (λ c, is_space c = true) ws → is_space q = false →
  trim (ws ++ q :: body ++ [q]) = q :: body ++ [q].
Proof.
  intros Hws Hq. unfold trim, trimStart. rewrite drop_spaces_app by done.
  cbn [drop_spaces]. rewrite Hq.
  change (q :: body ++ [q]) with ((q :: body) ++ [q]). by apply trimEnd_snoc.
Qed.

(** The value of a match whose second group is a quoted text. *)
Lemma match_value_quoted ws q body :
  Forall (λ c, is_space c = true) ws → is_quote q = true →
  match_value (Some (ws ++ q :: body ++ [q])) =
    Some (if decide (q = Ch.DQUOTE) then expand_escapes body else body).
Proof.
  intros Hws Hq. unfold match_value. cbv zeta.
  change (default [] (Some (ws ++ q :: body ++ [q])))
    with (ws ++ q :: body ++ [q]).
  rewrite trim_quoted by auto using is_quote_not_space.
  rewrite replace_surrounding_quotes by done.
  cbn [mbind option_bind head].
  destruct (decide (q = Ch.DQUOTE)) as [->|Hne].
  - rewrite decide_True by done.
    unfold ESCAPED_N, ESCAPED_R. rewrite replace_eq, replace_at_pair.
    cbn [mbind option_bind]. rewrite replace_eq, replace_at_pair.
    by rewrite expand_two_passes.
  - rewrite decide_False by congruence. done.
Qed.

(** ** The classes of the pattern *)

Lemma key_char_not_space c : is_key_char c = true → is_space c = false.
Proof. intros H. class_facts. lia. Qed.

Lemma key_char_not_equals c : is_key_char c = true → c ≠ Ch.EQUALS.
Proof. intros H ->. done. Qed.

Lemma key_char_not_colon c : is_key_char c = true → c ≠ Ch.COLON.
Proof. intros H ->. done. Qed.

Lemma key_char_not_CR c : is_key_char c = true → c ≠ Ch.CR.
Proof. intros H ->. done. Qed.

(** ** The matches of a parse pass *)

Lemma parse_loop_scan fuel p s obj :
  parse_loop fuel p s obj = assign_all obj <$> scan_loop fuel p s.
Proof.
  revert p s obj. induction fuel as [|fuel IH]; intros p s obj; [done|].
  cbn [parse_loop scan_loop].
  destruct (exec_from LINE p s) as [[skipped y]|]; [|done].
  destruct (match_value (caps y !! 2)) as [value|]; [|done].
  cbn [mbind option_bind]. rewrite IH.
  destruct (scan_loop fuel (prev y) (rest y)); done.
Qed.

Lemma parse_matches src : parse src = assign_all ∅ <$> matches src.
Proof.
  unfold parse, matches, scan_at.
  destruct (replace LINE_BREAK (tmpl_text [Ch.LF]) src) as [lines|]; [|done].
  cbn [mbind option_bind]. apply parse_loop_scan.
Qed.

Lemma scan_loop_fuel f1 f2 p s :
  length s < f1 → length s < f2 → scan_loop f1 p s = scan_loop f2 p s.
Proof.
  revert f2 p s. induction f1 as [|f1 IH]; intros f2 p s H1 H2; [lia|].
  destruct f2 as [|f2]; [lia|]. cbn [scan_loop].
  destruct (exec_from LINE p s) as [[skipped y]|] eqn:E; [|done].
  apply exec_from_bound in E as [_ Hlt]. specialize (Hlt LINE_consumes).
  destruct (match_value (caps y !! 2)) as [value|]; [|done].
  cbn [mbind option_bind]. rewrite (IH f2); [done|lia..].
Qed.

Lemma scan_at_nomatch p s : exec_from LINE p s = None → scan_at p s = Some [].
Proof. unfold scan_at. cbn [scan_loop]. by intros ->. Qed.

Lemma scan_at_nil p : scan_at p [] = Some [].
Proof.
  apply scan_at_nomatch. rewrite exec_from_unfold.
  destruct (rmatch LINE (MState p [] ∅) Some) as [y|] eqn:E; [|done].
  apply rmatch_consumes in E as (? & _ & Hlt); [cbn in Hlt; lia|done].
Qed.

(** A match at lastIndex is recorded, and the scan resumes at its end. *)
Lemma scan_at_hit p s y value :
  rmatch LINE (MState p s ∅) Some = Some y →
  match_value (caps y !! 2) = Some value →
  scan_at p s =
    (cons (default [] (caps y !! 1), value)) <$> scan_at (prev y) (rest y).
Proof.
  intros Hy Hv. unfold scan_at.
  set (resumed := scan_loop (S (length (rest y))) (prev y) (rest y)).
  cbn [scan_loop]. rewrite exec_from_unfold, Hy, Hv. cbn [mbind option_bind].
  apply rmatch_consumes in Hy as (? & [= ->] & Hlt); [|done]. cbn in Hlt.
  rewrite (scan_loop_fuel (length s) (S (length (rest y)))) by lia.
  fold resumed. destruct resumed; done.
Qed.

(** No match at lastIndex: the search moves one code unit on. *)
Lemma scan_at_skip p ch tl :
  rmatch LINE (MState p (ch :: tl) ∅) Some = None →
  scan_at p (ch :: tl) = scan_at (Some ch) tl.
Proof.
  intros Hno. unfold scan_at.
  set (resumed := scan_loop (S (length tl)) (Some ch) tl).
  cbn [scan_loop]. rewrite exec_from_unfold, Hno.
  subst resumed. cbn [scan_loop].
  destruct (exec_from LINE (Some ch) tl) as [[skipped y]|] eqn:E; [|done].
  cbn [fmap option_fmap option_map].
  apply exec_from_bound in E as [_ Hlt]. specialize (Hlt LINE_consumes).
  destruct (match_value (caps y !! 2)) as [value|]; [|done].
  cbn [mbind option_bind].
  rewrite (scan_loop_fuel (length (ch :: tl)) (length tl)); [done|cbn; lia|lia].
Qed.

(** Last match wins: after the assignments of a pass, a key other than
    __proto__ that matched is bound to the value of its last match, and a
    key that did not match is bound as before. *)
Lemma assign_all_lookup ms obj k :
  obj !! PROTO = None → k ≠ PROTO →
  assign_all obj ms !! k =
    match last_value k ms with
    | Some v => Some v
    | None => obj !! k
    end.
Proof.
  intros Hp Hk. revert obj Hp.
  induction ms as [|[k0 v0] ms IH]; intros obj Hp; [done|].
  unfold assign_all in *. cbn [foldl fst snd].
  rewrite IH by (by apply obj_set_no_proto).
  unfold last_value. rewrite filter_cons. cbn [fst].
  destruct (decide (k0 = k)) as [->|Hne].
  - destruct (filter _ ms) as [|kv l] eqn:E.
    + cbn. rewrite obj_set_lookup by done. by rewrite decide_True.
    + change (last ((k, v0) :: kv :: l)) with (last (kv :: l)).
      destruct (last (kv :: l)) eqn:El; [done|]. by apply last_None in El.
  - destruct (snd <$> last (filter _ ms)); [done|].
    rewrite obj_set_lookup by done. rewrite decide_False; [done|].
    intros [? _]. done.
Qed.

Lemma assign_all_proto ms obj :
  obj !! PROTO = None → assign_all obj ms !! PROTO = None.
Proof.
  revert obj. induction ms as [|[k0 v0] ms IH]; intros obj Hp; [done|].
  unfold assign_all in *. cbn [foldl fst snd]. apply IH.
  by apply obj_set_no_proto.
Qed.

(** ** Matching one declaration *)

Lemma rmatch_Seq a b x c :
  rmatch (Seq a b) x c = rmatch a x (λ y, rmatch b y c).
Proof. reflexivity. Qed.

Lemma rmatch_Alt a b x c :
  rmatch (Alt a b) x c = or_else (rmatch a x c) (rmatch b x c).
Proof. reflexivity. Qed.

Lemma rmatch_Group n a x c :
  rmatch (Group n a) x c =
    rmatch a x (λ y,
      c (MState (prev y) (rest y)
           (<[n := take (length (rest x) - length (rest y)) (rest x)]> (caps y)))).
Proof. reflexivity. Qed.

Lemma rmatch_Bol pv u cp c :
  rmatch Bol (MState pv u cp) c =
    match pv with
    | None => c (MState pv u cp)
    | Some q => if is_line_terminator q then c (MState pv u cp) else None
    end.
Proof. reflexivity. Qed.

Lemma rmatch_Chr p pv u cp c :
  rmatch (Chr p) (MState pv u cp) c =
    match u with
    | ch :: tl => if p ch then c (MState (Some ch) tl cp) else None
    | [] => None
    end.
Proof. reflexivity. Qed.

Lemma or_else_same a : or_else a a = a.
Proof. by destruct a. Qed.

Lemma rmatch_consumes_nil r pv cp c :
  consumes r = true → rmatch r (MState pv [] cp) c = None.
Proof.
  intros Hr. destruct (rmatch r (MState pv [] cp) c) as [z|] eqn:E; [|done].
  apply rmatch_consumes in E as (? & _ & Hlt); [cbn in Hlt; lia|done].
Qed.

Lemma needs_first_Chr f r c : needs_first f (λ y, rmatch (Seq (Chr f) r) y c).
Proof.
  intros [pv [|ch tl] cp]; cbn; [done|]. by intros ->.
Qed.

Lemma needs_first_Plus_Chr f c : needs_first f (λ y, rmatch (Plus (Chr f)) y c).
Proof.
  intros [pv u cp] Hy. rewrite rmatch_Plus_Chr.
  destruct u as [|ch tl]; [done|]. cbn in Hy. by rewrite Hy.
Qed.

Lemma needs_first_repeat_cont f min x c :
  needs_first f c → needs_first f (repeat_cont min x c).
Proof.
  intros H y Hy. unfold repeat_cont. destruct (_ && _); [done|]. by apply H.
Qed.

(** The star of a class gives nothing to a continuation that needs a code
    unit found neither in the run nor after it. *)
Lemma star_chr_fail p f pv ws t cp c :
  needs_first f c →
  Forall (λ ch, f ch = false) ws →
  from_option f false (head t) = false →
  from_option p false (head t) = false →
  star_chr p pv (ws ++ t) cp c = None.
Proof.
  intros Hc Hws Ht Hpt. revert pv.
  induction Hws as [|ch ws Hch Hws IH]; intros pv.
  - cbn [app]. rewrite star_chr_stop by done. by apply Hc.
  - cbn [app star_chr]. rewrite IH.
    assert (c (MState pv (ch :: ws ++ t) cp) = None) as ->.
    { apply Hc. cbn. done. }
    by destruct (p ch).
Qed.

Lemma space_not_key_char c : is_space c = true → is_key_char c = false.
Proof.
  intros H. destruct (is_key_char c) eqn:E; [|done].
  apply key_char_not_space in E. congruence.
Qed.

(** The optional export prefix does not take part when what follows the
    word and its blanks is no key. *)
Lemma export_fails w K ws t pv cp c :
  Forall (λ ch, is_key_char ch = true) w →
  Forall (λ ch, is_key_char ch = true) K →
  after_key ws t →
  needs_first is_key_char c →
  rmatch (Lit w) (MState pv (K ++ ws ++ t) cp) (λ y, rmatch (Plus space) y c)
    = None.
Proof.
  intros Hw HK (Hws & Htk & Hts) Hc. revert K HK pv.
  induction Hw as [|a w Ha Hw IH]; intros K HK pv.
  - cbn [Lit rmatch]. unfold space. rewrite rmatch_Plus_Chr.
    destruct HK as [|k K Hk HK]; cbn [app].
    + destruct Hws as [|ch ws Hch Hws]; cbn [app].
      * destruct t as [|ch t]; [done|]. cbn in Hts. by rewrite Hts.
      * rewrite Hch. apply (star_chr_fail _ is_key_char); try done.
        apply Forall_impl with (2 := space_not_key_char) in Hws. exact Hws.
    + by rewrite (key_char_not_space k).
  - cbn [Lit rmatch rest prev caps].
    destruct HK as [|k K Hk HK]; cbn [app].
    + destruct Hws as [|ch ws Hch Hws]; cbn [app].
      * destruct t as [|ch t]; [done|]. cbn in Htk. unfold is_char.
        destruct (N.eqb_spec ch a) as [->|]; [congruence|done].
      * unfold is_char. destruct (N.eqb_spec ch a) as [->|]; [|done].
        apply key_char_not_space in Ha. congruence.
    + destruct (is_char a k); [|done]. apply IH. done.
Qed.

Lemma rmatch_Bol_twice pv s cp c :
  at_line_start pv = true →
  rmatch (Alt Bol Bol) (MState pv s cp) c = c (MState pv s cp).
Proof.
  intros H. cbn [rmatch prev]. destruct pv as [q|]; cbn in H.
  - rewrite H. apply or_else_same.
  - apply or_else_same.
Qed.

Lemma rmatch_Eol_twice pv cp c :
  rmatch (Alt Eol Eol) (MState pv [] cp) c = c (MState pv [] cp).
Proof. cbn [rmatch rest]. apply or_else_same. Qed.

Lemma take_app_minus {A} (K t : list A) :
  take (length (K ++ t) - length t) (K ++ t) = K.
Proof.
  rewrite length_app. replace (length K + length t - length t) with (length K) by lia.
  apply take_app_length.
Qed.

(** From the start of a line to the end of the key: when the rest of the
    pattern matches after the whole key, LINE matches that way. *)
Lemma rmatch_LINE_key pv K ws t z :
  at_line_start pv = true →
  K ≠ [] → Forall (λ ch, is_key_char ch = true) K →
  after_key ws t →
  rmatch (Seq SEPARATOR LINE_TAIL)
    (MState (prev_after pv K) (ws ++ t) (<[1 := K]> ∅)) Some = Some z →
  rmatch LINE (MState pv (K ++ ws ++ t) ∅) Some = Some z.
Proof.
  intros Hpv HK0 HK Hafter Htail.
  unfold LINE. rewrite rmatch_Seq, rmatch_Bol_twice by done. cbv beta.
  destruct K as [|k K]; [done|]. apply Forall_cons in HK as [Hk HK].
  rewrite rmatch_Seq. unfold space at 1.
  rewrite rmatch_Star_Chr, star_chr_stop by (cbn; by apply key_char_not_space).
  rewrite rmatch_Seq, rmatch_Opt.
  match goal with
  | |- or_else ?e _ = _ => assert (e = None) as ->
  end.
  { unfold EXPORT. rewrite rmatch_Seq.
    cbn [groups app clear_groups foldr prev rest caps Lit].
    apply (export_fails (js "export") (k :: K)); try done.
    - by vm_compute; repeat constructor.
    - by constructor.
    - apply needs_first_repeat_cont. intros y Hy. rewrite rmatch_Seq.
      unfold KEY. cbn [rmatch]. by apply needs_first_Plus_Chr. }
  cbn [or_else]. rewrite rmatch_Seq. unfold KEY at 1. rewrite rmatch_Group.
  rewrite rmatch_Plus_Chr.
  cbn [app]. rewrite Hk.
  destruct Hafter as (Hws & Htk & Hts).
  apply star_chr_far; [done| |].
  - destruct ws as [|ch ws]; cbn [app].
    + done.
    + apply Forall_cons in Hws as [Hch _]. cbn. by apply space_not_key_char.
  - cbn [rest prev caps].
    change (k :: K ++ ws ++ t) with ((k :: K) ++ ws ++ t).
    rewrite take_app_minus.
    rewrite prev_after_cons with (pv := pv). exact Htail.
Qed.

Lemma space_not_char ch a :
  is_space ch = true → is_space a = false → is_char a ch = false.
Proof.
  intros Hch Ha. unfold is_char. destruct (N.eqb_spec ch a) as [->|]; [|done].
  congruence.
Qed.

Lemma is_char_refl a : is_char a a = true.
Proof. apply N.eqb_refl. Qed.

(** The separator, first form: blanks (maybe none), an equals sign, and
    lazily no blank at all when the rest matches right after the sign. *)
Lemma rmatch_SEPARATOR_equals pv ws tl cp z :
  Forall (λ ch, is_space ch = true) ws →
  rmatch LINE_TAIL (MState (Some Ch.EQUALS) tl cp) Some = Some z →
  rmatch (Seq SEPARATOR LINE_TAIL) (MState pv (ws ++ Ch.EQUALS :: tl) cp) Some
    = Some z.
Proof.
  intros Hws Htail. rewrite rmatch_Seq. unfold SEPARATOR. rewrite rmatch_Alt.
  match goal with
  | |- or_else ?e _ = _ => assert (e = Some z) as ->; [|done]
  end.
  rewrite rmatch_Seq. unfold space at 1. rewrite rmatch_Star_Chr.
  apply star_chr_far; [done..|].
  rewrite rmatch_Seq, rmatch_Chr, is_char_refl.
  unfold space. rewrite rmatch_StarLazy_Chr.
  destruct tl; cbn [starlazy_chr]; by rewrite Htail.
Qed.

(** The separator, second form: a colon right after the key and, lazily,
    one blank when the rest matches after it. *)
Lemma rmatch_SEPARATOR_colon pv sp tl cp z :
  is_space sp = true →
  rmatch LINE_TAIL (MState (Some sp) tl cp) Some = Some z →
  rmatch (Seq SEPARATOR LINE_TAIL) (MState pv (Ch.COLON :: sp :: tl) cp) Some
    = Some z.
Proof.
  intros Hsp Htail. rewrite rmatch_Seq. unfold SEPARATOR. rewrite rmatch_Alt.
  match goal with
  | |- or_else ?e _ = _ => assert (e = None) as ->
  end.
  { rewrite rmatch_Seq. unfold space at 1.
    rewrite rmatch_Star_Chr, star_chr_stop by done.
    rewrite rmatch_Seq, rmatch_Chr. done. }
  cbn [or_else]. rewrite rmatch_Seq, rmatch_Chr, is_char_refl.
  unfold space. rewrite rmatch_PlusLazy_Chr, Hsp.
  destruct tl; cbn [starlazy_chr]; by rewrite Htail.
Qed.

(** A colon must come right after the key and be followed by a blank: with
    anything else after the key, or after the colon, the separator fails. *)
Lemma rmatch_SEPARATOR_colon_needs_blank pv tl cp c :
  from_option is_space false (head tl) = false →
  rmatch SEPARATOR (MState pv (Ch.COLON :: tl) cp) c = None.
Proof.
  intros Htl. unfold SEPARATOR. rewrite rmatch_Alt.
  rewrite rmatch_Seq. unfold space at 1.
  rewrite rmatch_Star_Chr, star_chr_stop by done.
  rewrite rmatch_Seq, rmatch_Chr.
  change (is_char Ch.EQUALS Ch.COLON) with false. cbn [or_else].
  rewrite rmatch_Seq, rmatch_Chr, is_char_refl.
  unfold space. rewrite rmatch_PlusLazy_Chr.
  destruct tl as [|ch tl]; [done|]. cbn in Htl. by rewrite Htl.
Qed.

Lemma rmatch_SEPARATOR_blank_colon pv ws tl cp c :
  Forall (λ ch, is_space ch = true) ws → ws ≠ [] →
  rmatch SEPARATOR (MState pv (ws ++ Ch.COLON :: tl) cp) c = None.
Proof.
  intros Hws Hne. unfold SEPARATOR. rewrite rmatch_Alt.
  rewrite rmatch_Seq. unfold space at 1. rewrite rmatch_Star_Chr.
  rewrite (star_chr_fail _ (is_char Ch.EQUALS)); try done.
  - cbn [or_else]. rewrite rmatch_Seq.
    destruct Hws as [|ch ws Hch _]; [done|]. cbn [app]. rewrite rmatch_Chr.
    unfold is_char. destruct (N.eqb_spec ch Ch.COLON) as [->|]; done.
  - apply needs_first_Chr.
  - eapply Forall_impl; [exact Hws|]. intros ch H. cbn beta.
    by apply space_not_char.
Qed.

Lemma rmatch_LINE_TAIL_nil pv cp :
  rmatch LINE_TAIL (MState pv [] cp) Some = Some (MState pv [] cp).
Proof.
  unfold LINE_TAIL. rewrite rmatch_Seq, rmatch_Opt.
  unfold clear_groups. cbn [prev rest caps].
  rewrite (rmatch_consumes_nil VALUE) by reflexivity. cbn [or_else].
  rewrite rmatch_Seq. unfold space. rewrite rmatch_Star_Chr. cbn [star_chr].
  rewrite rmatch_Seq, rmatch_Opt. unfold clear_groups. cbn [prev rest caps].
  rewrite (rmatch_consumes_nil COMMENT) by reflexivity.
  cbn [or_else]. by rewrite rmatch_Eol_twice.
Qed.

(** A quoted alternative needs its quote: it fails on blanks followed by
    something else. *)
Lemma rmatch_quoted_fail q pv ws t cp c :
  is_quote q = true →
  Forall (λ ch, is_space ch = true) ws →
  from_option is_space false (head t) = false →
  from_option (is_char q) false (head t) = false →
  rmatch (quoted q) (MState pv (ws ++ t) cp) c = None.
Proof.
  intros Hq Hws Hts Htq. unfold quoted. rewrite rmatch_Seq. unfold space.
  rewrite rmatch_Star_Chr.
  apply (star_chr_fail _ (is_char q)); try done.
  - apply needs_first_Chr.
  - eapply Forall_impl; [exact Hws|]. intros ch H. cbn beta.
    apply space_not_char; [done|]. by apply is_quote_not_space.
Qed.

(** What follows the separator, for an unquoted value that runs to the end
    of the text: the second group takes the blanks before it and the value. *)
Lemma rmatch_LINE_TAIL_unquoted pv ws V cp :
  Forall (λ ch, is_space ch = true ∧ is_plain_char ch = true) ws →
  unquoted V →
  rmatch LINE_TAIL (MState pv (ws ++ V) cp) Some
    = Some (MState (prev_after pv (ws ++ V)) []
              (<[2 := ws ++ V]> (delete 2 cp))).
Proof.
  intros Hws (HV0 & HV & HVs & HVq).
  assert (Forall (λ ch, is_space ch = true) ws) as Hws1.
  { eapply Forall_impl; [exact Hws|]. by intros ? [? ?]. }
  assert (Forall (λ ch, is_plain_char ch = true) (ws ++ V)) as Hall.
  { apply Forall_app. split; [|done]. eapply Forall_impl; [exact Hws|].
    by intros ? [? ?]. }
  assert (∀ q, is_quote q = true → from_option (is_char q) false (head V) = false)
    as Hnq.
  { intros q Hq. destruct V as [|v V]; [done|]. cbn in *. unfold is_char.
    destruct (N.eqb_spec v q) as [->|]; [congruence|done]. }
  unfold LINE_TAIL. rewrite rmatch_Seq, rmatch_Opt.
  match goal with
  | |- or_else ?e _ = _ =>
      assert (e = Some (MState (prev_after pv (ws ++ V)) []
                          (<[2 := ws ++ V]> (delete 2 cp)))) as ->; [|done]
  end.
  change (groups VALUE) with [2]. unfold clear_groups.
  cbn [foldr prev rest caps].
  unfold VALUE. rewrite rmatch_Group. cbn [prev rest caps].
  rewrite !rmatch_Alt.
  rewrite !rmatch_quoted_fail by auto. cbn [or_else].
  rewrite rmatch_Plus_Chr.
  destruct (ws ++ V) as [|ch tl] eqn:E.
  { apply app_eq_nil in E as [_ ->]. done. }
  apply Forall_cons in Hall as [Hch Htl]. rewrite Hch.
  replace tl with (tl ++ []) at 1 by apply app_nil_r.
  apply star_chr_far; [done..|].
  cbn [rest prev caps]. unfold repeat_cont. cbn [rest length Nat.eqb andb].
  rewrite rmatch_Seq. unfold space. rewrite rmatch_Star_Chr. cbn [star_chr].
  rewrite rmatch_Seq, rmatch_Opt. unfold clear_groups. cbn [prev rest caps].
  rewrite (rmatch_consumes_nil COMMENT) by reflexivity.
  cbn [or_else]. rewrite rmatch_Eol_twice.
  change (S (length tl) - 0) with (length (ch :: tl)). rewrite firstn_all.
  by rewrite prev_after_cons with (pv := pv).
Qed.

(** ** One declaration, parsed *)

(** A text without a carriage return is its own normal form (line 183). *)
Lemma exec_from_LINE_BREAK_none p s :
  Forall (λ ch, ch ≠ Ch.CR) s → exec_from LINE_BREAK p s = None.
Proof.
  intros Hs. revert p. induction Hs as [|ch s Hch Hs IH]; intros p.
  - reflexivity.
  - rewrite exec_from_unfold. unfold LINE_BREAK at 1.
    rewrite rmatch_Seq, rmatch_Chr. unfold is_char.
    rewrite (proj2 (N.eqb_neq ch Ch.CR)) by done. by rewrite IH.
Qed.

Lemma replace_LINE_BREAK_id s :
  Forall (λ ch, ch ≠ Ch.CR) s →
  replace LINE_BREAK (tmpl_text [Ch.LF]) s = Some s.
Proof.
  intros Hs. rewrite replace_eq. apply replace_at_nomatch.
  by apply exec_from_LINE_BREAK_none.
Qed.

(** Line 199 finds nothing in a one-line text that does not begin with a
    quote. *)
Lemma exec_from_SURROUNDING_QUOTES_none p s :
  Forall (λ ch, is_line_terminator ch = false) s →
  at_line_start p = false ∨ from_option is_quote false (head s) = false →
  exec_from SURROUNDING_QUOTES p s = None.
Proof.
  intros Hs. revert p. induction Hs as [|ch s Hch Hs IH]; intros p Hp.
  - rewrite exec_from_unfold. unfold SURROUNDING_QUOTES.
    rewrite rmatch_Seq. cbn [rmatch prev rest]. by destruct p as [q|]; [destruct (is_line_terminator q)|].
  - rewrite exec_from_unfold.
    assert (rmatch SURROUNDING_QUOTES (MState p (ch :: s) ∅) Some = None) as ->.
    { unfold SURROUNDING_QUOTES. rewrite rmatch_Seq. cbn [rmatch prev].
      destruct Hp as [Hp|Hp].
      - destruct p as [q|]; [|done]. cbn in Hp. by rewrite Hp.
      - cbn in Hp. cbn [rest]. rewrite Hp.
        by destruct p as [q|]; [destruct (is_line_terminator q)|]. }
    rewrite IH; [done|]. left. done.
Qed.

Lemma drop_spaces_split l :
  ∃ w, l = w ++ drop_spaces l ∧ Forall (λ ch, is_space ch = true) w.
Proof.
  induction l as [|ch l (w & Hl & Hw)]; [by exists []|].
  cbn [drop_spaces]. destruct (is_space ch) eqn:E.
  - exists (ch :: w). split; [by rewrite Hl at 1|by constructor].
  - by exists [].
Qed.

Lemma trimEnd_split V :
  ∃ w, V = trimEnd V ++ w ∧ Forall (λ ch, is_space ch = true) w.
Proof.
  destruct (drop_spaces_split (reverse V)) as (w & HV & Hw).
  exists (reverse w). split.
  - unfold trimEnd. rewrite <- reverse_app, <- HV. by rewrite reverse_involutive.
  - by apply Forall_reverse.
Qed.

Lemma trim_head_not_space ws V :
  Forall (λ ch, is_space ch = true) ws →
  from_option is_space false (head V) = false →
  trim (ws ++ V) = trimEnd V.
Proof.
  intros Hws HV. unfold trim, trimStart. rewrite drop_spaces_app by done.
  destruct V as [|v V]; [done|]. cbn in HV. cbn [drop_spaces]. by rewrite HV.
Qed.

Lemma head_trimEnd V :
  from_option is_space false (head V) = false → head (trimEnd V) = head V.
Proof.
  intros HV. destruct (trimEnd_split V) as (w & Heq & Hw).
  destruct (trimEnd V) as [|v V'] eqn:E.
  - cbn [app] in Heq. subst w. destruct V as [|v V]; [done|].
    apply Forall_cons in Hw as [Hv _]. cbn in HV. congruence.
  - rewrite Heq. done.
Qed.

(** The value of a match whose second group is an unquoted one-line text,
    blanks before it: the text without the blanks around it. *)
Lemma match_value_unquoted ws V :
  Forall (λ ch, is_space ch = true) ws →
  from_option is_space false (head V) = false →
  from_option is_quote false (head V) = false →
  Forall (λ ch, is_line_terminator ch = false) V →
  match_value (Some (ws ++ V)) = Some (trimEnd V).
Proof.
  intros Hws HVs HVq HV1. unfold match_value. cbv zeta.
  change (default [] (Some (ws ++ V))) with (ws ++ V).
  rewrite trim_head_not_space by done.
  rewrite replace_eq, replace_at_nomatch.
  - cbn [mbind option_bind]. rewrite head_trimEnd by done.
    rewrite decide_False; [done|].
    destruct V as [|v V]; [done|]. cbn. intros [= ->]. done.
  - apply exec_from_SURROUNDING_QUOTES_none.
    + destruct (trimEnd_split V) as (w & Heq & _). rewrite Heq in HV1.
      by apply Forall_app in HV1 as [? _].
    + right. by rewrite head_trimEnd.
Qed.

(** A text that LINE matches from its start to its end has that one match. *)
Lemma matches_whole s y value :
  Forall (λ ch, ch ≠ Ch.CR) s →
  rmatch LINE (MState None s ∅) Some = Some y → rest y = [] →
  match_value (caps y !! 2) = Some value →
  matches s = Some [(default [] (caps y !! 1), value)].
Proof.
  intros Hs Hy Hrest Hv. unfold matches. rewrite replace_LINE_BREAK_id by done.
  cbn [mbind option_bind]. rewrite (scan_at_hit _ _ y value) by done.
  by rewrite Hrest, scan_at_nil.
Qed.

Lemma is_key_no_CR K : is_key K → Forall (λ ch, ch ≠ Ch.CR) K.
Proof.
  intros [_ HK]. eapply Forall_impl; [exact HK|]. apply key_char_not_CR.
Qed.

Lemma plain_no_CR V :
  Forall (λ ch, is_plain_char ch = true) V → Forall (λ ch, ch ≠ Ch.CR) V.
Proof.
  intros HV. eapply Forall_impl; [exact HV|]. intros ch H ->. done.
Qed.

(** The matches of the declarations K=, K=V, K = V and K: V. *)
Lemma matches_empty_value K :
  is_key K → matches (K ++ [Ch.EQUALS]) = Some [(K, [])].
Proof.
  intros HK.
  pose (y := MState (Some Ch.EQUALS) [] (<[1 := K]> ∅)).
  rewrite (matches_whole _ y []).
  - subst y. cbn [caps]. by rewrite lookup_insert_eq.
  - apply Forall_app. split; [by apply is_key_no_CR|]. by repeat constructor.
  - destruct HK as [HK0 HK].
    apply (rmatch_LINE_key None K [] [Ch.EQUALS]); [done..|].
    apply (rmatch_SEPARATOR_equals _ []); [done|].
    apply rmatch_LINE_TAIL_nil.
  - done.
  - subst y. cbn [caps]. rewrite lookup_insert_ne by done.
    rewrite lookup_empty. by vm_compute.
Qed.

Lemma matches_unquoted K sep V :
  is_key K →
  sep = [Ch.EQUALS] ∨ sep = [Ch.SP; Ch.EQUALS; Ch.SP] ∨ sep = [Ch.COLON; Ch.SP] →
  unquoted V → Forall (λ ch, is_line_terminator ch = false) V →
  matches (K ++ sep ++ V) = Some [(K, trimEnd V)].
Proof.
  intros HK Hsep HV HV1.
  pose proof HV as (HV0 & HVp & HVs & HVq).
  assert (∃ y, rmatch LINE (MState None (K ++ sep ++ V) ∅) Some = Some y
             ∧ rest y = [] ∧ caps y !! 1 = Some K
             ∧ ∃ ws, caps y !! 2 = Some (ws ++ V)
                 ∧ Forall (λ ch, is_space ch = true) ws)
    as (y & Hy & Hrest & Hk & ws & Hv & Hws).
  { destruct HK as [HK0 HK].
    destruct Hsep as [ -> | [ -> | -> ] ].
    - eexists. split; [|split; [|split]].
      + apply (rmatch_LINE_key None K [] (Ch.EQUALS :: V)); [done..|].
        apply (rmatch_SEPARATOR_equals _ []); [done|].
        apply (rmatch_LINE_TAIL_unquoted _ []); done.
      + done.
      + cbn [caps]. rewrite lookup_insert_ne by done.
        rewrite lookup_delete_ne by done. by rewrite lookup_insert_eq.
      + exists []. cbn [caps]. by rewrite lookup_insert_eq.
    - eexists. split; [|split; [|split]].
      + apply (rmatch_LINE_key None K [Ch.SP] (Ch.EQUALS :: Ch.SP :: V));
          [done..| |].
        { split; [by repeat constructor|done]. }
        apply (rmatch_SEPARATOR_equals _ [Ch.SP]); [by repeat constructor|].
        apply (rmatch_LINE_TAIL_unquoted _ [Ch.SP]); [|done].
        by repeat constructor.
      + done.
      + cbn [caps]. rewrite lookup_insert_ne by done.
        rewrite lookup_delete_ne by done. by rewrite lookup_insert_eq.
      + exists [Ch.SP]. cbn [caps]. rewrite lookup_insert_eq.
        split; [done|]. by repeat constructor.
    - eexists. split; [|split; [|split]].
      + apply (rmatch_LINE_key None K [] (Ch.COLON :: Ch.SP :: V)); [done..|].
        apply rmatch_SEPARATOR_colon; [done|].
        apply (rmatch_LINE_TAIL_unquoted _ []); done.
      + done.
      + cbn [caps]. rewrite lookup_insert_ne by done.
        rewrite lookup_delete_ne by done. by rewrite lookup_insert_eq.
      + exists []. cbn [caps]. by rewrite lookup_insert_eq. }
  rewrite (matches_whole _ y (trimEnd V)); [by rewrite Hk|..|done|].
  - apply Forall_app. split; [by apply is_key_no_CR|].
    apply Forall_app. split; [|by apply plain_no_CR].
    destruct Hsep as [ -> | [ -> | -> ] ]; by repeat constructor.
  - done.
  - rewrite Hv. by apply match_value_unquoted.
Qed.

Lemma PROTO_is_key : is_key PROTO.
Proof. split; [done|]. vm_compute. repeat constructor. Qed.

(** X9. A declaration with nothing after the equals sign binds the key to
    the empty string, for every key but __proto__. *)
Lemma parse_empty_value K :
  is_key K → K ≠ PROTO → parse (K ++ [Ch.EQUALS]) = Some {[ K := [] ]}.
Proof.
  intros HK Hne. rewrite parse_matches, matches_empty_value by done.
  cbn [fmap option_fmap option_map]. unfold assign_all. cbn [foldl fst snd].
  by rewrite obj_set_insert.
Qed.

(** C8. The text __proto__= is a declaration of the key __proto__ with an
    empty right-hand side: LINE matches it, with that key and the value the
    empty string; the mapping [parse] returns has no such key, and no key at
    all. *)
Theorem parse_proto_empty_value :
  is_key PROTO
  ∧ matches (js "__proto__=") = Some [(js "__proto__", [])]
  ∧ parse (js "__proto__=") = Some ∅.
Proof.
  split; [apply PROTO_is_key|]. split.
  - apply (matches_empty_value PROTO PROTO_is_key).
  - rewrite parse_matches.
    change (js "__proto__=") with (PROTO ++ [Ch.EQUALS]).
    rewrite (matches_empty_value PROTO PROTO_is_key). reflexivity.
Qed.

(** X7. Last match wins, for every text and every key but __proto__: the
    mapping [parse] returns binds a key that matched to the value of its
    last match, and no key that did not match. *)
Lemma last_match_wins src ms :
  matches src = Some ms →
  ∃ obj, parse src = Some obj
    ∧ (∀ k, k ≠ PROTO → obj !! k = last_value k ms)
    ∧ obj !! PROTO = None.
Proof.
  intros Hms. exists (assign_all ∅ ms). rewrite parse_matches, Hms.
  split; [done|]. split.
  - intros k Hk. rewrite assign_all_lookup by done.
    by destruct (last_value k ms).
  - by apply assign_all_proto.
Qed.

(** C9. In the text of two lines __proto__=a and __proto__=b the key
    __proto__ matches twice, the last time with the value b; the mapping
    [parse] returns does not bind the key. *)
Theorem parse_proto_twice :
  let src := js "__proto__=a" ++ [Ch.LF] ++ js "__proto__=b" in
  matches src = Some [(js "__proto__", js "a"); (js "__proto__", js "b")]
  ∧ last_value (js "__proto__")
      [(js "__proto__", js "a"); (js "__proto__", js "b")] = Some (js "b")
  ∧ parse src = Some ∅.
Proof. split; [|split]; vm_compute; reflexivity. Qed.

(** X8. The declarations K=V, K = V and K: V bind the key to the value
    without the blanks around it, for every key but __proto__ and every
    unquoted one-line value. *)
Lemma parse_declaration K sep V :
  is_key K → K ≠ PROTO →
  sep = [Ch.EQUALS] ∨ sep = [Ch.SP; Ch.EQUALS; Ch.SP] ∨ sep = [Ch.COLON; Ch.SP] →
  unquoted V → Forall (λ ch, is_line_terminator ch = false) V →
  parse (K ++ sep ++ V) = Some {[ K := trimEnd V ]}.
Proof.
  intros HK Hne Hsep HV HV1. rewrite parse_matches, matches_unquoted by done.
  cbn [fmap option_fmap option_map]. unfold assign_all. cbn [foldl fst snd].
  by rewrite obj_set_insert.
Qed.

(** C6. A colon is a separator only right after the key and followed by a
    blank: the declarations K:V and K : V do not match LINE and give the
    empty mapping, while K=V, K = V and K: V bind K to V. *)
Theorem parse_colon_without_blank :
  parse (js "K:V") = Some ∅
  ∧ parse (js "K : V") = Some ∅
  ∧ parse (js "K=V") = Some {[ js "K" := js "V" ]}
  ∧ parse (js "K = V") = Some {[ js "K" := js "V" ]}
  ∧ parse (js "K: V") = Some {[ js "K" := js "V" ]}.
Proof. repeat split; vm_compute; reflexivity. Qed.

(** ** Declarations that do not match *)

Lemma star_chr_fail_run p pv ws t cp c :
  (∀ pv' u, u `suffix_of` ws → c (MState pv' (u ++ t) cp) = None) →
  from_option p false (head t) = false →
  star_chr p pv (ws ++ t) cp c = None.
Proof.
  intros Hc Ht. revert pv. induction ws as [|ch ws IH]; intros pv.
  - cbn [app]. rewrite star_chr_stop by done. by apply (Hc pv []).
  - cbn [app star_chr]. rewrite IH.
    + change (ch :: ws ++ t) with ((ch :: ws) ++ t).
      rewrite (Hc pv (ch :: ws)) by done. by destruct (p ch).
    + intros pv' u Hu. apply Hc. by apply suffix_cons_r.
Qed.

(** The separator does not begin with a key character. *)
Lemma rmatch_SEPARATOR_key_char pv ch tl cp c :
  is_key_char ch = true →
  rmatch SEPARATOR (MState pv (ch :: tl) cp) c = None.
Proof.
  intros Hch. unfold SEPARATOR. rewrite rmatch_Alt, !rmatch_Seq.
  unfold space at 1.
  rewrite rmatch_Star_Chr, star_chr_stop by (cbn; by apply key_char_not_space).
  rewrite rmatch_Seq, !rmatch_Chr. unfold is_char.
  rewrite (proj2 (N.eqb_neq ch Ch.EQUALS)) by (by apply key_char_not_equals).
  rewrite (proj2 (N.eqb_neq ch Ch.COLON)) by (by apply key_char_not_colon).
  done.
Qed.

(** LINE does not match at the start of a key after which the separator
    fails. *)
Lemma rmatch_LINE_fails pv K ws t :
  is_key K → after_key ws t →
  (∀ pv' cp c, rmatch SEPARATOR (MState pv' (ws ++ t) cp) c = None) →
  rmatch LINE (MState pv (K ++ ws ++ t) ∅) Some = None.
Proof.
  intros [HK0 HK] Hafter Hsep.
  unfold LINE. rewrite rmatch_Seq, rmatch_Alt.
  assert (rmatch (Seq (Star space) (Seq (Opt EXPORT) (Seq KEY
            (Seq SEPARATOR LINE_TAIL)))) (MState pv (K ++ ws ++ t) ∅) Some = None)
    as Hrest.
  { destruct K as [|k K]; [done|]. apply Forall_cons in HK as [Hk HK].
    rewrite rmatch_Seq. unfold space at 1.
    rewrite rmatch_Star_Chr, star_chr_stop by (cbn; by apply key_char_not_space).
    rewrite rmatch_Seq, rmatch_Opt.
    match goal with
    | |- or_else ?e _ = _ => assert (e = None) as ->
    end.
    { unfold EXPORT. rewrite rmatch_Seq.
      cbn [groups app clear_groups foldr prev rest caps Lit].
      apply (export_fails (js "export") (k :: K)); try done.
      - by vm_compute; repeat constructor.
      - by constructor.
      - apply needs_first_repeat_cont. intros y Hy. rewrite rmatch_Seq.
        unfold KEY. cbn [rmatch]. by apply needs_first_Plus_Chr. }
    cbn [or_else]. rewrite rmatch_Seq. unfold KEY at 1. rewrite rmatch_Group.
    rewrite rmatch_Plus_Chr. cbn [app]. rewrite Hk.
    apply star_chr_fail_run.
    - intros pv' u Hu. cbn [rest prev caps]. rewrite rmatch_Seq.
      destruct u as [|ch u]; [apply Hsep|].
      cbn [app]. apply rmatch_SEPARATOR_key_char.
      destruct Hu as [pre ->]. apply Forall_app in HK as [_ HK].
      by apply Forall_cons in HK as [? _].
    - destruct Hafter as (Hws & Htk & Hts).
      destruct ws as [|ch ws]; [done|]. apply Forall_cons in Hws as [Hch _].
      cbn. by apply space_not_key_char. }
  rewrite or_else_same, rmatch_Bol. destruct pv as [q|].
  - destruct (is_line_terminator q); [|done]. exact Hrest.
  - exact Hrest.
Qed.

(** LINE matches only at the start of a line. *)
Lemma exec_from_LINE_inside p s :
  at_line_start p = false →
  Forall (λ ch, is_line_terminator ch = false) s →
  exec_from LINE p s = None.
Proof.
  intros Hp Hs. revert p Hp. induction Hs as [|ch s Hch Hs IH]; intros p Hp.
  - rewrite exec_from_unfold. by rewrite rmatch_consumes_nil.
  - rewrite exec_from_unfold.
    assert (rmatch LINE (MState p (ch :: s) ∅) Some = None) as ->.
    { unfold LINE. rewrite rmatch_Seq. cbn [rmatch prev].
      destruct p as [q|]; [|done]. cbn in Hp. by rewrite Hp. }
    by rewrite IH.
Qed.

Lemma matches_none s :
  Forall (λ ch, is_line_terminator ch = false) s →
  rmatch LINE (MState None s ∅) Some = None →
  matches s = Some [].
Proof.
  intros Hs Hno. unfold matches. rewrite replace_LINE_BREAK_id.
  - cbn [mbind option_bind]. destruct Hs as [|ch s Hch Hs]; [apply scan_at_nil|].
    rewrite scan_at_skip by done. apply scan_at_nomatch.
    by apply exec_from_LINE_inside.
  - eapply Forall_impl; [exact Hs|]. intros ch H ->. done.
Qed.

Lemma key_char_not_terminator c :
  is_key_char c = true → is_line_terminator c = false.
Proof. intros H. class_facts. lia. Qed.

(** X10. A colon with no blank after it is no separator: the text of a
    key, a colon and a one-line value that does not begin with a blank gives
    the empty mapping. *)
Lemma parse_colon_needs_blank K V :
  is_key K →
  from_option is_space false (head V) = false →
  Forall (λ ch, is_line_terminator ch = false) V →
  parse (K ++ [Ch.COLON] ++ V) = Some ∅.
Proof.
  intros HK HVs HV1. rewrite parse_matches, matches_none; [done| |].
  - apply Forall_app. split.
    + destruct HK as [_ HK]. eapply Forall_impl; [exact HK|].
      apply key_char_not_terminator.
    + by constructor.
  - apply (rmatch_LINE_fails None K [] (Ch.COLON :: V)); [done|done|].
    intros pv' cp c. by apply rmatch_SEPARATOR_colon_needs_blank.
Qed.

(** X11. A colon with a blank before it is no separator: the text of a
    key, a space, a colon and any one-line text gives the empty mapping. *)
Lemma parse_blank_before_colon K V :
  is_key K →
  Forall (λ ch, is_line_terminator ch = false) V →
  parse (K ++ [Ch.SP; Ch.COLON] ++ V) = Some ∅.
Proof.
  intros HK HV1. rewrite parse_matches, matches_none; [done| |].
  - apply Forall_app. split.
    + destruct HK as [_ HK]. eapply Forall_impl; [exact HK|].
      apply key_char_not_terminator.
    + by repeat constructor.
  - apply (rmatch_LINE_fails None K [Ch.SP] (Ch.COLON :: V)); [done| |].
    + split; [by repeat constructor|done].
    + intros pv' cp c.
      apply (rmatch_SEPARATOR_blank_colon _ [Ch.SP]); [by repeat constructor|done].
Qed.

(** ** A quoted value, parsed *)

Lemma escaped_body_no_quote q body :
  Forall (λ ch, ch ≠ q) body → escaped_body q body.
Proof. induction 1; by constructor. Qed.

(** The inside of a quoted alternative, over a text whose quotes are escaped,
    up to the closing quote. *)
Lemma rmatch_quoted_body q body pv cp c z :
  q ≠ Ch.BACKSLASH →
  escaped_body q body →
  (∀ pv', c (MState pv' [] cp) = None) →
  (∀ pv', c (MState pv' [q] cp) = Some z) →
  rmatch (Star (Alt (Lit [Ch.BACKSLASH; q]) (Chr (is_not_char q))))
    (MState pv (body ++ [q]) cp) c = Some z.
Proof.
  intros Hq Hbody Hend Hc.
  set (A := Alt (Lit [Ch.BACKSLASH; q]) (Chr (is_not_char q))).
  assert (HA : ∀ x d, rmatch A x d =
            or_else (rmatch (Chr (is_char Ch.BACKSLASH)) x
                       (λ y, rmatch (Chr (is_char q)) y d))
                    (rmatch (Chr (is_not_char q)) x d)) by reflexivity.
  assert (Hunfold : ∀ pv u,
            rmatch (Star A) (MState pv u cp) c =
              or_else (rmatch A (MState pv u cp)
                         (repeat_cont 0 (MState pv u cp)
                            (λ y, rmatch (Star A) y c)))
                      (c (MState pv u cp))).
  { intros pv0 u. by rewrite rmatch_Star. }
  revert pv.
  induction Hbody as [|body Hbody IH|b body Hb Hbody IH]; intros pv;
    rewrite Hunfold, HA, !rmatch_Chr; cbn [app].
  - unfold is_char, is_not_char.
    rewrite (proj2 (N.eqb_neq q Ch.BACKSLASH)) by done.
    rewrite N.eqb_refl. cbn [negb or_else]. apply Hc.
  - rewrite !is_char_refl, rmatch_Chr, is_char_refl.
    unfold repeat_cont at 1. cbn [rest length].
    replace (length (body ++ [q]) =? S (S (length (body ++ [q])))) with false
      by (symmetry; apply Nat.eqb_neq; lia).
    cbn [andb Nat.eqb]. by rewrite IH.
  - unfold is_not_char. rewrite (proj2 (N.eqb_neq b q)) by done. cbn [negb].
    unfold repeat_cont at 2. cbn [rest]. rewrite eqb_length_cons.
    cbn [andb Nat.eqb]. rewrite IH.
    match goal with
    | |- or_else (or_else ?e _) _ = _ => assert (e = None) as ->; [|done]
    end.
    destruct (is_char Ch.BACKSLASH b); [|done].
    destruct Hbody as [|body' _|b' body' Hb' _]; cbn [app]; rewrite rmatch_Chr.
    + rewrite is_char_refl. unfold repeat_cont. cbn [rest length].
      cbn [Nat.eqb andb]. rewrite Hunfold.
      rewrite (rmatch_consumes_nil A) by reflexivity.
      cbn [or_else]. apply Hend.
    + unfold is_char. by rewrite (proj2 (N.eqb_neq Ch.BACKSLASH q)).
    + unfold is_char. by rewrite (proj2 (N.eqb_neq b' q)).
Qed.

Lemma rmatch_quoted q body pv cp c z :
  is_quote q = true →
  escaped_body q body →
  c (MState (Some q) [] cp) = Some z →
  rmatch (quoted q) (MState pv (q :: body ++ [q]) cp) c = Some z.
Proof.
  intros Hq Hbody Hc. unfold quoted. rewrite rmatch_Seq. unfold space.
  rewrite rmatch_Star_Chr, star_chr_stop
    by (cbn; by apply is_quote_not_space).
  rewrite rmatch_Seq, rmatch_Chr, is_char_refl, rmatch_Seq.
  apply rmatch_quoted_body; [| done | done |].
  - apply is_quote_cases in Hq as [ -> | [ -> | -> ] ]; done.
  - intros pv'. by rewrite rmatch_Chr, is_char_refl.
Qed.

(** What follows the separator, for a quoted value that runs to the end of
    the text: the second group takes the value with its quotes. *)
Lemma rmatch_LINE_TAIL_quoted q body pv cp :
  is_quote q = true →
  escaped_body q body →
  rmatch LINE_TAIL (MState pv (q :: body ++ [q]) cp) Some
    = Some (MState (Some q) [] (<[2 := q :: body ++ [q]]> (delete 2 cp))).
Proof.
  intros Hq Hbody. unfold LINE_TAIL. rewrite rmatch_Seq, rmatch_Opt.
  match goal with
  | |- or_else ?e _ = _ =>
      assert (e = Some (MState (Some q) []
                          (<[2 := q :: body ++ [q]]> (delete 2 cp)))) as ->;
        [|done]
  end.
  change (groups VALUE) with [2]. unfold clear_groups.
  cbn [foldr prev rest caps].
  unfold VALUE. rewrite rmatch_Group. cbn [prev rest caps].
  set (c := λ y : mstate, repeat_cont _ _ _ _).
  assert (c (MState (Some q) [] (delete 2 cp))
          = Some (MState (Some q) [] (<[2 := q :: body ++ [q]]> (delete 2 cp))))
    as Hc.
  { subst c. cbn beta. unfold repeat_cont. cbn [rest prev caps length].
    cbn [Nat.eqb andb]. rewrite rmatch_Seq. unfold space.
    rewrite rmatch_Star_Chr. cbn [star_chr].
    rewrite rmatch_Seq, rmatch_Opt. unfold clear_groups. cbn [prev rest caps].
    rewrite (rmatch_consumes_nil COMMENT) by reflexivity.
    cbn [or_else]. rewrite rmatch_Eol_twice.
    change (S (length (body ++ [q])) - 0) with (length (q :: body ++ [q])).
    by rewrite firstn_all. }
  assert (∀ q0, is_quote q0 = true → q0 ≠ q →
            rmatch (quoted q0) (MState pv (q :: body ++ [q]) (delete 2 cp)) c
            = None) as Hother.
  { intros q0 Hq0 Hne. apply (rmatch_quoted_fail q0 pv []); [done|done| |].
    - cbn. by apply is_quote_not_space.
    - cbn. unfold is_char. by rewrite (proj2 (N.eqb_neq q q0)). }
  pose proof (rmatch_quoted q body pv _ c _ Hq Hbody Hc) as Hmain.
  rewrite !rmatch_Alt.
  apply is_quote_cases in Hq as Hcase. destruct Hcase as [ -> | [ -> | -> ] ].
  - by rewrite Hmain.
  - rewrite (Hother Ch.SQUOTE) by done. cbn [or_else]. by rewrite Hmain.
  - rewrite (Hother Ch.SQUOTE), (Hother Ch.DQUOTE) by done. cbn [or_else].
    by rewrite Hmain.
Qed.

(** The declaration of a key with a quoted value: its one match has the key
    and, for value, the text between the quotes, expanded when the quotes
    are double quotes. *)
Lemma matches_quoted K q body :
  is_key K → is_quote q = true →
  escaped_body q body → Forall (λ ch, ch ≠ Ch.CR) body →
  matches (K ++ [Ch.EQUALS] ++ q :: body ++ [q]) =
    Some [(K, if decide (q = Ch.DQUOTE) then expand_escapes body else body)].
Proof.
  intros HK Hq Hbody Hcr.
  pose (y := MState (Some q) []
               (<[2 := q :: body ++ [q]]> (delete 2 (<[1 := K]> ∅)))).
  rewrite (matches_whole _ y
             (if decide (q = Ch.DQUOTE) then expand_escapes body else body)).
  - subst y. cbn [caps]. rewrite lookup_insert_ne by done.
    rewrite lookup_delete_ne by done. by rewrite lookup_insert_eq.
  - apply Forall_app. split; [by apply is_key_no_CR|].
    apply Forall_cons. split; [done|].
    assert (q ≠ Ch.CR) by (intros ->; done).
    apply Forall_cons. split; [done|]. apply Forall_app. split; [done|].
    by repeat constructor.
  - destruct HK as [HK0 HK].
    apply (rmatch_LINE_key None K [] (Ch.EQUALS :: q :: body ++ [q])); [done..|].
    apply (rmatch_SEPARATOR_equals _ []); [done|].
    by apply rmatch_LINE_TAIL_quoted.
  - done.
  - subst y. cbn [caps]. rewrite lookup_insert_eq.
    by apply (match_value_quoted []).
Qed.

Lemma parse_quoted K q body :
  is_key K → K ≠ PROTO → is_quote q = true →
  escaped_body q body → Forall (λ ch, ch ≠ Ch.CR) body →
  parse (K ++ [Ch.EQUALS] ++ q :: body ++ [q]) =
    Some {[ K := if decide (q = Ch.DQUOTE) then expand_escapes body else body ]}.
Proof.
  intros HK Hne Hq Hbody Hcr. rewrite parse_matches, matches_quoted by done.
  cbn [fmap option_fmap option_map]. unfold assign_all. cbn [foldl fst snd].
  by rewrite obj_set_insert.
Qed.

Lemma escaped_bodyb_unfold q x y tl :
  escaped_bodyb q (x :: y :: tl) =
    if (x =? Ch.BACKSLASH)%N && (y =? q)%N then escaped_bodyb q tl
    else negb (x =? q)%N && escaped_bodyb q (y :: tl).
Proof. reflexivity. Qed.

Lemma escaped_bodyb_correct q body :
  escaped_bodyb q body = true → escaped_body q body.
Proof.
  remember (length body) as n eqn:Hn. revert body Hn.
  induction n as [n IH] using lt_wf_ind. intros body ->.
  destruct body as [|x [|y tl']].
  - constructor.
  - intros Hx%negb_true_iff%N.eqb_neq.
    apply escaped_other; [done|apply escaped_nil].
  - rewrite escaped_bodyb_unfold.
    destruct ((x =? Ch.BACKSLASH)%N && (y =? q)%N) eqn:E.
    + apply andb_true_iff in E as [->%N.eqb_eq ->%N.eqb_eq].
      intros H. apply escaped_pair.
      apply (IH (length tl')); [cbn; lia|done|exact H].
    + intros [Hb%negb_true_iff%N.eqb_neq H]%andb_true_iff.
      apply escaped_other; [done|].
      apply (IH (length (y :: tl'))); [cbn; lia|done|exact H].
Qed.

(** C7. Escapes are expanded in double quotes only: for every key and every
    text whose quotes are escaped, the declaration of the key with the text
    in double quotes matches with, for value, the text in which every
    backslash-n has become a newline and every backslash-r a carriage
    return; in single quotes or backticks it matches with the text as it
    stands. The mapping binds the key to that value (the key __proto__
    apart, which is never bound). *)
Theorem escapes_expanded_in_double_quotes_only (K body : jsstring) (q : N) :
  is_key K → is_quote q = true →
  escaped_bodyb q body = true → Forall (λ ch, ch ≠ Ch.CR) body →
  let src := K ++ [Ch.EQUALS] ++ q :: body ++ [q] in
  let value := if decide (q = Ch.DQUOTE) then expand_escapes body else body in
  matches src = Some [(K, value)]
  ∧ (K ≠ PROTO → parse src = Some {[ K := value ]}).
Proof.
  intros HK Hq Hbody%escaped_bodyb_correct Hcr. cbv zeta. split.
  - by apply matches_quoted.
  - intros Hne. by apply parse_quoted.
Qed.

Lemma escapes_expanded_in_double_quotes_only_witness :
  parse (js "KEY=" ++ [Ch.DQUOTE] ++ js "multi\nline\r" ++ [Ch.DQUOTE])
    = Some {[ js "KEY" := js "multi" ++ [Ch.LF] ++ js "line" ++ [Ch.CR] ]}
  ∧ parse (js "KEY='multi\nline\r'") = Some {[ js "KEY" := js "multi\nline\r" ]}
  ∧ parse (js "KEY=`multi\nline\r`") = Some {[ js "KEY" := js "multi\nline\r" ]}.
Proof.
  assert (Hkey : is_key (js "KEY")) by (split; [done|vm_compute; repeat constructor]).
  assert (Hcr : Forall (λ ch, ch ≠ Ch.CR) (js "multi\nline\r"))
    by (vm_compute; repeat constructor; done).
  split; [|split].
  - apply (escapes_expanded_in_double_quotes_only (js "KEY") (js "multi\nline\r")
             Ch.DQUOTE Hkey eq_refl eq_refl Hcr). done.
  - apply (escapes_expanded_in_double_quotes_only (js "KEY") (js "multi\nline\r")
             Ch.SQUOTE Hkey eq_refl eq_refl Hcr). done.
  - apply (escapes_expanded_in_double_quotes_only (js "KEY") (js "multi\nline\r")
             Ch.BACKTICK Hkey eq_refl eq_refl Hcr). done.
Defined.

(** C10. Escaped quotes stay escaped: for every key and every quoted text
    whose quotes are escaped and which holds a backslash followed by a quote
    character, the declaration matches with, for value, the text without
    its two outer quotes, in which that backslash and that quote still
    stand; nothing else is rewritten in single quotes or backticks, and in
    double quotes only the backslash-n and backslash-r sequences before and
    after it are. The mapping binds the key to that value (the key __proto__
    apart, which is never bound). *)
Theorem escaped_quotes_are_kept (K u v : jsstring) (q q' : N) :
  is_key K → is_quote q = true → is_quote q' = true →
  escaped_bodyb q (u ++ Ch.BACKSLASH :: q' :: v) = true →
  Forall (λ ch, ch ≠ Ch.CR) (u ++ Ch.BACKSLASH :: q' :: v) →
  let src := K ++ [Ch.EQUALS] ++ q :: (u ++ Ch.BACKSLASH :: q' :: v) ++ [q] in
  let value :=
    if decide (q = Ch.DQUOTE)
    then expand_escapes u ++ Ch.BACKSLASH :: q' :: expand_escapes v
    else u ++ Ch.BACKSLASH :: q' :: v in
  matches src = Some [(K, value)]
  ∧ (K ≠ PROTO → parse src = Some {[ K := value ]}).
Proof.
  intros HK Hq Hq' Hbody%escaped_bodyb_correct Hcr. cbv zeta.
  rewrite <- (expand_escapes_escaped_quote u q' v) by done. split.
  - by apply matches_quoted.
  - intros Hne. by apply parse_quoted.
Qed.

Lemma escaped_quotes_are_kept_witness :
  parse (js "KEY='a\'b'") = Some {[ js "KEY" := js "a\'b" ]}.
Proof.
  apply (escaped_quotes_are_kept (js "KEY") (js "a") (js "b") Ch.SQUOTE Ch.SQUOTE).
  - split; [done|vm_compute; repeat constructor].
  - reflexivity.
  - reflexivity.
  - reflexivity.
  - vm_compute. repeat constructor; done.
  - done.
Defined.

(** ** The loader: paths, reads and sources *)

Lemma parse_nil : parse [] = Some ∅.
Proof. reflexivity. Qed.

Lemma Object_assign_empty_target (source : gmap jsstring jsstring) :
  source !! PROTO = None → Object_assign ∅ source = source.
Proof.
  intros Hp. apply map_eq. intros k. rewrite Object_assign_lookup.
  destruct (decide _) as [[-> _]|_]; [done|].
  by destruct (source !! k).
Qed.

Section LoaderSources.
Context {Issue : Type} (host : Host Issue).
Implicit Types (schema : gmap jsstring jsstring → TryResult Issue)
  (opt : option IOptions) (w : World).

Lemma loadFile_falsy w path enc :
  truthy_content (loadFile host w path enc).1 = false
  ↔ no_source host enc (file_at w path).
Proof.
  rewrite loadFile_content. unfold no_source.
  destruct (file_at w path) as [bytes|]; [|done].
  destruct enc as [e|]; cbn; [|done].
  destruct (decode host e bytes); done.
Qed.

(** X1. The no-file Error, in terms of the files: loadEnv throws it
    exactly when the environment name it read is truthy (a non-empty
    variable, or a member inherited from Object.prototype) and each of the
    two paths gives no source: the path is an object, or the file cannot be
    read, or (only when the option encoding is set) the file is read as an
    empty text. *)
Theorem loadEnv_no_file_error schema opt w :
  (loadEnv host schema opt w).1 = inl (Throw ERROR_NO_FILE) ↔
  truthy_value (environment_name host opt w) = true
  ∧ no_source host (opt ≫= encoding) (file_at w (core_path host opt w))
  ∧ no_source host (opt ≫= encoding)
      (file_at w (defaults_path host opt w (environment_name host opt w))).
Proof.
  rewrite <- !loadFile_falsy. unfold loadEnv.
  rewrite loadedEnvVariables_unfold. cbv zeta.
  destruct (truthy_value (environment_name host opt w)); cbn [negb];
    [|split; [done|by intros [? _]]].
  destruct (truthy_content (loadFile host w (core_path host opt w) _).1);
    destruct (truthy_content (loadFile host w (defaults_path _ _ _ _) _).1);
    cbn [negb andb]; [| | |done].
  all: split; [|by intros (_ & ? & ?)].
  all: destruct (source _ _ _ _) as [d|]; [|done].
  all: destruct (source _ _ _ _) as [c'|]; [|done].
  all: destruct (schema _) as [value|issues]; [|done].
  all: by destruct (assign_process_env _ _ _) as [[|] env'].
Qed.

(** X2. The reads of a call: loadEnv reads no file when the environment
    name it read is undefined or empty; otherwise it calls readFileSync
    exactly twice, on the core path and then on the defaults path (an object
    when defaultsPathsMap has none of its own for the name and
    Object.prototype has a member of that name), whatever the first read
    gave and however the call ends. The working directory and the files are
    as before. *)
Theorem loadEnv_reads schema opt w :
  let w' := (loadEnv host schema opt w).2 in
  let env := environment_name host opt w in
  cwd w' = cwd w ∧ files w' = files w
  ∧ reads w' = reads w ++
      if truthy_value env
      then [core_path host opt w; defaults_path host opt w env]
      else [].
Proof.
  cbv zeta. unfold loadEnv. rewrite loadedEnvVariables_unfold. cbv zeta.
  destruct (truthy_value (environment_name host opt w)); cbn [negb];
    [|by rewrite app_nil_r].
  set (p1 := core_path host opt w).
  set (p2 := defaults_path host opt w _).
  assert (reads (log_read (log_read w p1) p2) = reads w ++ [p1; p2]) as Hr.
  { cbn. by rewrite <- app_assoc. }
  destruct (_ && _); [done|].
  destruct (source _ _ _ _) as [d|]; [|done].
  destruct (source _ _ _ _) as [c'|]; [|done].
  destruct (schema _) as [value|issues]; [|done].
  by destruct (assign_process_env _ _ _) as [[|] env'].
Qed.

(** X3. What the schema is given comes from the files alone: two calls in
    worlds that differ only in process.env, and agree there on the
    environment name, compute the same merged variables (or end on the same
    Error before). No variable of process.env is merged in. *)
Theorem loadedEnvVariables_environment opt w (e : gmap jsstring jsstring) :
  environment_name host opt (set_process_env w e) = environment_name host opt w →
  (loadedEnvVariables host opt (set_process_env w e)).1
  = (loadedEnvVariables host opt w).1.
Proof.
  intros Henv. rewrite !loadedEnvVariables_unfold. cbv zeta. rewrite Henv.
  assert (∀ p, (loadFile host (set_process_env w e) p (opt ≫= encoding)).1
               = (loadFile host w p (opt ≫= encoding)).1) as Hfile.
  { intros p. by rewrite !loadFile_content. }
  assert (∀ p, source host opt (set_process_env w e) p = source host opt w p)
    as Hsource.
  { intros p. unfold source. by rewrite Hfile. }
  rewrite !Hfile, !Hsource.
  change (core_path host opt (set_process_env w e)) with (core_path host opt w).
  change (defaults_path host opt (set_process_env w e))
    with (defaults_path host opt w).
  destruct (negb (truthy_value _)); [done|].
  destruct (_ && _); [done|].
  destruct (source _ _ _ _) as [d|]; [|done].
  destruct (source _ _ _ _) as [c'|]; done.
Qed.

(** X4. One file alone: with the built-in parser and no encoding, when
    the environment name is truthy and only the core path, or only the
    defaults path, gives a file that can be read, the merged variables are
    exactly the mapping [parse] returns for that file. *)
Theorem loadEnv_one_file opt w (bytes : list N) :
  opt ≫= parse_option = None → opt ≫= encoding = None →
  truthy_value (environment_name host opt w) = true →
  let core := file_at w (core_path host opt w) in
  let defaults :=
    file_at w (defaults_path host opt w (environment_name host opt w)) in
  (core = Some bytes ∧ defaults = None)
  ∨ (core = None ∧ defaults = Some bytes) →
  ∃ m, parse (Buffer_toString host bytes) = Some m
    ∧ (loadedEnvVariables host opt w).1 = inr m.
Proof.
  cbv zeta. intros Hparse Henc Henv Hfiles.
  assert (is_Some (parse (Buffer_toString host bytes))) as [m Hm].
  { unfold parse.
    destruct (replace_total LINE_BREAK (tmpl_text [Ch.LF])
                (Buffer_toString host bytes)) as [lines ->].
    cbn [mbind option_bind]. apply parse_loop_total. lia. }
  exists m. split; [done|].
  rewrite loadedEnvVariables_unfold. cbv zeta. rewrite Henv. cbn [negb].
  unfold source. rewrite !loadFile_content, Hparse, Henc.
  destruct Hfiles as [[-> ->]|[-> ->]];
    cbn [fmap option_fmap option_map truthy_content content_or_empty negb
         andb default from_option id parse_source fst].
  - rewrite parse_nil, Hm. cbn [fst]. f_equal.
    apply Object_assign_empty_target. by eapply parse_no_proto.
  - rewrite parse_nil, Hm. cbn [fst]. f_equal.
Qed.

Lemma string_or_drop_empty a d : string_or (drop_empty a) d = string_or a d.
Proof. by destruct a as [[|c s]|]. Qed.

(** X21. An empty string given for the option corePath or processEnvKey
    counts as no option: a call with one of them set to the empty string
    does what the call without it does (the core path and the key NODE_ENV
    are the default ones). *)
Theorem loadEnv_empty_string_options schema (o : IOptions) w :
  loadEnv host schema (Some (drop_empty_options o)) w
  = loadEnv host schema (Some o) w.
Proof.
  unfold loadEnv, loadedEnvVariables. cbv zeta.
  cbn [mbind option_bind drop_empty_options corePath defaultsPathsMap
       processEnvKey parse_option encoding].
  by rewrite !string_or_drop_empty.
Qed.
End LoaderSources.

Lemma loadedEnvVariables_environment_witness :
  (loadedEnvVariables example_host None
     (set_process_env
        (example_world [(js "NODE_ENV", js "test")] [(js "/app/.env", js "A=1")])
        {[ js "NODE_ENV" := js "test"; js "A" := js "0" ]})).1
  = inr {[ js "A" := js "1" ]}.
Proof.
  rewrite (loadedEnvVariables_environment example_host None
             (example_world [(js "NODE_ENV", js "test")]
                [(js "/app/.env", js "A=1")])
             {[ js "NODE_ENV" := js "test"; js "A" := js "0" ]}).
  - vm_compute. reflexivity.
  - vm_compute. reflexivity.
Defined.

Lemma loadEnv_one_file_witness :
  ∃ m, parse (js "A=1") = Some m
    ∧ (loadedEnvVariables example_host None
         (example_world [(js "NODE_ENV", js "test")]
            [(js "/app/.env.test.defaults", js "A=1")])).1 = inr m.
Proof.
  apply (loadEnv_one_file example_host None
           (example_world [(js "NODE_ENV", js "test")]
              [(js "/app/.env.test.defaults", js "A=1")])
           (js "A=1")).
  - reflexivity.
  - reflexivity.
  - vm_compute. reflexivity.
  - right. split; vm_compute; reflexivity.
Defined.

(** ** The loader before the built-in parser *)

Section DotenvLoader.
Context {Issue : Type} (host : Host Issue) (parse : Parser).
Implicit Types (schema : gmap jsstring jsstring → TryResult Issue)
  (opt : option Dotenv.IOptions) (w : World).

(** X22. The earlier versions of loadEnv, which parse with dotenv and
    read Buffers, do what the current loadEnv does when it is given that
    parser in the option parse, no encoding, and the same other options:
    same end, same process.env, same reads. *)
Theorem dotenv_loadEnv_with_parser schema opt w :
  Dotenv.loadEnv host parse schema opt w
  = loadEnv host schema (Some (with_parser parse opt)) w.
Proof.
  unfold Dotenv.loadEnv, loadEnv, loadedEnvVariables. cbv zeta.
  cbn [mbind option_bind with_parser corePath defaultsPathsMap processEnvKey
       parse_option encoding].
  destruct (negb (truthy_value _)); [done|].
  set (p2 := value_or _ _).
  unfold Dotenv.loadFile, loadFile. cbn [files log_read].
  destruct (files w _) as [b1|]; cbn [files log_read];
    destruct p2 as [q|t]; [destruct (files w q) as [b2|]| |
                           destruct (files w q) as [b2|]|];
    cbn [truthy_content negb andb content_or_empty Dotenv.buffer_or_empty
         default from_option id];
    try done;
    destruct (parse _) as [d|]; try done;
    destruct (parse _) as [c'|]; done.
Qed.

(** X23. In the earlier versions every file that can be read is a source,
    an empty one too: loadEnv throws the no-file Error exactly when the
    environment name it read is truthy (a non-empty variable, or a member
    inherited from Object.prototype) and neither path gives a file that can
    be read (the defaults path gives none when it is an object). *)
Theorem dotenv_loadEnv_no_file_error schema opt w :
  let o := Some (with_parser parse opt) in
  (Dotenv.loadEnv host parse schema opt w).1 = inl (Throw ERROR_NO_FILE) ↔
  truthy_value (environment_name host o w) = true
  ∧ file_at w (core_path host o w) = None
  ∧ file_at w (defaults_path host o w (environment_name host o w)) = None.
Proof.
  cbv zeta. unfold Dotenv.loadEnv. cbv zeta.
  change (env_read host (process_env w)
            (string_or (opt ≫= Dotenv.processEnvKey) (js "NODE_ENV")))
    with (environment_name host (Some (with_parser parse opt)) w).
  destruct (truthy_value _); cbn [negb]; [|split; [done|by intros [? _]]].
  change (Str (string_or (opt ≫= Dotenv.corePath)
                 (path_resolve host (cwd w) (js ".env"))))
    with (core_path host (Some (with_parser parse opt)) w).
  change (value_or _ _)
    with (defaults_path host (Some (with_parser parse opt)) w
            (environment_name host (Some (with_parser parse opt)) w)).
  set (p1 := core_path _ _ _). set (p2 := defaults_path _ _ _ _).
  unfold Dotenv.loadFile. cbn [files log_read].
  change (match p1 with Str path => files w path | Obj _ => None end)
    with (file_at w p1).
  change (match p2 with Str path => files w path | Obj _ => None end)
    with (file_at w p2).
  destruct (file_at w p1) as [b1|]; destruct (file_at w p2) as [b2|];
    cbn [Dotenv.buffer_or_empty].
  4:{ done. }
  all: split; [|by intros (_ & ? & ?)].
  all: destruct (parse _) as [d|]; try done;
       destruct (parse _) as [c'|]; try done;
       destruct (schema _) as [value|issues]; try done;
       by destruct (assign_process_env _ _ _) as [[|] env'].
Qed.
End DotenvLoader.

(** ** Line breaks (line 183) *)

Lemma rmatch_LINE_BREAK_pair p tl :
  rmatch LINE_BREAK (MState p (Ch.CR :: Ch.LF :: tl) ∅) Some
  = Some (MState (Some Ch.LF) tl ∅).
Proof.
  unfold LINE_BREAK. rewrite rmatch_Seq, rmatch_Chr, is_char_refl.
  rewrite rmatch_Opt. unfold clear_groups. cbn [groups foldr prev rest caps].
  rewrite rmatch_Chr, is_char_refl. unfold repeat_cont. cbn [rest].
  by rewrite eqb_length_cons.
Qed.

Lemma rmatch_LINE_BREAK_lone p tl :
  from_option (is_char Ch.LF) false (head tl) = false →
  rmatch LINE_BREAK (MState p (Ch.CR :: tl) ∅) Some
  = Some (MState (Some Ch.CR) tl ∅).
Proof.
  intros H. unfold LINE_BREAK. rewrite rmatch_Seq, rmatch_Chr, is_char_refl.
  rewrite rmatch_Opt. unfold clear_groups. cbn [groups foldr prev rest caps].
  rewrite rmatch_Chr. destruct tl as [|y tl]; [done|]. cbn in H. by rewrite H.
Qed.

Lemma rmatch_LINE_BREAK_other p x tl :
  x ≠ Ch.CR → rmatch LINE_BREAK (MState p (x :: tl) ∅) Some = None.
Proof.
  intros Hx. unfold LINE_BREAK. rewrite rmatch_Seq, rmatch_Chr. unfold is_char.
  by rewrite (proj2 (N.eqb_neq x Ch.CR)).
Qed.

(** The replacement of line 183, resumed anywhere, computes
    [normalize_breaks]. *)
Lemma replace_at_LINE_BREAK p s :
  replace_at LINE_BREAK (tmpl_text [Ch.LF]) p s = Some (normalize_breaks s).
Proof.
  remember (length s) as n eqn:Hn. revert p s Hn.
  induction n as [n IH] using lt_wf_ind. intros p s ->.
  destruct s as [|x tl]; [by rewrite replace_at_nomatch|].
  cbn [normalize_breaks]. destruct (N.eqb_spec x Ch.CR) as [->|Hx].
  - destruct tl as [|y tl'].
    + rewrite (replace_at_hit _ _ _ _ (MState (Some Ch.CR) [] ∅));
        [|by apply rmatch_LINE_BREAK_lone|cbn; lia].
      cbn [prev rest]. by rewrite replace_at_nomatch.
    + destruct (N.eqb_spec y Ch.LF) as [->|Hy].
      * rewrite (replace_at_hit _ _ _ _ (MState (Some Ch.LF) tl' ∅));
          [|by apply rmatch_LINE_BREAK_pair|cbn; lia].
        cbn [prev rest]. rewrite (IH (length tl')); [done|cbn; lia|done].
      * rewrite (replace_at_hit _ _ _ _ (MState (Some Ch.CR) (y :: tl') ∅));
          [|apply rmatch_LINE_BREAK_lone; cbn; unfold is_char;
            by apply N.eqb_neq|cbn; lia].
        cbn [prev rest].
        rewrite (IH (length (y :: tl'))); [done|cbn; lia|done].
  - rewrite replace_at_skip by (by apply rmatch_LINE_BREAK_other).
    rewrite (IH (length tl)); [done|cbn; lia|done].
Qed.

Lemma replace_LINE_BREAK s :
  replace LINE_BREAK (tmpl_text [Ch.LF]) s = Some (normalize_breaks s).
Proof. rewrite replace_eq. apply replace_at_LINE_BREAK. Qed.

Lemma normalize_breaks_app s t :
  Forall (λ ch, ch ≠ Ch.CR) s →
  normalize_breaks (s ++ t) = s ++ normalize_breaks t.
Proof.
  induction 1 as [|x s Hx Hs IH]; [done|].
  cbn [app normalize_breaks]. rewrite (proj2 (N.eqb_neq x Ch.CR)) by done.
  by rewrite IH.
Qed.

Lemma normalize_breaks_id s :
  Forall (λ ch, ch ≠ Ch.CR) s → normalize_breaks s = s.
Proof.
  intros Hs. rewrite <- (app_nil_r s) at 1.
  rewrite normalize_breaks_app by done. cbn. apply app_nil_r.
Qed.

Lemma normalize_breaks_no_CR s :
  Forall (λ ch, ch ≠ Ch.CR) (normalize_breaks s).
Proof.
  remember (length s) as n eqn:Hn. revert s Hn.
  induction n as [n IH] using lt_wf_ind. intros s ->.
  destruct s as [|x tl]; [constructor|].
  cbn [normalize_breaks]. destruct (N.eqb_spec x Ch.CR) as [->|Hx].
  - constructor; [done|]. destruct tl as [|y tl']; [constructor|].
    destruct (y =? Ch.LF)%N.
    + apply (IH (length tl')); [cbn; lia|done].
    + apply (IH (length (y :: tl'))); [cbn; lia|done].
  - constructor; [done|]. apply (IH (length tl)); [cbn; lia|done].
Qed.

(** [parse] sees its text through the normal form of its line breaks. *)
Lemma parse_normalize_breaks src : parse src = parse (normalize_breaks src).
Proof.
  unfold parse. rewrite !replace_LINE_BREAK. cbn [mbind option_bind].
  by rewrite (normalize_breaks_id (normalize_breaks src))
    by apply normalize_breaks_no_CR.
Qed.

Lemma matches_normalize_breaks src :
  matches src = scan_at None (normalize_breaks src).
Proof. unfold matches. by rewrite replace_LINE_BREAK. Qed.

Lemma join_cons2 (sep a b : jsstring) (l : list jsstring) :
  join sep (a :: b :: l) = a ++ sep ++ join sep (b :: l).
Proof. reflexivity. Qed.

Lemma no_break_no_CR l :
  Forall no_break l → Forall (λ ch, ch ≠ Ch.CR) l.
Proof. intros H. eapply Forall_impl; [exact H|]. by intros ch [? ?]. Qed.

Lemma normalize_join_CRLF (ls : list jsstring) :
  Forall (Forall no_break) ls →
  normalize_breaks (join [Ch.CR; Ch.LF] ls) = join [Ch.LF] ls.
Proof.
  induction 1 as [|l ls Hl Hls IH]; [done|].
  destruct ls as [|l2 ls].
  - cbn [join]. apply normalize_breaks_id. by apply no_break_no_CR.
  - rewrite !join_cons2, normalize_breaks_app by by apply no_break_no_CR.
    cbn [app normalize_breaks]. cbn [N.eqb Ch.CR Ch.LF Pos.eqb]. by rewrite IH.
Qed.

Lemma head_join_CR (ls : list jsstring) :
  Forall (Forall no_break) ls →
  from_option (λ y, (y =? Ch.LF)%N) false (head (join [Ch.CR] ls)) = false.
Proof.
  intros Hls. destruct Hls as [|l ls Hl Hls]; [done|].
  assert (from_option (λ y, (y =? Ch.LF)%N) false (head l) = false) as Hhead.
  { destruct Hl as [|y l [_ Hy] _]; [done|]. cbn. by apply N.eqb_neq. }
  destruct ls as [|l2 ls]; cbn [join]; [done|].
  destruct l; [done|exact Hhead].
Qed.

Lemma normalize_join_CR (ls : list jsstring) :
  Forall (Forall no_break) ls →
  normalize_breaks (join [Ch.CR] ls) = join [Ch.LF] ls.
Proof.
  induction 1 as [|l ls Hl Hls IH]; [done|].
  destruct ls as [|l2 ls].
  - cbn [join]. apply normalize_breaks_id. by apply no_break_no_CR.
  - pose proof (head_join_CR (l2 :: ls) Hls) as Hhead.
    rewrite !join_cons2, normalize_breaks_app by by apply no_break_no_CR.
    f_equal. rewrite <- IH. cbn [app].
    destruct (join [Ch.CR] (l2 :: ls)) as [|y rest]; [done|].
    cbn [normalize_breaks]. cbn [N.eqb Ch.CR Pos.eqb].
    cbn in Hhead. by rewrite Hhead.
Qed.

(** X13. The three styles of line break read the same: for lines that
    hold neither a carriage return nor a newline, joined by carriage return
    and newline, or by carriage returns alone, [parse] returns what it
    returns for the lines joined by newlines. *)
Theorem parse_line_breaks (ls : list jsstring) :
  Forall (Forall no_break) ls →
  parse (join [Ch.CR; Ch.LF] ls) = parse (join [Ch.LF] ls)
  ∧ parse (join [Ch.CR] ls) = parse (join [Ch.LF] ls).
Proof.
  intros Hls. split.
  - rewrite (parse_normalize_breaks (join [Ch.CR; Ch.LF] ls)).
    by rewrite normalize_join_CRLF.
  - rewrite (parse_normalize_breaks (join [Ch.CR] ls)).
    by rewrite normalize_join_CR.
Qed.

Lemma parse_line_breaks_witness :
  parse (js "A=1" ++ [Ch.CR; Ch.LF] ++ js "B=2")
    = parse (js "A=1" ++ [Ch.LF] ++ js "B=2")
  ∧ parse (js "A=1" ++ [Ch.CR] ++ js "B=2")
    = parse (js "A=1" ++ [Ch.LF] ++ js "B=2").
Proof.
  apply (parse_line_breaks [js "A=1"; js "B=2"]).
  vm_compute. repeat constructor; done.
Defined.

(** ** The parts of a line, matched *)

Lemma rmatch_Lit_app w pv s cp c :
  rmatch (Lit w) (MState pv (w ++ s) cp) c = c (MState (prev_after pv w) s cp).
Proof.
  revert pv. induction w as [|a w IH]; intros pv; [done|].
  cbn [Lit app]. rewrite rmatch_Seq, rmatch_Chr, is_char_refl, IH.
  by rewrite prev_after_cons with (pv := pv).
Qed.

Lemma repeat_cont_moved x again y :
  length (rest y) < length (rest x) → repeat_cont 0 x again y = again y.
Proof.
  intros H. unfold repeat_cont.
  by rewrite (proj2 (Nat.eqb_neq (length (rest y)) (length (rest x)))) by lia.
Qed.

Lemma gap_space l : Forall is_gap l → Forall (λ ch, is_space ch = true) l.
Proof. intros H. eapply Forall_impl; [exact H|]. by intros ch [? ?]. Qed.

Lemma gap_no_CR l : Forall is_gap l → Forall (λ ch, ch ≠ Ch.CR) l.
Proof. intros H. eapply Forall_impl; [exact H|]. by intros ch [? ?]. Qed.

(** The key and what follows it, from the first code unit of the key. *)
Lemma rmatch_key_then pv K ws t z :
  K ≠ [] → Forall (λ ch, is_key_char ch = true) K →
  after_key ws t →
  rmatch (Seq SEPARATOR LINE_TAIL)
    (MState (prev_after pv K) (ws ++ t) (<[1 := K]> ∅)) Some = Some z →
  rmatch (Seq KEY (Seq SEPARATOR LINE_TAIL)) (MState pv (K ++ ws ++ t) ∅) Some
    = Some z.
Proof.
  intros HK0 HK (Hws & Htk & Hts) Htail.
  destruct K as [|k K]; [done|]. apply Forall_cons in HK as [Hk HK].
  rewrite rmatch_Seq. unfold KEY at 1. rewrite rmatch_Group, rmatch_Plus_Chr.
  cbn [app]. rewrite Hk. apply star_chr_far; [done| |].
  - destruct ws as [|ch ws]; cbn [app]; [done|].
    apply Forall_cons in Hws as [Hch _]. cbn. by apply space_not_key_char.
  - cbn [rest prev caps].
    change (k :: K ++ ws ++ t) with ((k :: K) ++ ws ++ t).
    rewrite take_app_minus.
    rewrite prev_after_cons with (pv := pv). exact Htail.
Qed.

(** LINE after its first blanks, when no export prefix stands there. *)
Lemma rmatch_LINE_FRONT_key pv K ws t z :
  K ≠ [] → Forall (λ ch, is_key_char ch = true) K →
  after_key ws t →
  rmatch (Seq SEPARATOR LINE_TAIL)
    (MState (prev_after pv K) (ws ++ t) (<[1 := K]> ∅)) Some = Some z →
  rmatch LINE_FRONT (MState pv (K ++ ws ++ t) ∅) Some = Some z.
Proof.
  intros HK0 HK Hafter Htail. unfold LINE_FRONT.
  rewrite rmatch_Seq, rmatch_Opt.
  match goal with
  | |- or_else ?e _ = _ => assert (e = None) as ->
  end.
  { unfold EXPORT. rewrite rmatch_Seq.
    cbn [groups app clear_groups foldr prev rest caps Lit].
    apply (export_fails (js "export") K); try done.
    - by vm_compute; repeat constructor.
    - apply needs_first_repeat_cont. intros y Hy. rewrite rmatch_Seq.
      unfold KEY. cbn [rmatch]. by apply needs_first_Plus_Chr. }
  cbn [or_else]. by apply rmatch_key_then.
Qed.

(** LINE after its first blanks, when the export prefix stands there. *)
Lemma rmatch_LINE_FRONT_export pv we K ws t z :
  Forall (λ ch, is_space ch = true) we → we ≠ [] →
  K ≠ [] → Forall (λ ch, is_key_char ch = true) K →
  after_key ws t →
  (∀ pv', rmatch (Seq SEPARATOR LINE_TAIL)
            (MState pv' (ws ++ t) (<[1 := K]> ∅)) Some = Some z) →
  rmatch LINE_FRONT (MState pv (js "export" ++ we ++ K ++ ws ++ t) ∅) Some
    = Some z.
Proof.
  intros Hwe Hwe0 HK0 HK Hafter Htail. unfold LINE_FRONT.
  rewrite rmatch_Seq, rmatch_Opt.
  match goal with
  | |- or_else ?e _ = _ => assert (e = Some z) as ->; [|done]
  end.
  change (groups EXPORT) with (@nil nat). unfold clear_groups.
  cbn [foldr prev rest caps].
  unfold EXPORT. rewrite rmatch_Seq, rmatch_Lit_app. unfold space.
  rewrite rmatch_Plus_Chr.
  destruct we as [|e we]; [done|]. apply Forall_cons in Hwe as [He Hwe].
  cbn [app]. rewrite He. apply star_chr_far; [done| |].
  - destruct K as [|k K]; [done|]. apply Forall_cons in HK as [Hk _].
    cbn. by apply key_char_not_space.
  - rewrite repeat_cont_moved by length_lia.
    apply rmatch_key_then; [done..|]. apply Htail.
Qed.

(** LINE on a declaration with an equals sign: blanks, an optional export
    prefix, the key, blanks, the sign; what follows is left to LINE_TAIL. *)
Lemma rmatch_LINE_equals pv ws0 pre K ws1 tl z :
  at_line_start pv = true →
  Forall (λ ch, is_space ch = true) ws0 →
  pre = [] ∨ (∃ we, pre = js "export" ++ we ∧ we ≠ []
                ∧ Forall (λ ch, is_space ch = true) we) →
  is_key K →
  Forall (λ ch, is_space ch = true) ws1 →
  rmatch LINE_TAIL (MState (Some Ch.EQUALS) tl (<[1 := K]> ∅)) Some = Some z →
  rmatch LINE (MState pv (ws0 ++ pre ++ K ++ ws1 ++ Ch.EQUALS :: tl) ∅) Some
    = Some z.
Proof.
  intros Hpv Hws0 Hpre [HK0 HK] Hws1 Htail.
  assert (after_key ws1 (Ch.EQUALS :: tl)) as Hafter by done.
  assert (∀ pv', rmatch (Seq SEPARATOR LINE_TAIL)
            (MState pv' (ws1 ++ Ch.EQUALS :: tl) (<[1 := K]> ∅)) Some = Some z)
    as Hsep.
  { intros pv'. by apply rmatch_SEPARATOR_equals. }
  unfold LINE. rewrite rmatch_Seq, rmatch_Bol_twice by done. cbv beta.
  rewrite rmatch_Seq. unfold space at 1. rewrite rmatch_Star_Chr.
  fold LINE_FRONT.
  apply star_chr_far; [done| |].
  - destruct Hpre as [->|(we & -> & _ & _)].
    + destruct K as [|k K]; [done|]. apply Forall_cons in HK as [Hk _].
      cbn. by apply key_char_not_space.
    + reflexivity.
  - destruct Hpre as [->|(we & -> & Hwe0 & Hwe)].
    + by apply (rmatch_LINE_FRONT_key _ K ws1 (Ch.EQUALS :: tl)).
    + rewrite <- app_assoc.
      by apply (rmatch_LINE_FRONT_export _ we K ws1 (Ch.EQUALS :: tl)).
Qed.

Lemma rmatch_Eol_at_end pv t cp c :
  at_line_end t = true →
  rmatch (Alt Eol Eol) (MState pv t cp) c = c (MState pv t cp).
Proof.
  intros H. cbn [rmatch rest]. destruct t as [|n t]; cbn in H.
  - apply or_else_same.
  - rewrite H. apply or_else_same.
Qed.

Lemma rmatch_Eol_inside pv t cp c :
  at_line_end t = false → rmatch (Alt Eol Eol) (MState pv t cp) c = None.
Proof.
  intros H. cbn [rmatch rest]. destruct t as [|n t]; cbn in H; [done|].
  by rewrite H.
Qed.

(** A comment runs to the end of its line. *)
Lemma rmatch_comment_end pv cm t cp :
  Forall (λ ch, is_dot ch = true) cm → at_line_end t = true →
  rmatch (Seq (Opt COMMENT) (Alt Eol Eol)) (MState pv (Ch.HASH :: cm ++ t) cp) Some
  = Some (MState (prev_after (Some Ch.HASH) cm) t cp).
Proof.
  intros Hcm Ht. rewrite rmatch_Seq, rmatch_Opt.
  match goal with
  | |- or_else ?e _ = _ =>
      assert (e = Some (MState (prev_after (Some Ch.HASH) cm) t cp)) as ->;
        [|done]
  end.
  change (groups COMMENT) with (@nil nat). unfold clear_groups.
  cbn [foldr prev rest caps].
  unfold COMMENT. rewrite rmatch_Seq, rmatch_Chr, is_char_refl.
  rewrite rmatch_Star_Chr. apply star_chr_far; [done| |].
  - destruct t as [|n t]; [done|]. cbn in *. unfold is_dot. by rewrite Ht.
  - rewrite repeat_cont_moved by length_lia.
    by rewrite rmatch_Eol_at_end.
Qed.

(** Neither a comment nor the end of a line before a word. *)
Lemma rmatch_comment_end_fail pv t cp :
  from_option (λ ch, negb (is_line_terminator ch) && negb (ch =? Ch.HASH)%N)
    false (head t) = true →
  rmatch (Seq (Opt COMMENT) (Alt Eol Eol)) (MState pv t cp) Some = None.
Proof.
  intros Ht. destruct t as [|ch t]; [done|]. cbn in Ht.
  apply andb_true_iff in Ht as [Hterm Hhash]. apply negb_true_iff in Hterm, Hhash.
  rewrite rmatch_Seq, rmatch_Opt.
  change (groups COMMENT) with (@nil nat). unfold clear_groups.
  cbn [foldr prev rest caps].
  unfold COMMENT at 1. rewrite rmatch_Seq, rmatch_Chr. unfold is_char.
  rewrite Hhash. cbn [or_else]. by apply rmatch_Eol_inside.
Qed.

Lemma rmatch_LINE_END_nil pv cp :
  rmatch LINE_END (MState pv [] cp) Some = Some (MState pv [] cp).
Proof.
  unfold LINE_END. rewrite rmatch_Seq. unfold space.
  rewrite rmatch_Star_Chr. cbn [star_chr].
  rewrite rmatch_Seq, rmatch_Opt. unfold clear_groups. cbn [prev rest caps].
  rewrite (rmatch_consumes_nil COMMENT) by reflexivity.
  cbn [or_else]. by rewrite rmatch_Eol_twice.
Qed.

Lemma rmatch_LINE_END_comment pv cm t cp :
  Forall (λ ch, is_dot ch = true) cm → at_line_end t = true →
  rmatch LINE_END (MState pv (Ch.HASH :: cm ++ t) cp) Some
  = Some (MState (prev_after (Some Ch.HASH) cm) t cp).
Proof.
  intros Hcm Ht. unfold LINE_END. rewrite rmatch_Seq. unfold space.
  rewrite rmatch_Star_Chr, star_chr_stop by done.
  by apply rmatch_comment_end.
Qed.

Lemma rmatch_comment_end_at_break pv b t cp :
  is_line_terminator b = true →
  rmatch (Seq (Opt COMMENT) (Alt Eol Eol)) (MState pv (b :: t) cp) Some
  = Some (MState pv (b :: t) cp).
Proof.
  intros Hb. rewrite rmatch_Seq, rmatch_Opt.
  change (groups COMMENT) with (@nil nat). unfold clear_groups.
  cbn [foldr prev rest caps].
  unfold COMMENT at 1. rewrite rmatch_Seq, rmatch_Chr.
  assert (is_char Ch.HASH b = false) as -> by (class_facts; lia).
  cbn [or_else]. by rewrite rmatch_Eol_at_end.
Qed.

Lemma blank_not_terminator ch :
  is_blank ch = true → is_line_terminator ch = false.
Proof. unfold is_blank. intros [_ H]%andb_true_iff. by apply negb_true_iff. Qed.

Lemma blank_space ch : is_blank ch = true → is_space ch = true.
Proof. unfold is_blank. by intros [H _]%andb_true_iff. Qed.

Lemma blank_not_hash ch : is_blank ch = true → (ch =? Ch.HASH)%N = false.
Proof. intros H%blank_space. class_facts. lia. Qed.

Lemma terminator_space ch : is_line_terminator ch = true → is_space ch = true.
Proof. intros H. unfold is_space. rewrite H. apply orb_true_r. Qed.

Lemma starts_word_head t :
  starts_word t = true →
  ∃ ch t', t = ch :: t' ∧ is_space ch = false ∧ (ch =? Ch.HASH)%N = false.
Proof.
  destruct t as [|ch t']; [done|]. cbn.
  intros [H1 H2]%andb_true_iff. apply negb_true_iff in H1, H2. eauto.
Qed.

(** The end of LINE before a line break that is followed by blanks and a
    word: nothing is taken, the match ends before the break. *)
Lemma rmatch_LINE_END_break pv b ws t cp :
  is_line_terminator b = true →
  Forall (λ ch, is_blank ch = true) ws → starts_word t = true →
  rmatch LINE_END (MState pv (b :: ws ++ t) cp) Some
  = Some (MState pv (b :: ws ++ t) cp).
Proof.
  intros Hb Hws Ht.
  destruct (starts_word_head t Ht) as (ch & t' & -> & Hsp & Hhash).
  unfold LINE_END. rewrite rmatch_Seq. unfold space. rewrite rmatch_Star_Chr.
  cbn [star_chr]. rewrite (terminator_space b Hb).
  rewrite (star_chr_fail_run is_space (Some b) ws (ch :: t')).
  - cbn [or_else]. by apply rmatch_comment_end_at_break.
  - intros pv' u [k ->]. apply Forall_app in Hws as [_ Hu].
    apply rmatch_comment_end_fail.
    destruct Hu as [|c u Hc Hu]; cbn.
    + rewrite Hhash. destruct (is_line_terminator ch) eqn:E; [|done].
      apply terminator_space in E. congruence.
    + by rewrite (blank_not_terminator c), (blank_not_hash c).
  - done.
Qed.

(** What follows the separator, for an unquoted value followed by
    something that is no part of it: the second group takes the blanks before
    the value and the value, the rest is for the end of LINE. *)
Lemma rmatch_LINE_TAIL_plain pv ws V t cp z :
  Forall (λ ch, is_space ch = true ∧ is_plain_char ch = true) ws →
  unquoted V →
  from_option is_plain_char false (head t) = false →
  rmatch LINE_END
    (MState (prev_after pv (ws ++ V)) t (<[2 := ws ++ V]> (delete 2 cp))) Some
    = Some z →
  rmatch LINE_TAIL (MState pv (ws ++ V ++ t) cp) Some = Some z.
Proof.
  intros Hws (HV0 & HV & HVs & HVq) Ht Hend.
  assert (Forall (λ ch, is_space ch = true) ws) as Hws1.
  { eapply Forall_impl; [exact Hws|]. by intros ? [? ?]. }
  assert (Forall (λ ch, is_plain_char ch = true) (ws ++ V)) as Hall.
  { apply Forall_app. split; [|done]. eapply Forall_impl; [exact Hws|].
    by intros ? [? ?]. }
  destruct V as [|v V]; [done|]. cbn in HVs, HVq.
  remember (ws ++ (v :: V) ++ t) as s eqn:Hs.
  assert (∀ q c, is_quote q = true →
            rmatch (quoted q) (MState pv s (delete 2 cp)) c = None) as Hfail.
  { intros q c Hq. subst s. apply rmatch_quoted_fail; [done..|].
    cbn. unfold is_char. destruct (N.eqb_spec v q) as [->|]; [congruence|done]. }
  unfold LINE_TAIL. rewrite rmatch_Seq, rmatch_Opt.
  match goal with
  | |- or_else ?e _ = _ => assert (e = Some z) as ->; [|done]
  end.
  change (groups VALUE) with [2]. unfold clear_groups.
  cbn [foldr prev rest caps].
  unfold VALUE. rewrite rmatch_Group. cbn [prev rest caps].
  rewrite !rmatch_Alt, !Hfail by done. cbn [or_else].
  rewrite rmatch_Plus_Chr.
  rewrite app_assoc in Hs.
  destruct (ws ++ v :: V) as [|ch tl] eqn:E; [by destruct ws|].
  subst s. cbn [app].
  apply Forall_cons in Hall as [Hch Htl]. rewrite Hch.
  apply star_chr_far; [done..|].
  cbn [rest prev caps]. rewrite repeat_cont_moved by length_lia.
  cbn [rest prev caps].
  change (ch :: tl ++ t) with ((ch :: tl) ++ t). rewrite take_app_minus.
  rewrite prev_after_cons with (pv := pv). exact Hend.
Qed.

(** ** One declaration in general *)

(** A text with one match that runs to its end gives one binding. *)
Lemma parse_one_match s y K value :
  Forall (λ ch, ch ≠ Ch.CR) s →
  rmatch LINE (MState None s ∅) Some = Some y → rest y = [] →
  caps y !! 1 = Some K → K ≠ PROTO →
  match_value (caps y !! 2) = Some value →
  parse s = Some {[ K := value ]}.
Proof.
  intros Hs Hy Hrest Hk Hne Hv.
  rewrite parse_matches, (matches_whole s y value) by done.
  rewrite Hk. cbn [fmap option_fmap option_map default]. unfold assign_all.
  cbn [foldl fst snd]. by rewrite obj_set_insert.
Qed.

Lemma dot_no_CR cm :
  Forall (λ ch, is_dot ch = true) cm → Forall (λ ch, ch ≠ Ch.CR) cm.
Proof.
  intros H. eapply Forall_impl; [exact H|]. intros ch Hch ->. done.
Qed.

(** X14. An unquoted value ends at the first hash: a declaration with an
    equals sign, an unquoted value, a hash and any text up to the end of the
    line binds the key to the value without its trailing blanks; the hash
    and what follows are dropped, with or without a blank before the hash. *)
Theorem parse_trailing_comment K V cm :
  is_key K → K ≠ PROTO →
  unquoted V → Forall (λ ch, is_line_terminator ch = false) V →
  Forall (λ ch, is_dot ch = true) cm →
  parse (K ++ [Ch.EQUALS] ++ V ++ [Ch.HASH] ++ cm) = Some {[ K := trimEnd V ]}.
Proof.
  intros HK Hne HV HV1 Hcm.
  pose proof HV as (HV0 & HVp & HVs & HVq).
  pose (y := MState (prev_after (Some Ch.HASH) cm) []
               (<[2 := V]> (delete 2 (<[1 := K]> ∅)))).
  apply (parse_one_match _ y); subst y; cbn [rest caps].
  - apply Forall_app. split; [by apply is_key_no_CR|].
    apply Forall_cons. split; [done|].
    apply Forall_app. split; [by apply plain_no_CR|].
    apply Forall_cons. split; [done|]. by apply dot_no_CR.
  - apply (rmatch_LINE_equals None [] [] K [] (V ++ Ch.HASH :: cm));
      [done|constructor|by left|done|constructor|].
    apply (rmatch_LINE_TAIL_plain _ [] V (Ch.HASH :: cm)); [constructor|done..|].
    cbn [app].
    pose proof (rmatch_LINE_END_comment (prev_after (Some Ch.EQUALS) V) cm []
                  (<[2 := V]> (delete 2 (<[1 := K]> ∅))) Hcm eq_refl) as H.
    by rewrite app_nil_r in H.
  - done.
  - rewrite lookup_insert_ne by done. rewrite lookup_delete_ne by done.
    by rewrite lookup_insert_eq.
  - done.
  - rewrite lookup_insert_eq. by apply (match_value_unquoted []).
Qed.

Lemma parse_trailing_comment_witness :
  parse (js "URL=http://host/page#top") = Some {[ js "URL" := js "http://host/page" ]}
  ∧ parse (js "A=1 # one") = Some {[ js "A" := js "1" ]}.
Proof.
  split.
  - apply (parse_trailing_comment (js "URL") (js "http://host/page") (js "top")).
    + split; [done|vm_compute; repeat constructor].
    + vm_compute. discriminate.
    + repeat split; [done|vm_compute; repeat constructor].
    + vm_compute. repeat constructor.
    + vm_compute. repeat constructor.
  - apply (parse_trailing_comment (js "A") (js "1 ") (js " one")).
    + split; [done|vm_compute; repeat constructor].
    + vm_compute. discriminate.
    + repeat split; [done|vm_compute; repeat constructor].
    + vm_compute. repeat constructor.
    + vm_compute. repeat constructor.
Defined.

(** X16. Indentation and the export prefix do not count: white space
    (blank lines included) before a declaration, and the word export with
    white space after it before the key, leave the binding as it is without
    them, the key bound to the unquoted value without its trailing blanks. *)
Theorem parse_export_indent ws0 pre K V :
  Forall is_gap ws0 → export_prefix pre →
  is_key K → K ≠ PROTO →
  unquoted V → Forall (λ ch, is_line_terminator ch = false) V →
  parse (ws0 ++ pre ++ K ++ [Ch.EQUALS] ++ V) = Some {[ K := trimEnd V ]}.
Proof.
  intros Hws0 Hpre HK Hne HV HV1.
  pose proof HV as (HV0 & HVp & HVs & HVq).
  pose (y := MState (prev_after (Some Ch.EQUALS) V) []
               (<[2 := V]> (delete 2 (<[1 := K]> ∅)))).
  apply (parse_one_match _ y); subst y; cbn [rest caps].
  - apply Forall_app. split; [by apply gap_no_CR|].
    apply Forall_app. split.
    { destruct Hpre as [->|(we & -> & _ & Hwe)]; [constructor|].
      apply Forall_app. split; [|by apply gap_no_CR].
      vm_compute. repeat constructor; done. }
    apply Forall_app. split; [by apply is_key_no_CR|].
    apply Forall_cons. split; [done|]. by apply plain_no_CR.
  - apply (rmatch_LINE_equals None ws0 pre K [] V);
      [done|by apply gap_space| |done|constructor|].
    + destruct Hpre as [->|(we & -> & Hwe0 & Hwe)]; [by left|right].
      exists we. split; [done|]. split; [done|]. by apply gap_space.
    + by apply (rmatch_LINE_TAIL_unquoted _ [] V).
  - done.
  - rewrite lookup_insert_ne by done. rewrite lookup_delete_ne by done.
    by rewrite lookup_insert_eq.
  - done.
  - rewrite lookup_insert_eq. by apply (match_value_unquoted []).
Qed.

Lemma parse_export_indent_witness :
  parse ([Ch.LF] ++ js "    export  JWT_SECRET_TOKEN=secret")
  = Some {[ js "JWT_SECRET_TOKEN" := js "secret" ]}.
Proof.
  apply (parse_export_indent ([Ch.LF] ++ js "    ") (js "export  ")
           (js "JWT_SECRET_TOKEN") (js "secret")).
  - vm_compute. repeat constructor; done.
  - right. exists (js "  "). split; [reflexivity|]. split; [done|].
    vm_compute. repeat constructor; done.
  - split; [done|vm_compute; repeat constructor].
  - vm_compute. discriminate.
  - repeat split; [done|vm_compute; repeat constructor].
  - vm_compute. repeat constructor.
Defined.

(** ** Lines that declare nothing *)

Lemma rmatch_SEPARATOR_blanks pv ws cp c :
  Forall (λ ch, is_space ch = true) ws →
  rmatch SEPARATOR (MState pv ws cp) c = None.
Proof.
  intros Hws. unfold SEPARATOR. rewrite rmatch_Alt.
  rewrite rmatch_Seq. unfold space at 1. rewrite rmatch_Star_Chr.
  rewrite <- (app_nil_r ws) at 1.
  rewrite (star_chr_fail _ (is_char Ch.EQUALS)); try done.
  - cbn [or_else]. rewrite rmatch_Seq, rmatch_Chr.
    destruct Hws as [|ch ws Hch Hws]; [done|].
    by rewrite (space_not_char ch Ch.COLON).
  - apply needs_first_Chr.
  - eapply Forall_impl; [exact Hws|]. intros ch H. cbn beta.
    by apply space_not_char.
Qed.

(** X12. A key alone declares nothing: the text of a key, followed or not
    by blanks, with no equals sign and no colon, gives the empty mapping. *)
Theorem parse_bare_key K ws :
  is_key K → Forall (λ ch, is_blank ch = true) ws →
  parse (K ++ ws) = Some ∅.
Proof.
  intros HK Hws. rewrite parse_matches, matches_none; [done| |].
  - apply Forall_app. split.
    + destruct HK as [_ HK]. eapply Forall_impl; [exact HK|].
      apply key_char_not_terminator.
    + eapply Forall_impl; [exact Hws|]. apply blank_not_terminator.
  - assert (Forall (λ ch, is_space ch = true) ws) as Hsp.
    { eapply Forall_impl; [exact Hws|]. apply blank_space. }
    pose proof (rmatch_LINE_fails None K ws [] HK) as H.
    rewrite app_nil_r in H. apply H; [done|].
    intros pv' cp c. by apply rmatch_SEPARATOR_blanks.
Qed.

Lemma parse_bare_key_witness : parse (js "KEY  ") = Some ∅.
Proof.
  apply (parse_bare_key (js "KEY") (js "  ")).
  - split; [done|vm_compute; repeat constructor].
  - vm_compute. repeat constructor.
Defined.

(** LINE after its first blanks fails where no key begins. *)
Lemma rmatch_LINE_FRONT_fail pv ws t :
  after_key ws t → rmatch LINE_FRONT (MState pv (ws ++ t) ∅) Some = None.
Proof.
  intros Hafter. unfold LINE_FRONT. rewrite rmatch_Seq, rmatch_Opt.
  match goal with
  | |- or_else ?e _ = _ => assert (e = None) as ->
  end.
  { unfold EXPORT. rewrite rmatch_Seq.
    cbn [groups app clear_groups foldr prev rest caps Lit].
    apply (export_fails (js "export") [] ws t); try done.
    - by vm_compute; repeat constructor.
    - apply needs_first_repeat_cont. intros y Hy. rewrite rmatch_Seq.
      unfold KEY. cbn [rmatch]. by apply needs_first_Plus_Chr. }
  cbn [or_else]. rewrite rmatch_Seq. unfold KEY. rewrite rmatch_Group.
  apply needs_first_Plus_Chr. cbn [rest].
  destruct Hafter as (Hws & Htk & Hts).
  destruct Hws as [|ch ws Hch Hws]; [done|]. cbn. by apply space_not_key_char.
Qed.

(** X15. A line declares nothing unless a key begins it: a one-line text
    in which what comes after the leading blanks is empty or begins with a
    code unit that is no key character (a comment line, a blank line, a line
    that begins with the equals sign) gives the empty mapping. *)
Theorem parse_no_key_line ws t :
  Forall (λ ch, is_blank ch = true) ws →
  Forall (λ ch, is_line_terminator ch = false) t →
  from_option is_key_char false (head t) = false →
  from_option is_space false (head t) = false →
  parse (ws ++ t) = Some ∅.
Proof.
  intros Hws Ht Htk Hts. rewrite parse_matches, matches_none; [done| |].
  - apply Forall_app. split; [|done].
    eapply Forall_impl; [exact Hws|]. apply blank_not_terminator.
  - unfold LINE. rewrite rmatch_Seq, rmatch_Bol_twice by done. cbv beta.
    rewrite rmatch_Seq. unfold space at 1. rewrite rmatch_Star_Chr.
    fold LINE_FRONT. apply star_chr_fail_run; [|done].
    intros pv' u [k ->]. apply Forall_app in Hws as [_ Hu].
    apply rmatch_LINE_FRONT_fail. split; [|done].
    eapply Forall_impl; [exact Hu|]. apply blank_space.
Qed.

Lemma parse_no_key_line_witness :
  parse (js "  # DATABASE_URL=core.database.url") = Some ∅.
Proof.
  apply (parse_no_key_line (js "  ") (js "# DATABASE_URL=core.database.url")).
  - vm_compute. repeat constructor.
  - vm_compute. repeat constructor.
  - reflexivity.
  - reflexivity.
Defined.

(** ** A quoted value after white space *)

Lemma rmatch_quoted_after q body pv ws cp c z :
  is_quote q = true →
  escaped_body q body →
  Forall (λ ch, is_space ch = true) ws →
  c (MState (Some q) [] cp) = Some z →
  rmatch (quoted q) (MState pv (ws ++ q :: body ++ [q]) cp) c = Some z.
Proof.
  intros Hq Hbody Hws Hc.
  pose proof (rmatch_quoted q body (prev_after pv ws) cp c z Hq Hbody Hc) as H.
  unfold quoted in *. rewrite rmatch_Seq in *. unfold space in *.
  rewrite rmatch_Star_Chr in *.
  rewrite star_chr_stop in H by (cbn; by apply is_quote_not_space).
  apply star_chr_far; [done| |exact H]. cbn. by apply is_quote_not_space.
Qed.

(** What follows the separator, for white space and a quoted value that
    runs to the end of the text: the second group takes both. *)
Lemma rmatch_LINE_TAIL_quoted_after q body pv ws cp :
  is_quote q = true →
  escaped_body q body →
  Forall (λ ch, is_space ch = true) ws →
  rmatch LINE_TAIL (MState pv (ws ++ q :: body ++ [q]) cp) Some
    = Some (MState (Some q) []
              (<[2 := ws ++ q :: body ++ [q]]> (delete 2 cp))).
Proof.
  intros Hq Hbody Hws. unfold LINE_TAIL. rewrite rmatch_Seq, rmatch_Opt.
  match goal with
  | |- or_else ?e _ = _ =>
      assert (e = Some (MState (Some q) []
                          (<[2 := ws ++ q :: body ++ [q]]> (delete 2 cp))))
        as ->; [|done]
  end.
  change (groups VALUE) with [2]. unfold clear_groups.
  cbn [foldr prev rest caps].
  unfold VALUE. rewrite rmatch_Group. cbn [prev rest caps].
  set (c := λ y : mstate, repeat_cont _ _ _ _).
  assert (c (MState (Some q) [] (delete 2 cp))
          = Some (MState (Some q) []
                    (<[2 := ws ++ q :: body ++ [q]]> (delete 2 cp))))
    as Hc.
  { subst c. cbn beta. rewrite repeat_cont_moved by length_lia.
    cbn [rest prev caps length]. rewrite Nat.sub_0_r, firstn_all.
    apply rmatch_LINE_END_nil. }
  assert (∀ q0, is_quote q0 = true → q0 ≠ q →
            rmatch (quoted q0)
              (MState pv (ws ++ q :: body ++ [q]) (delete 2 cp)) c
            = None) as Hother.
  { intros q0 Hq0 Hne. apply (rmatch_quoted_fail q0 pv ws); [done|done| |].
    - cbn. by apply is_quote_not_space.
    - cbn. unfold is_char. by rewrite (proj2 (N.eqb_neq q q0)). }
  pose proof (rmatch_quoted_after q body pv ws _ c _ Hq Hbody Hws Hc) as Hmain.
  rewrite !rmatch_Alt.
  apply is_quote_cases in Hq as Hcase. destruct Hcase as [ -> | [ -> | -> ] ].
  - by rewrite Hmain.
  - rewrite (Hother Ch.SQUOTE) by done. cbn [or_else]. by rewrite Hmain.
  - rewrite (Hother Ch.SQUOTE), (Hother Ch.DQUOTE) by done. cbn [or_else].
    by rewrite Hmain.
Qed.

(** X17. White space around the equals sign is skipped before a quoted
    value, line breaks included: a key, white space, the sign, white space
    and a quoted text bind the key to the text between the quotes (with the
    backslash-n and backslash-r sequences expanded in double quotes), even
    when the quoted text begins on a later line than the key. *)
Theorem parse_quoted_after_blanks K ws1 ws2 q body :
  is_key K → K ≠ PROTO →
  Forall is_gap ws1 → Forall is_gap ws2 →
  is_quote q = true → escaped_bodyb q body = true →
  Forall (λ ch, ch ≠ Ch.CR) body →
  parse (K ++ ws1 ++ [Ch.EQUALS] ++ ws2 ++ q :: body ++ [q]) =
    Some {[ K := if decide (q = Ch.DQUOTE) then expand_escapes body else body ]}.
Proof.
  intros HK Hne Hws1 Hws2 Hq Hbody%escaped_bodyb_correct Hcr.
  pose (y := MState (Some q) []
               (<[2 := ws2 ++ q :: body ++ [q]]> (delete 2 (<[1 := K]> ∅)))).
  apply (parse_one_match _ y); subst y; cbn [rest caps].
  - apply Forall_app. split; [by apply is_key_no_CR|].
    apply Forall_app. split; [by apply gap_no_CR|].
    apply Forall_cons. split; [done|].
    apply Forall_app. split; [by apply gap_no_CR|].
    assert (q ≠ Ch.CR) by (intros ->; done).
    apply Forall_cons. split; [done|]. apply Forall_app. split; [done|].
    by repeat constructor.
  - apply (rmatch_LINE_equals None [] [] K ws1 (ws2 ++ q :: body ++ [q]));
      [done|constructor|by left|done|by apply gap_space|].
    apply rmatch_LINE_TAIL_quoted_after; [done..|]. by apply gap_space.
  - done.
  - rewrite lookup_insert_ne by done. rewrite lookup_delete_ne by done.
    by rewrite lookup_insert_eq.
  - done.
  - rewrite lookup_insert_eq. apply match_value_quoted; [|done].
    by apply gap_space.
Qed.

Lemma parse_quoted_after_blanks_witness :
  parse (js "KEY =" ++ [Ch.LF] ++ js "  'a b'") = Some {[ js "KEY" := js "a b" ]}.
Proof.
  apply (parse_quoted_after_blanks (js "KEY") (js " ") ([Ch.LF] ++ js "  ")
           Ch.SQUOTE (js "a b")).
  - split; [done|vm_compute; repeat constructor].
  - vm_compute. discriminate.
  - vm_compute. repeat constructor; done.
  - vm_compute. repeat constructor; done.
  - reflexivity.
  - reflexivity.
  - vm_compute. repeat constructor; done.
Defined.

(** ** The keys of the mapping *)

Lemma clear_groups_lookup g x n :
  n ∉ g → caps (clear_groups g x) !! n = caps x !! n.
Proof.
  unfold clear_groups. cbn [caps]. induction g as [|i g IH]; [done|].
  intros [Hi Hg]%not_elem_of_cons. cbn [foldr].
  rewrite lookup_delete_ne by done. by apply IH.
Qed.

Lemma RepeatMatcher_keeps n m g fuel min max greedy :
  n ∉ g → keeps n m → keeps n (RepeatMatcher m g fuel min max greedy).
Proof.
  intros Hn Hm. revert min max.
  induction fuel as [|fuel IH]; intros min max x c z; [done|].
  cbn [RepeatMatcher].
  assert (Hstep : repeat_choice m g min greedy x c
            (repeat_cont min x
               (λ y, RepeatMatcher m g fuel (pred min) (pred <$> max) greedy y c))
            = Some z →
          ∃ y, c y = Some z ∧ caps y !! n = caps x !! n).
  { intros [H|[_ H]]%repeat_choice_Some; [|eauto].
    apply Hm in H as (y1 & [H _]%repeat_cont_Some & Hk1).
    apply IH in H as (y & Hc & Hk). exists y. split; [done|].
    rewrite Hk, Hk1. by apply clear_groups_lookup. }
  destruct max as [[|k]|]; eauto.
Qed.

(** A term leaves the captures of the groups it does not hold. *)
Lemma rmatch_keeps n r : n ∉ groups r → keeps n (rmatch r).
Proof.
  induction r as [|p|a IHa b IHb|a IHa b IHb|min max greedy a IHa|i a IHa|i| |];
    intros Hn x c z; cbn [rmatch]; cbn [groups] in Hn.
  - eauto.
  - destruct (rest x) as [|ch tl] eqn:E; [done|].
    destruct (p ch); [|done]. intros H. eexists. split; [exact H|]. done.
  - apply not_elem_of_app in Hn as [Ha Hb].
    intros (y1 & H & Hk1)%IHa; [|done]. apply IHb in H as (y & H & Hk); [|done].
    exists y. split; [done|congruence].
  - apply not_elem_of_app in Hn as [Ha Hb].
    intros [H|H]%or_else_Some; [by apply IHa|by apply IHb].
  - apply RepeatMatcher_keeps; auto.
  - apply not_elem_of_cons in Hn as [Hi Ha].
    intros (y1 & H & Hk1)%IHa; [|done]. eexists. split; [exact H|].
    cbn [caps]. by rewrite lookup_insert_ne.
  - destruct (caps x !! i) as [w|]; [|eauto].
    destruct (starts_with w (rest x)); [|done].
    intros H. eexists. split; [exact H|]. done.
  - destruct (prev x) as [q|]; [destruct (is_line_terminator q)|]; eauto. done.
  - destruct (rest x) as [|q tl] eqn:E; [eauto|].
    destruct (is_line_terminator q); [eauto|done].
Qed.

(** A result of the greedy star of a class: a run of the class was taken,
    and the continuation gave the result after it. *)
Lemma star_chr_Some p pv u cp c z :
  star_chr p pv u cp c = Some z →
  ∃ u1 u2 pv', u = u1 ++ u2 ∧ Forall (λ ch, p ch = true) u1
    ∧ c (MState pv' u2 cp) = Some z.
Proof.
  revert pv. induction u as [|a u IH]; intros pv; cbn [star_chr].
  - intros H. by exists [], [], pv.
  - destruct (p a) eqn:E.
    + intros [H|H]%or_else_Some.
      * apply IH in H as (u1 & u2 & pv' & -> & Hu1 & Hc).
        exists (a :: u1), u2, pv'. split; [done|]. split; [by constructor|done].
      * by exists [], (a :: u), pv.
    + intros H. by exists [], (a :: u), pv.
Qed.

(** The first group captures a key. *)
Lemma rmatch_KEY_Some x c z :
  rmatch KEY x c = Some z →
  ∃ y K, c y = Some z ∧ caps y !! 1 = Some K ∧ is_key K.
Proof.
  destruct x as [pv u cp]. unfold KEY. rewrite rmatch_Group, rmatch_Plus_Chr.
  destruct u as [|ch tl]; [done|]. destruct (is_key_char ch) eqn:E; [|done].
  intros (u1 & u2 & pv' & -> & Hu1 & Hc)%star_chr_Some.
  cbn [rest prev caps] in Hc.
  change (ch :: u1 ++ u2) with ((ch :: u1) ++ u2) in Hc.
  rewrite take_app_minus in Hc.
  eexists _, (ch :: u1). split; [exact Hc|]. cbn [caps].
  rewrite lookup_insert_eq. split; [done|]. split; [done|by constructor].
Qed.

(** Every match of LINE has a key for first capture. *)
Lemma rmatch_LINE_key_valid x z :
  rmatch LINE x Some = Some z → ∃ K, caps z !! 1 = Some K ∧ is_key K.
Proof.
  unfold LINE. rewrite rmatch_Seq. intros (y1 & H & _)%rmatch_reaches.
  rewrite rmatch_Seq in H. apply rmatch_reaches in H as (y2 & H & _).
  rewrite rmatch_Seq in H. apply rmatch_reaches in H as (y3 & H & _).
  rewrite rmatch_Seq in H. apply rmatch_KEY_Some in H as (y4 & K & H & Hk & HK).
  apply (rmatch_keeps 1) in H as (y5 & [= ->] & Hk5).
  - exists K. by rewrite Hk5.
  - change (groups (Seq SEPARATOR LINE_TAIL)) with [2].
    by intros [?|?%elem_of_nil]%elem_of_cons.
Qed.

Lemma exec_from_LINE_key_valid p s skipped y :
  exec_from LINE p s = Some (skipped, y) →
  ∃ K, caps y !! 1 = Some K ∧ is_key K.
Proof.
  revert p skipped. induction s as [|ch tl IH]; intros p skipped;
    rewrite exec_from_unfold.
  - destruct (rmatch LINE (MState p [] ∅) Some) as [y'|] eqn:E; [|done].
    intros [= <- <-]. by eapply rmatch_LINE_key_valid.
  - destruct (rmatch LINE (MState p (ch :: tl) ∅) Some) as [y'|] eqn:E.
    + intros [= <- <-]. by eapply rmatch_LINE_key_valid.
    + destruct (exec_from LINE (Some ch) tl) as [[sk' y']|] eqn:E'; [|done].
      cbn. intros [= <- <-]. by eapply IH.
Qed.

Lemma parse_loop_keys fuel p s obj obj' :
  (∀ k, is_Some (obj !! k) → is_key k) →
  parse_loop fuel p s obj = Some obj' →
  ∀ k, is_Some (obj' !! k) → is_key k.
Proof.
  revert p s obj. induction fuel as [|fuel IH]; intros p s obj Hobj; [done|].
  cbn [parse_loop].
  destruct (exec_from LINE p s) as [[skipped y]|] eqn:E; [|by intros [= <-]].
  apply exec_from_LINE_key_valid in E as (K & HK1 & HK).
  destruct (match_value (caps y !! 2)) as [v|]; [|done].
  cbn [mbind option_bind]. apply IH. intros k. rewrite HK1. cbn [default].
  unfold obj_set. destruct (decide _) as [_|_]; [by apply Hobj|].
  intros [<-|[_ H]]%lookup_insert_is_Some; [done|by apply Hobj].
Qed.

(** X18. The keys of the mapping [parse] returns: every key is a
    non-empty text of word characters, dots and dashes, and no key is
    __proto__, whatever the text parsed. *)
Theorem parse_keys src obj k :
  parse src = Some obj → is_Some (obj !! k) → is_key k ∧ k ≠ PROTO.
Proof.
  intros Hparse Hk. split.
  - unfold parse in Hparse.
    destruct (replace LINE_BREAK (tmpl_text [Ch.LF]) src) as [lines|]; [|done].
    cbn [mbind option_bind] in Hparse.
    eapply parse_loop_keys; [|exact Hparse|exact Hk].
    intros k' [v Hv]. by rewrite lookup_empty in Hv.
  - intros ->. apply parse_no_proto in Hparse. rewrite Hparse in Hk.
    by destruct Hk.
Qed.

Lemma parse_keys_witness :
  is_key (js "D.e-f") ∧ js "D.e-f" ≠ PROTO.
Proof.
  apply (parse_keys (js "x y z" ++ [Ch.LF] ++ js "D.e-f: 1")
           {[ js "D.e-f" := js "1" ]} (js "D.e-f")).
  - vm_compute. reflexivity.
  - eexists. vm_compute. reflexivity.
Defined.

(** ** One line after another *)

Lemma star_chr_prev p pv pv' u cp c :
  c (MState pv u cp) = c (MState pv' u cp) →
  star_chr p pv u cp c = star_chr p pv' u cp c.
Proof. intros H. destruct u as [|ch tl]; cbn [star_chr]; by rewrite H. Qed.

(** Past the start of the line, LINE does not look at what comes before
    the position it is tried at. *)
Lemma rmatch_LINE_FRONT_prev pv pv' s :
  rmatch LINE_FRONT (MState pv s ∅) Some
  = rmatch LINE_FRONT (MState pv' s ∅) Some.
Proof.
  unfold LINE_FRONT. rewrite !rmatch_Seq, !rmatch_Opt.
  change (groups EXPORT) with (@nil nat). unfold clear_groups.
  cbn [foldr prev rest caps]. f_equal.
Qed.

Lemma rmatch_LINE_prev pv pv' s :
  at_line_start pv = true → at_line_start pv' = true →
  rmatch LINE (MState pv s ∅) Some = rmatch LINE (MState pv' s ∅) Some.
Proof.
  intros H H'. unfold LINE.
  rewrite !rmatch_Seq, !rmatch_Bol_twice by done. cbv beta.
  rewrite !rmatch_Seq. unfold space. rewrite !rmatch_Star_Chr.
  fold LINE_FRONT. apply star_chr_prev, rmatch_LINE_FRONT_prev.
Qed.

Lemma rmatch_LINE_inside pv s :
  at_line_start pv = false → rmatch LINE (MState pv s ∅) Some = None.
Proof.
  intros H. unfold LINE. rewrite rmatch_Seq, rmatch_Alt, !rmatch_Bol.
  destruct pv as [q|]; [|done]. cbn in H. by rewrite H.
Qed.

(** The scan from the start of a line finds the same matches whatever line
    break comes before, and at index 0. *)
Lemma scan_at_prev pv pv' s :
  at_line_start pv = true → at_line_start pv' = true →
  scan_at pv s = scan_at pv' s.
Proof.
  intros H H'. unfold scan_at. cbn [scan_loop].
  rewrite (exec_from_unfold LINE pv s), (exec_from_unfold LINE pv' s).
  by rewrite (rmatch_LINE_prev pv pv' s).
Qed.

Lemma starts_word_normalize_breaks t :
  starts_word t = true → starts_word (normalize_breaks t) = true.
Proof.
  intros (ch & t' & -> & Hsp & Hhash)%starts_word_head.
  cbn [normalize_breaks].
  assert ((ch =? Ch.CR)%N = false) as -> by (class_facts; lia).
  cbn. by rewrite Hsp, Hhash.
Qed.

Lemma prev_after_last pv V :
  V ≠ [] → Forall (λ ch, is_line_terminator ch = false) V →
  at_line_start (prev_after pv V) = false.
Proof.
  intros HV0 HV. unfold prev_after.
  destruct (last V) as [v|] eqn:E; [|by apply last_None in E].
  cbn. apply last_Some in E as [V' ->].
  by apply Forall_app in HV as [_ [Hv _]%Forall_cons].
Qed.

(** The matches of a declaration with an unquoted value followed by a
    newline and a line that begins, after blanks, with a word: the match of
    the declaration, then the matches of what follows the newline. *)
Lemma matches_first_line K V ws t :
  is_key K →
  unquoted V → Forall (λ ch, is_line_terminator ch = false) V →
  Forall (λ ch, is_blank ch = true) ws → starts_word t = true →
  matches (K ++ [Ch.EQUALS] ++ V ++ [Ch.LF] ++ ws ++ t)
  = cons (K, trimEnd V) <$> matches (ws ++ t).
Proof.
  intros HK HV HV1 Hws Ht. pose proof HV as (HV0 & HVp & HVs & HVq).
  assert (Forall (λ ch, ch ≠ Ch.CR) ws) as Hws_cr.
  { eapply Forall_impl; [exact Hws|]. intros ch H%blank_not_terminator ->. done. }
  rewrite !matches_normalize_breaks.
  rewrite (normalize_breaks_app ws) by done.
  replace (K ++ [Ch.EQUALS] ++ V ++ [Ch.LF] ++ ws ++ t)
    with ((K ++ [Ch.EQUALS] ++ V ++ [Ch.LF] ++ ws) ++ t)
    by (by rewrite <- !app_assoc).
  rewrite normalize_breaks_app.
  2:{ apply Forall_app. split; [by apply is_key_no_CR|].
      apply Forall_cons. split; [done|].
      apply Forall_app. split; [by apply plain_no_CR|].
      apply Forall_cons. split; [done|]. done. }
  apply starts_word_normalize_breaks in Ht.
  generalize dependent (normalize_breaks t). clear t. intros t Ht.
  rewrite <- !app_assoc.
  pose (y := MState (prev_after (Some Ch.EQUALS) V) (Ch.LF :: ws ++ t)
               (<[2 := V]> (delete 2 (<[1 := K]> ∅)))).
  rewrite (scan_at_hit None _ y (trimEnd V)).
  - subst y. cbn [caps prev rest].
    rewrite lookup_insert_ne by done. rewrite lookup_delete_ne by done.
    rewrite lookup_insert_eq. cbn [default]. f_equal.
    rewrite scan_at_skip by (by apply rmatch_LINE_inside, prev_after_last).
    by apply scan_at_prev.
  - apply (rmatch_LINE_equals None [] [] K [] (V ++ Ch.LF :: ws ++ t));
      [done|constructor|by left|done|constructor|].
    apply (rmatch_LINE_TAIL_plain _ [] V (Ch.LF :: ws ++ t));
      [constructor|done..|].
    by apply rmatch_LINE_END_break.
  - subst y. cbn [caps]. rewrite lookup_insert_eq.
    by apply (match_value_unquoted []).
Qed.

(** X19. Lines compose: for a declaration with an unquoted value,
    followed by a newline and a text that begins, after blanks, with a word,
    [parse] returns the mapping of that text, with the key of the
    declaration bound to its value unless the text binds the key again. *)
Theorem parse_first_line K V ws t :
  is_key K → K ≠ PROTO →
  unquoted V → Forall (λ ch, is_line_terminator ch = false) V →
  Forall (λ ch, is_blank ch = true) ws → starts_word t = true →
  parse (K ++ [Ch.EQUALS] ++ V ++ [Ch.LF] ++ ws ++ t)
  = (λ m, m ∪ {[ K := trimEnd V ]}) <$> parse (ws ++ t).
Proof.
  intros HK Hne HV HV1 Hws Ht.
  rewrite !parse_matches, matches_first_line by done.
  destruct (matches (ws ++ t)) as [ms|]; [|done].
  cbn [fmap option_fmap option_map]. f_equal.
  unfold assign_all at 1. cbn [foldl fst snd].
  fold (assign_all (obj_set ∅ K (trimEnd V)) ms).
  rewrite obj_set_insert, insert_empty by done.
  assert (({[K := trimEnd V]} : gmap jsstring jsstring) !! PROTO = None) as Hp.
  { by rewrite lookup_singleton_ne. }
  apply map_eq. intros k. destruct (decide (k = PROTO)) as [->|Hk].
  - rewrite assign_all_proto by done. symmetry.
    apply lookup_union_None_2; [by apply assign_all_proto|done].
  - rewrite assign_all_lookup by done.
    destruct (last_value k ms) as [v|] eqn:E.
    + symmetry. apply lookup_union_Some_l.
      by rewrite assign_all_lookup, E.
    + rewrite lookup_union_r; [done|]. by rewrite assign_all_lookup, E.
Qed.

Lemma parse_first_line_witness :
  parse (js "DATABASE_URL=defaults.database.url" ++ [Ch.LF]
         ++ js "    JWT_SECRET_TOKEN=defaults_super_mega_secret")
  = (λ m, m ∪ {[ js "DATABASE_URL" := trimEnd (js "defaults.database.url") ]})
      <$> parse (js "    JWT_SECRET_TOKEN=defaults_super_mega_secret").
Proof.
  apply (parse_first_line (js "DATABASE_URL") (js "defaults.database.url")
           (js "    ") (js "JWT_SECRET_TOKEN=defaults_super_mega_secret")).
  - split; [done|vm_compute; repeat constructor].
  - vm_compute. discriminate.
  - repeat split; [done|vm_compute; repeat constructor].
  - vm_compute. repeat constructor.
  - vm_compute. repeat constructor.
  - reflexivity.
Defined.

(** No match begins inside a line. *)
Lemma scan_at_rest_of_line pv u r :
  at_line_start pv = false →
  Forall (λ ch, is_line_terminator ch = false) u →
  scan_at pv (u ++ Ch.LF :: r) = scan_at (Some Ch.LF) r.
Proof.
  intros Hpv Hu. revert pv Hpv.
  induction Hu as [|ch u Hch Hu IH]; intros pv Hpv; cbn [app];
    rewrite scan_at_skip by (by apply rmatch_LINE_inside); [done|].
  by apply IH.
Qed.

(** No match begins where, after white space, no key begins. *)
Lemma rmatch_LINE_no_key pv ws t :
  Forall (λ ch, is_space ch = true) ws →
  from_option is_key_char false (head t) = false →
  from_option is_space false (head t) = false →
  rmatch LINE (MState pv (ws ++ t) ∅) Some = None.
Proof.
  intros Hws Htk Hts.
  destruct (at_line_start pv) eqn:E; [|by apply rmatch_LINE_inside].
  unfold LINE. rewrite rmatch_Seq, rmatch_Bol_twice by done. cbv beta.
  rewrite rmatch_Seq. unfold space at 1. rewrite rmatch_Star_Chr.
  fold LINE_FRONT. apply star_chr_fail_run; [|done].
  intros pv' u [k ->]. apply Forall_app in Hws as [_ Hu].
  by apply rmatch_LINE_FRONT_fail.
Qed.

(** X20. A line that declares nothing is skipped: when a text begins with
    a line in which what comes after the leading blanks begins with a code
    unit that is neither white space nor a key character (a comment line,
    for one), [parse] returns what it returns for the text after the
    newline that ends this line. *)
Theorem parse_skips_line ws t r :
  Forall (λ ch, is_blank ch = true) ws →
  Forall (λ ch, is_line_terminator ch = false) t → t ≠ [] →
  from_option is_key_char false (head t) = false →
  from_option is_space false (head t) = false →
  parse (ws ++ t ++ [Ch.LF] ++ r) = parse r.
Proof.
  intros Hws Ht Ht0 Htk Hts. rewrite !parse_matches. f_equal.
  assert (Forall (λ ch, is_line_terminator ch = false) (ws ++ t)) as Hline.
  { apply Forall_app. split; [|done].
    eapply Forall_impl; [exact Hws|]. apply blank_not_terminator. }
  rewrite !matches_normalize_breaks.
  replace (ws ++ t ++ [Ch.LF] ++ r) with (((ws ++ t) ++ [Ch.LF]) ++ r)
    by (by rewrite <- !app_assoc).
  rewrite normalize_breaks_app.
  2:{ apply Forall_app. split; [|by repeat constructor].
      eapply Forall_impl; [exact Hline|]. intros ch H ->. done. }
  generalize (normalize_breaks r). clear r. intros r.
  rewrite <- app_assoc. cbn [app].
  assert (rmatch LINE (MState None ((ws ++ t) ++ Ch.LF :: r) ∅) Some = None)
    as Hno.
  { rewrite <- app_assoc. apply rmatch_LINE_no_key.
    - eapply Forall_impl; [exact Hws|]. apply blank_space.
    - by destruct t.
    - by destruct t. }
  destruct (ws ++ t) as [|c u] eqn:E; [by destruct ws|].
  cbn [app] in *. apply Forall_cons in Hline as [Hc Hu].
  rewrite scan_at_skip, scan_at_rest_of_line by done.
  by apply scan_at_prev.
Qed.

Lemma parse_skips_line_witness :
  parse (js "  # KEY=1" ++ [Ch.LF] ++ js "A=1") = parse (js "A=1").
Proof.
  apply (parse_skips_line (js "  ") (js "# KEY=1") (js "A=1")).
  - vm_compute. repeat constructor.
  - vm_compute. repeat constructor.
  - done.
  - reflexivity.
  - reflexivity.
Defined.

(** ** Instances *)

Lemma loadEnv_abrupt_process_env_witness :
  ∃ a w',
    loadEnv example_host test_schema None
      (example_world [(js "NODE_ENV", js "test")] [(js "/app/.env", js "A=1")])
    = (inl a, w')
    ∧ process_env w' = {[ js "NODE_ENV" := js "test" ]}.
Proof.
  eexists _, _. split; [vm_compute; reflexivity|].
  rewrite (loadEnv_abrupt_process_env example_host test_schema None
             (example_world [(js "NODE_ENV", js "test")]
                [(js "/app/.env", js "A=1")]) _ _
             ltac:(vm_compute; reflexivity) ltac:(discriminate)).
  vm_compute. reflexivity.
Defined.

Lemma last_match_wins_witness :
  ∃ obj, parse (js "A=1" ++ [Ch.LF] ++ js "B=2" ++ [Ch.LF] ++ js "A=3")
         = Some obj
    ∧ (∀ k, k ≠ PROTO →
         obj !! k = last_value k [(js "A", js "1"); (js "B", js "2");
                                  (js "A", js "3")])
    ∧ obj !! PROTO = None.
Proof.
  apply (last_match_wins
           (js "A=1" ++ [Ch.LF] ++ js "B=2" ++ [Ch.LF] ++ js "A=3")).
  vm_compute. reflexivity.
Defined.

Lemma parse_declaration_witness :
  parse (js "D.e-f" ++ [Ch.COLON; Ch.SP] ++ js "a b  ")
  = Some {[ js "D.e-f" := trimEnd (js "a b  ") ]}.
Proof.
  apply (parse_declaration (js "D.e-f") [Ch.COLON; Ch.SP] (js "a b  ")).
  - split; [done|vm_compute; repeat constructor].
  - vm_compute. discriminate.
  - right. right. reflexivity.
  - repeat split; [done|vm_compute; repeat constructor].
  - vm_compute. repeat constructor.
Defined.

Lemma parse_empty_value_witness :
  parse (js "asd" ++ [Ch.EQUALS]) = Some {[ js "asd" := [] ]}.
Proof.
  apply (parse_empty_value (js "asd")).
  - split; [done|vm_compute; repeat constructor].
  - vm_compute. discriminate.
Defined.

Lemma parse_colon_needs_blank_witness :
  parse (js "URL" ++ [Ch.COLON] ++ js "//host") = Some ∅.
Proof.
  apply (parse_colon_needs_blank (js "URL") (js "//host")).
  - split; [done|vm_compute; repeat constructor].
  - reflexivity.
  - vm_compute. repeat constructor.
Defined.

Lemma parse_blank_before_colon_witness :
  parse (js "K" ++ [Ch.SP; Ch.COLON] ++ js " V") = Some ∅.
Proof.
  apply (parse_blank_before_colon (js "K") (js " V")).
  - split; [done|vm_compute; repeat constructor].
  - vm_compute. repeat constructor.
Defined.

(** ** The tests of the repository, run on the model *)

(** should load environmental variables mixed up from core and defaults
    files *)
Example test_mixed_core_and_defaults :
  ∃ w,
    loadEnv example_host test_schema None
      (example_world [(js "NODE_ENV", js "test")]
         [(js "/app/.env", js "DATABASE_URL=core.database.url");
          (js "/app/.env.test.defaults",
           js "DATABASE_URL=defaults.database.url" ++ [Ch.LF]
           ++ js "    JWT_SECRET_TOKEN=defaults_super_mega_secret")])
    = (inr tt, w)
    ∧ process_env w !! js "DATABASE_URL" = Some (js "core.database.url")
    ∧ process_env w !! js "JWT_SECRET_TOKEN"
        = Some (js "defaults_super_mega_secret")
    ∧ reads w = [Str (js "/app/.env"); Str (js "/app/.env.test.defaults")].
Proof. eexists. repeat split; vm_compute; reflexivity. Qed.

(** should throw an error when there is no core and defaults files *)
Example test_no_files :
  (loadEnv example_host test_schema None
     (example_world [(js "NODE_ENV", js "test")] [])).1
  = inl (Throw ERROR_NO_FILE).
Proof. vm_compute. reflexivity. Qed.

(** should throw an validation error when .env files don't corresponding the
    schema *)
Example test_validation_error :
  (loadEnv example_host test_schema None
     (example_world [(js "NODE_ENV", js "test")]
        [(js "/app/.env", js "JWT_SECRET_TOKEN=core_super_mega_secret")])).1
  = inl (Throw (js "Validation errors: DATABASE_URL: Must be a string")).
Proof. vm_compute. reflexivity. Qed.

(** should load environmental variables with custom environment process
    variable *)
Example test_custom_environment_key :
  ∃ w,
    loadEnv example_host test_schema
      (Some {| corePath := None; defaultsPathsMap := None;
               processEnvKey := Some (js "CUSTOM_ENV"); parse_option := None;
               encoding := None |})
      (example_world [(js "NODE_ENV", js "test"); (js "CUSTOM_ENV", js "custom")]
         [(js "/app/.env.custom.defaults",
           [Ch.LF] ++ js "DATABASE_URL=defaults.database.url" ++ [Ch.LF]
           ++ js "JWT_SECRET_TOKEN=defaults_super_mega_secret" ++ [Ch.LF])])
    = (inr tt, w)
    ∧ process_env w !! js "DATABASE_URL" = Some (js "defaults.database.url")
    ∧ process_env w !! js "JWT_SECRET_TOKEN"
        = Some (js "defaults_super_mega_secret").
Proof. eexists. repeat split; vm_compute; reflexivity. Qed.

(** should loaded double-quoted variables *)
Example test_double_quoted :
  parse (js "DATABASE_URL=" ++ [Ch.DQUOTE] ++ js "defaults.database.url"
           ++ [Ch.DQUOTE; Ch.LF]
         ++ js "    JWT_SECRET_TOKEN=" ++ [Ch.DQUOTE]
           ++ js "defaults_super_mega_secret" ++ [Ch.DQUOTE])
  = Some {[ js "DATABASE_URL" := js "defaults.database.url";
            js "JWT_SECRET_TOKEN" := js "defaults_super_mega_secret" ]}.
Proof. vm_compute. reflexivity. Qed.

(** Comments, the export prefix, quotes around a hash, Windows line ends. *)
Example test_parse_shapes :
  parse (js "# a comment" ++ [Ch.CR; Ch.LF]
         ++ js "export A=1 # one" ++ [Ch.CR; Ch.LF]
         ++ js "B='x # y' # two" ++ [Ch.CR]
         ++ js "C" ++ [Ch.LF]
         ++ js "D.e-f: `q`")
  = Some {[ js "A" := js "1"; js "B" := js "x # y"; js "D.e-f" := js "q" ]}.
Proof. vm_compute. reflexivity. Qed.

(** ** A run with an inherited defaults path *)

(** An environment named after a member of Object.prototype, and a map of
    defaults paths without a path of its own for it: the defaults path is
    the inherited function, readFileSync throws on it, and with no core file
    the call ends on the Error about the missing files although the default
    defaults file is there. *)
Example test_inherited_defaults_path :
  let opt := Some {| corePath := None; defaultsPathsMap := Some ∅;
                     processEnvKey := None; parse_option := None;
                     encoding := None |} in
  let w := example_world [(js "NODE_ENV", js "constructor")]
             [(js "/app/.env.constructor.defaults", js "A=1")] in
  (loadEnv example_host test_schema opt w).1 = inl (Throw ERROR_NO_FILE)
  ∧ reads (loadEnv example_host test_schema opt w).2
    = [ Str (js "/app/.env");
        Obj (js "function Object() { [native code] }") ].
Proof. split; vm_compute; reflexivity. Qed.
